(** * xql: schema-driven validation of JSON input

    A shallow embedding of the validation core of the [xql] repository
    ([view/vo.go], [internal/object.go], [constraint.go]) and the
    properties its specification states about it.

    Conventions of the embedding.
    - Go strings are byte strings: [string] of the Standard Library.
    - Go maps are [gmap string _]; a [range] over a map visits the entries
      in an order chosen by the runtime, which the model takes as an
      explicit parameter (see [rangeOrder]).
    - A Go [error] value is a tree: a plain message, a [%w] wrapper or the
      aggregate of the view package.
    - A panic is an outcome of its own, next to a returned value.
    - The JSON text is handled by the gjson library, which is not part of
      the repository: a document is modelled by the tree gjson reads in
      it, and the accessors the code calls are modelled on that tree. *)

From Stdlib Require Import ZArith Ascii String.
From stdpp Require Import gmap strings list fin_maps sorting pretty.

Set Warnings "-register-all".

Local Open Scope string_scope.

(** ** Outcomes: a returned value or a panic *)

Inductive panic :=
  | WrongType          (* failed type assertion in [internal.Get] *)
  | NotAnIndex         (* path part is no integer index for a slice *)
  | OutOfBounds        (* slice index out of range *)
  | AlreadyExists      (* [Data.Add] on an existing property *)
  | ContainsDot        (* [Data.Add] with a dotted name *)
  | DoesNotExist       (* [Data.Update] on a missing property *)
  | NoSuchElement.     (* [MustGet] on an absent option *)

Inductive outcome (A : Type) :=
  | Ret (a : A)
  | Panic (p : panic).
Arguments Ret {A} a.
Arguments Panic {A} p.

Definition obind {A B} (m : outcome A) (k : A → outcome B) : outcome B :=
  match m with
  | Ret a => k a
  | Panic p => Panic p
  end.

Notation "x ←! m ; k" := (obind m (λ x, k))
  (at level 20, m at level 100, k at level 200, right associativity,
   format "x  ←!  m ;  '/' k").
Notation "' p ←! m ; k" := (obind m (λ x, let 'p := x in k))
  (at level 20, p pattern, m at level 100, k at level 200,
   right associativity).

(** A left fold whose step may panic: the loop stops at the first panic. *)
Definition foldlM {A St} (step : St → A → outcome St)
    : St → list A → outcome St :=
  fix go st l :=
    match l with
    | [] => Ret st
    | x :: l' => obind (step st x) (λ st', go st' l')
    end.

(** [mo.Result]: a value or an error. *)
Inductive Result (E A : Type) :=
  | Ok (a : A)
  | Err (e : E).
Arguments Ok {E A} a.
Arguments Err {E A} e.

(** ** Go strings *)

Module GoStrings.

(** [strings.Contains(s, c)] for a one-byte needle. *)
Fixpoint ContainsByte (s : string) (c : ascii) : bool :=
  match s with
  | "" => false
  | String x r => if decide (x = c) then true else ContainsByte r c
  end.

(** [strings.Split(s, sep)] for the one-byte separator the code uses: the
    result is never empty, and the empty string splits into one empty
    part. *)
Fixpoint Split (s : string) (sep : ascii) : list string :=
  match s with
  | "" => [""]
  | String x r =>
      if decide (x = sep) then "" :: Split r sep
      else match Split r sep with
           | [] => [String x ""]
           | p :: ps => String x p :: ps
           end
  end.

(** [s[i+1:]] for [i = strings.LastIndex(s, c)], when there is such an
    index. *)
Fixpoint AfterLast (s : string) (c : ascii) : option string :=
  match s with
  | "" => None
  | String x r =>
      match AfterLast r c with
      | Some t => Some t
      | None => if decide (x = c) then Some r else None
      end
  end.

(** [strings.Join(parts, sep)]. *)
Fixpoint Join (parts : list string) (sep : string) : string :=
  match parts with
  | [] => ""
  | [p] => p
  | p :: ps => p +:+ sep +:+ Join ps sep
  end.

(** The double quote, as a one-byte string. *)
Definition dquote : string := String (ascii_of_nat 34) "".

(** [strconv.Quote] on a string with nothing to escape. *)
Definition Quote (s : string) : string := dquote +:+ s +:+ dquote.

End GoStrings.

(** ** Go errors *)

(** An [error] is a message ([errors.New], or [fmt.Errorf] with no [%w]), a
    wrapper made by [fmt.Errorf] with one [%w] verb (the text before it, the
    wrapped error, the text after it), or the aggregate [*validationError]
    of the view package with its map from field path to error. *)
Inductive error :=
  | errorString (s : string)
  | wrapError (pre : string) (err : error) (post : string)
  | validationError (errors : gmap string error).

(** [errors.As(err, &nested)] for [nested : *validationError]: the first
    aggregate on the [Unwrap] chain. *)
Fixpoint errors_As (err : error) : option (gmap string error) :=
  match err with
  | errorString _ => None
  | wrapError _ e _ => errors_As e
  | validationError m => Some m
  end.

(** [errors.Is(err, target)] for a sentinel [target = errors.New(msg)]. *)
Fixpoint errors_Is (err : error) (msg : string) : bool :=
  match err with
  | errorString s => bool_decide (s = msg)
  | wrapError _ e _ => errors_Is e msg
  | validationError _ => false
  end.

(** ** Values held behind [any] *)

Inductive intKind := Int | Int8 | Int16 | Int32 | Int64.
Inductive uintKind := Uint | Uint8 | Uint16 | Uint32 | Uint64.

(** Width in bits; [int] and [uint] are taken on a 64-bit platform. *)
Definition intBits (k : intKind) : Z :=
  match k with
  | Int8 => 8 | Int16 => 16 | Int32 => 32 | Int | Int64 => 64
  end.
Definition uintBits (k : uintKind) : Z :=
  match k with
  | Uint8 => 8 | Uint16 => 16 | Uint32 => 32 | Uint | Uint64 => 64
  end.

(** Dynamic types.  [GoLib] stands for [float32], [float64] and [time.Time],
    [GoViewValueObject] for the interface [view.ValueObject] (the element
    type of the slice an array-of-object field yields). *)
Inductive goType :=
  | GoString
  | GoBool
  | GoInt (k : intKind)
  | GoUint (k : uintKind)
  | GoLib (name : string)
  | GoSlice (elem : goType)
  | GoData
  | GoValueObject
  | GoMap
  | GoViewValueObject.

Global Instance intKind_eq_dec : EqDecision intKind.
Proof. solve_decision. Defined.
Global Instance uintKind_eq_dec : EqDecision uintKind.
Proof. solve_decision. Defined.
Global Instance goType_eq_dec : EqDecision goType.
Proof. solve_decision. Defined.

(** A value of interface type [any]: the nil interface, a scalar, a slice
    with its element type, a plain [internal.Data] map, the struct
    [view.valueObject] wrapping a [Data], or a [map[string]any]. *)
Inductive any :=
  | Nil
  | Str (s : string)
  | Bool (b : bool)
  | IntV (k : intKind) (z : Z)
  | UintV (k : uintKind) (z : Z)
  | LibV (name : string) (repr : string)
  | Slice (elem : goType) (l : list any)
  | DataV (d : gmap string any)
  | VO (d : gmap string any)
  | MapV (d : gmap string any).

Definition typeOf (v : any) : option goType :=
  match v with
  | Nil => None
  | Str _ => Some GoString
  | Bool _ => Some GoBool
  | IntV k _ => Some (GoInt k)
  | UintV k _ => Some (GoUint k)
  | LibV n _ => Some (GoLib n)
  | Slice t _ => Some (GoSlice t)
  | DataV _ => Some GoData
  | VO _ => Some GoValueObject
  | MapV _ => Some GoMap
  end.

(** ** The gjson library: documents and results *)

Module Gjson.

(** The tree gjson reads in a valid JSON text: a number keeps its raw
    text ([Result.Raw]), a string is given decoded ([Result.String]), an
    object keeps its members in document order, duplicates included. *)
Inductive json :=
  | JNull
  | JFalse
  | JTrue
  | JNumber (raw : string)
  | JString (s : string)
  | JArray (elems : list json)
  | JObject (members : list (string * json)).

(** The [json string] argument of [Schema.Validate]: the empty string, a
    text that [gjson.Valid] refuses, or a valid text. *)
Inductive document :=
  | NoBody
  | Malformed (text : string)
  | Doc (j : json).

(** [Result.Type.String()]. *)
Definition TypeString (j : json) : string :=
  match j with
  | JNull => "Null"
  | JFalse => "False"
  | JTrue => "True"
  | JNumber _ => "Number"
  | JString _ => "String"
  | JArray _ | JObject _ => "JSON"
  end.

Definition IsArray (j : json) : bool :=
  match j with JArray _ => true | _ => false end.
Definition IsObject (j : json) : bool :=
  match j with JObject _ => true | _ => false end.

(** [gjson.Get(json, "@keys").Array()] read with [String()]: the member
    names of an object; for any other value the modifier yields one
    [null] per element [ForEach] visits, which reads as the empty
    string. *)
Definition keys (d : document) : list string :=
  match d with
  | NoBody | Malformed _ => []
  | Doc (JObject ms) => ms.*1
  | Doc (JArray es) => (λ _, "") <$> es
  | Doc _ => [""]
  end.

(** [gjson.Get(json, path)] reads its second argument as a path.  The
    bytes below are those to which the path syntax gives a meaning: the
    separators [.] and [|], the wildcards [*] and [?], the escape (the
    backslash), the array operator [#] and, at the head of a path, [@]
    (a modifier), [!] (a static value), the square and the curly bracket
    (a multipath).  A path with none of them is [plain]: against an
    object it is compared, as it is, with the names of the members. *)
Definition pathSyntax : list ascii :=
  ["."; "|"; "*"; "?"; ascii_of_nat 92; "#"; "@"; "!"; "["; "{"]%char.

Definition plain (path : string) : bool :=
  forallb (λ c, negb (GoStrings.ContainsByte path c)) pathSyntax.

(** The texts in which [gjson.Get] on a plain path looks for a member and
    for nothing else: the empty text and an object.  (In an array a path
    of digits is an index, and the scan for the first bracket does not
    skip the text of a string.) *)
Definition emptyOrObject (d : document) : bool :=
  match d with
  | NoBody | Doc (JObject _) => true
  | _ => false
  end.

(** [gjson.Get(json, name)] for a [plain] name on such a text: the first
    member of that name when the document is an object, and no result on
    the empty text.  The path syntax and the other documents are outside
    this definition: a statement that reads what [Get] returns for the
    name of a field takes the name to be [plain] and the text to be empty
    or an object. *)
Fixpoint member (ms : list (string * json)) (name : string) : option json :=
  match ms with
  | [] => None
  | (k, v) :: ms' => if decide (k = name) then Some v else member ms' name
  end.

Definition Get (d : document) (name : string) : option json :=
  match d with
  | Doc (JObject ms) => member ms name
  | _ => None
  end.

(** Signed and unsigned 64-bit wrap-around. *)
Definition wrap_int64 (z : Z) : Z := ((z + 2 ^ 63) mod 2 ^ 64 - 2 ^ 63)%Z.
Definition wrap_uint64 (z : Z) : Z := (z mod 2 ^ 64)%Z.

Definition digit (c : ascii) : option Z :=
  let n := Z.of_nat (nat_of_ascii c) in
  if decide (48 ≤ n ≤ 57)%Z then Some (n - 48)%Z else None.

(** The digit loop of gjson's [parseInt] and [parseUint]:
    [n = n*10 + digit] in 64-bit arithmetic, with no overflow check. *)
Fixpoint parseDigits (wrap : Z → Z) (n : Z) (s : string) : option Z :=
  match s with
  | "" => Some n
  | String c r =>
      match digit c with
      | Some d => parseDigits wrap (wrap (n * 10 + d)%Z) r
      | None => None
      end
  end.

Definition parseUint (s : string) : option Z :=
  match s with
  | "" => None
  | _ => parseDigits wrap_uint64 0 s
  end.

Definition parseInt (s : string) : option Z :=
  match s with
  | "" => None
  | String c r =>
      if decide (c = "-"%char) then
        match r with
        | "" => None
        | _ => (λ n, wrap_int64 (n * -1)) <$> parseDigits wrap_int64 0 r
        end
      else parseDigits wrap_int64 0 s
  end.

(** The exact value of an integer literal: an optional minus sign and at
    least one digit. *)
Definition literal (s : string) : option Z :=
  match s with
  | "" => None
  | String c r =>
      if decide (c = "-"%char) then
        match r with
        | "" => None
        | _ => Z.opp <$> parseDigits id 0 r
        end
      else parseDigits id 0 s
  end.

(** [safeInt]: a float in the range where every integer is exact. *)
Definition safeInt (v : Z) : bool :=
  bool_decide (-9007199254740991 ≤ v ≤ 9007199254740991)%Z.

(** [Result.Int()] on a number.  The float [Num] of an integer literal is
    in the safe range exactly when the literal is, and then converts back
    to it; beyond that range gjson parses the raw text again, wrapping
    around.  A raw text that is no integer literal (a fraction, an
    exponent) goes through a float conversion that is not modelled:
    [None].  Its caller only compares the decimal rendering of the
    result with the raw text, and they always differ: see
    [FormatInt_literal]. *)
Definition Int (raw : string) : option Z :=
  match literal raw with
  | Some v => if safeInt v then Some v else parseInt raw
  | None => None
  end.

(** [Result.Uint()] on a number; the same remarks apply. *)
Definition Uint (raw : string) : option Z :=
  match literal raw with
  | Some v => if safeInt v && bool_decide (0 ≤ v)%Z then Some v
              else parseUint raw
  | None => None
  end.

End Gjson.
Export Gjson (json, JNull, JFalse, JTrue, JNumber, JString, JArray, JObject,
              document, NoBody, Malformed, Doc).

(** ** The strconv package *)

Module Strconv.

(** [strconv.FormatInt(v, 10)], [strconv.FormatUint(v, 10)] and the verb
    [%d]: the decimal rendering, with a minus sign for a negative
    number. *)
Definition FormatInt (v : Z) : string := pretty v.

Definition ErrSyntax : string := "invalid syntax".
Definition ErrRange : string := "value out of range".

(** [*strconv.NumError]. *)
Definition NumError (func num err : string) : error :=
  errorString ("strconv." +:+ func +:+ ": parsing " +:+ GoStrings.Quote num
               +:+ ": " +:+ err).

(** Where the digit loop of [ParseUint] ends: on a value, on a byte that
    is no digit, or on a digit with which the value leaves the 64 bits. *)
Inductive scan :=
  | Value (n : Z)
  | Syntax
  | Range.

Definition maxVal : Z := (2 ^ 64 - 1)%Z.
Definition cutoff : Z := (maxVal / 10 + 1)%Z.

(** The loop of [strconv.ParseUint(s, 10, 64)] over the bytes of [s]: the
    error is returned at the byte where it is met. *)
Fixpoint digitLoop (n : Z) (s : string) : scan :=
  match s with
  | "" => Value n
  | String c r =>
      match Gjson.digit c with
      | None => Syntax
      | Some d =>
          if decide (cutoff ≤ n)%Z then Range
          else
            let n := (n * 10)%Z in
            let n1 := Gjson.wrap_uint64 (n + d) in
            if decide (n1 < n ∨ maxVal < n1)%Z then Range
            else digitLoop n1 r
      end
  end.

Definition uint64Of (s : string) : scan :=
  match s with
  | "" => Syntax
  | _ => digitLoop 0 s
  end.

(** [strconv.ParseUint(s, 10, 64)]. *)
Definition ParseUint (s : string) : Result error Z :=
  match uint64Of s with
  | Value n => Ok n
  | Syntax => Err (NumError "ParseUint" s ErrSyntax)
  | Range => Err (NumError "ParseUint" s ErrRange)
  end.

(** [strconv.ParseInt(s, 10, 64)]: the sign is picked off, the rest goes
    through [ParseUint], whose range error comes with the value
    [maxVal]; then the range of the signed type is checked. *)
Definition ParseInt (s : string) : Result error Z :=
  match s with
  | "" => Err (NumError "ParseInt" s ErrSyntax)
  | String c r =>
      let neg := bool_decide (c = "-"%char) in
      let digits := if decide (c = "+"%char ∨ c = "-"%char) then r else s in
      match uint64Of digits with
      | Syntax => Err (NumError "ParseInt" s ErrSyntax)
      | res =>
          let un := match res with Value n => n | _ => maxVal end in
          if negb neg && bool_decide (2 ^ 63 ≤ un)%Z
          then Err (NumError "ParseInt" s ErrRange)
          else if neg && bool_decide (2 ^ 63 < un)%Z
          then Err (NumError "ParseInt" s ErrRange)
          else Ok (if neg then - un else un)%Z
      end
  end.

(** [strconv.Atoi]: [ParseInt] on a 64-bit platform. *)
Definition Atoi (s : string) : option Z :=
  match ParseInt s with
  | Ok v => Some v
  | Err _ => None
  end.

(** [strconv.ParseBool]. *)
Definition ParseBool (s : string) : Result error bool :=
  if bool_decide (s ∈ ["1"; "t"; "T"; "TRUE"; "true"; "True"]) then Ok true
  else if bool_decide (s ∈ ["0"; "f"; "F"; "FALSE"; "false"; "False"])
  then Ok false
  else Err (NumError "ParseBool" s ErrSyntax).

End Strconv.

(** ** Ranging over a Go map *)

(** The order in which [for k, v := range m] visits a map is chosen by the
    Go runtime and differs from one loop to the next.  Every function of
    the model that ranges over a map takes the order as its first
    argument; a valid order visits each entry once. *)
Definition rangeOrder : Type := ∀ V : Type, gmap string V → list (string * V).

Definition rangeOrder_valid (range : rangeOrder) : Prop :=
  ∀ (V : Type) (m : gmap string V), range V m ≡ₚ map_to_list m.

(** One valid order, for running the model on an input. *)
Definition keyOrder : rangeOrder := λ V m, map_to_list m.

(** [sort.Strings]: ascending in the byte-wise order of Go strings. *)
Definition sort_Strings (keys : list string) : list string :=
  merge_sort String.le keys.

(** ** Package xql (constraint.go), imported by the view as [validator] *)

Module Validator.

Definition ErrIntegerOverflow : error := errorString "integer overflow".
Definition ErrTypeMismatch : error := errorString "type mismatch".
Definition ErrRequired : error := errorString "is required but not found".
Definition ErrLengthMin : error := errorString "length must be at least".
Definition ErrLengthMax : error := errorString "length must be at most".

(** The type parameter [T] of a field.  The conversions of [float32],
    [float64] and [time.Time] are those of the Go library
    ([strconv.ParseFloat], [time.Parse]), which is outside the
    repository: such a type carries its two conversions (from a JSON
    node, from a raw string), each giving the representation of the
    value or an error.  A statement quantified over fields thus holds
    whatever those library calls compute. *)
Inductive FieldType :=
  | TString
  | TBool
  | TInt (k : intKind)
  | TUint (k : uintKind)
  | TLib (name : string)
         (fromJson : json → Result error string)
         (fromString : string → Result error string).

(** The verb [%T] on the zero value of the type. *)
Definition typeName (T : FieldType) : string :=
  match T with
  | TString => "string"
  | TBool => "bool"
  | TInt Int => "int"
  | TInt Int8 => "int8"
  | TInt Int16 => "int16"
  | TInt Int32 => "int32"
  | TInt Int64 => "int64"
  | TUint Uint => "uint"
  | TUint Uint8 => "uint8"
  | TUint Uint16 => "uint16"
  | TUint Uint32 => "uint32"
  | TUint Uint64 => "uint64"
  | TLib name _ _ => name
  end.

Definition goTypeOf (T : FieldType) : goType :=
  match T with
  | TString => GoString
  | TBool => GoBool
  | TInt k => GoInt k
  | TUint k => GoUint k
  | TLib name _ _ => GoLib name
  end.

(** [Validator[T]]: nil ([None]) when the value passes. *)
Definition Validator : Type := any → option error.
(** [ValidateFunc[T]]: the constraint name and the validator. *)
Definition ValidateFunc : Type := string * Validator.

(** [OverflowError]. *)
Definition OverflowError (T : FieldType) : error :=
  wrapError ("for type " +:+ typeName T +:+ ": ") ErrIntegerOverflow "".

(** [reflect.Value.OverflowInt] and [OverflowUint] at a given width. *)
Definition OverflowInt (k : intKind) (x : Z) : bool :=
  negb (bool_decide (- 2 ^ (intBits k - 1) ≤ x ≤ 2 ^ (intBits k - 1) - 1)%Z).
Definition OverflowUint (k : uintKind) (x : Z) : bool :=
  negb (bool_decide (x < 2 ^ uintBits k)%Z).

(** [ParseStringTo]. *)
Definition ParseStringTo (T : FieldType) (s : string) : Result error any :=
  match T with
  | TString => Ok (Str s)
  | TBool =>
      match Strconv.ParseBool s with
      | Err err =>
          Err (wrapError ("could not parse '" +:+ s +:+ "' as bool: ") err "")
      | Ok b => Ok (Bool b)
      end
  | TInt k =>
      match Strconv.ParseInt s with
      | Err err =>
          Err (wrapError ("could not parse '" +:+ s +:+ "' as int: ") err "")
      | Ok val =>
          if OverflowInt k val then Err (OverflowError T) else Ok (IntV k val)
      end
  | TUint k =>
      match Strconv.ParseUint s with
      | Err err =>
          Err (wrapError ("could not parse '" +:+ s +:+ "' as uint: ") err "")
      | Ok val =>
          if OverflowUint k val then Err (OverflowError T)
          else Ok (UintV k val)
      end
  | TLib name _ fromString =>
      match fromString s with
      | Err err => Err err
      | Ok repr => Ok (LibV name repr)
      end
  end.

(** [MinLength] and [MaxLength]; [len(str)] is the length in bytes. *)
Definition MinLength (min : Z) : ValidateFunc :=
  ("min_length",
   λ v, match v with
        | Str str =>
            if decide (Z.of_nat (String.length str) < min)%Z
            then Some (wrapError "" ErrLengthMin
                         (" " +:+ Strconv.FormatInt min +:+ " "))
            else None
        | _ => None
        end).

Definition MaxLength (max : Z) : ValidateFunc :=
  ("max_length",
   λ v, match v with
        | Str str =>
            if decide (Z.of_nat (String.length str) > max)%Z
            then Some (wrapError "" ErrLengthMax
                         (" " +:+ Strconv.FormatInt max +:+ " "))
            else None
        | _ => None
        end).

End Validator.

(** ** Package internal (object.go): the result object *)

Module Internal.

(** The type parameter [T] of [Get[T]]: [any], or one dynamic type. *)
Inductive typeParam :=
  | AnyType
  | Exactly (t : goType).

(** The type assertion [val.(T)]: it fails on the nil interface. *)
Definition assertType (T : typeParam) (val : any) : bool :=
  match T with
  | AnyType => match val with Nil => false | _ => true end
  | Exactly t => bool_decide (typeOf val = Some t)
  end.

(** Where the loop over the path parts of [Get] ends: on a value, on
    [mo.None], or in a panic. *)
Inductive cursor :=
  | Found (currentValue : any)
  | Absent
  | Failed (p : panic).

Section Get.
(** [voIface.Get(part)], the call by which the loop delegates to a
    container that implements [ValueObject]. *)
Variable delegate : gmap string any → string → outcome (option any).

(** The loop [for _, part := range parts] of [Get]. *)
Fixpoint walk (currentValue : any) (parts : list string) : cursor :=
  match parts with
  | [] => Found currentValue
  | part :: rest =>
      match currentValue with
      | Nil => Absent
      | DataV voMap =>
          match voMap !! part with
          | None => Absent
          | Some nextValue => walk nextValue rest
          end
      | VO d =>
          match delegate d part with
          | Panic p => Failed p
          | Ret None => Absent
          | Ret (Some v) => walk v rest
          end
      | Slice _ l =>
          match Strconv.Atoi part with
          | None => Failed NotAnIndex
          | Some index =>
              if decide (0 ≤ index < Z.of_nat (length l))%Z
              then match l !! Z.to_nat index with
                   | Some v => walk v rest
                   | None => Failed OutOfBounds
                   end
              else Failed OutOfBounds
          end
      | _ => Absent
      end
  end.

Definition GetWith (T : typeParam) (data : gmap string any)
    (name : string) : outcome (option any) :=
  match data !! name with
  | Some val => if assertType T val then Ret (Some val) else Panic WrongType
  | None =>
      match walk (DataV data) (GoStrings.Split name ".") with
      | Found currentValue =>
          if assertType T currentValue then Ret (Some currentValue)
          else Panic WrongType
      | Absent => Ret None
      | Failed p => Panic p
      end
  end.
End Get.

(** [Get[T]].  The call it delegates to is [Data.Get], that is [Get[any]]
    itself, on one part of the split path; on such a name [Get] ends
    before it delegates again, which is what closes the recursion (see
    [Get_unfold]). *)
Definition Get (T : typeParam) (data : gmap string any) (name : string)
    : outcome (option any) :=
  GetWith (GetWith (λ _ _, Ret None) AnyType) T data name.

Section Range.
Variable range : rangeOrder.

(** [Data.Fields]: the top-level keys, sorted. *)
Definition Fields (vo : gmap string any) : list string :=
  sort_Strings (range any vo).*1.
End Range.

(** [Data.Add]: the two assertions, then the store. *)
Definition Add (vo : gmap string any) (name : string) (value : any)
    : outcome (gmap string any) :=
  match vo !! name with
  | Some _ => Panic AlreadyExists
  | None =>
      if GoStrings.ContainsByte name "." then Panic ContainsDot
      else Ret (<[name := value]> vo)
  end.

(** [Data.Update]. *)
Definition Update (vo : gmap string any) (name : string) (value : any)
    : outcome (gmap string any) :=
  match vo !! name with
  | None => Panic DoesNotExist
  | Some _ => Ret (<[name := value]> vo)
  end.

End Internal.

(** ** Package view (vo.go) *)

Module View.
Import Validator.

(** *** The aggregate of validation errors *)

(** [validationError.add]: one error per field, the last one written. *)
Definition add (errors : gmap string error) (fieldName : string)
    (err : option error) : gmap string error :=
  match err with
  | Some e => <[fieldName := e]> errors
  | None => errors
  end.

(** [validationError.err]: nil when no error was added. *)
Definition err (errors : gmap string error) : option error :=
  if decide (errors = ∅) then None else Some (validationError errors).

Definition header : string := "validation failed with the following errors:".

Section Error.
Variable range : rangeOrder.

(** The builder loop of [validationError.Error], over the sorted keys. *)
Definition writeEntries (keys : list string) (msgs : gmap string string)
    : string :=
  foldl (λ b k, b +:+ ("- " +:+ k +:+ ": " +:+ default "" (msgs !! k)))
        header keys.

(** [err.Error()] for every error of the model; on an aggregate it is
    [validationError.Error]. *)
Fixpoint Error (e : error) : string :=
  match e with
  | errorString s => s
  | wrapError pre e' post => pre +:+ Error e' +:+ post
  | validationError errors =>
      if decide (errors = ∅) then ""
      else writeEntries (sort_Strings (range error errors).*1)
                        (Error <$> errors)
  end.
End Error.

(** *** Coercion of a JSON node *)

(** The error that ends [typedJson] when the node has another type than
    the target. *)
Definition mismatchError (T : FieldType) (res : json) : error :=
  wrapError "" ErrTypeMismatch
    (": expected " +:+ typeName T +:+ " but got raw type "
     +:+ Gjson.TypeString res).

Definition floatToIntError (what raw : string) : error :=
  wrapError "" ErrTypeMismatch
    (": cannot assign float value " +:+ raw +:+ " to " +:+ what).

(** [overflowError]. *)
Definition overflowError (T : FieldType) : error := OverflowError T.

(** [typedJson]. *)
Definition typedJson (T : FieldType) (res : json) : Result error any :=
  match T with
  | TString =>
      match res with
      | JString s => Ok (Str s)
      | _ => Err (mismatchError T res)
      end
  | TBool =>
      match res with
      | JTrue => Ok (Bool true)
      | JFalse => Ok (Bool false)
      | _ => Err (mismatchError T res)
      end
  | TInt k =>
      match res with
      | JNumber raw =>
          (* the branch taken when [FormatInt(val, 10) != res.Raw] *)
          let differs :=
            if GoStrings.ContainsByte raw "."
            then Err (floatToIntError "integer type" raw)
            else Err (overflowError T) in
          match Gjson.Int raw with
          | None => differs
          | Some val =>
              if decide (Strconv.FormatInt val ≠ raw) then differs
              else if OverflowInt k val then Err (overflowError T)
              else Ok (IntV k val)
          end
      | _ => Err (mismatchError T res)
      end
  | TUint k =>
      match res with
      | JNumber raw =>
          if GoStrings.ContainsByte raw "-" then Err (overflowError T)
          else
            let differs :=
              if GoStrings.ContainsByte raw "."
              then Err (floatToIntError "unsigned integer type" raw)
              else Err (overflowError T) in
            match Gjson.Uint raw with
            | None => differs
            | Some val =>
                if decide (Strconv.FormatInt val ≠ raw) then differs
                else if OverflowUint k val then Err (overflowError T)
                else Ok (UintV k val)
            end
      | _ => Err (mismatchError T res)
      end
  | TLib name fromJson _ =>
      match fromJson res with
      | Err e => Err e
      | Ok repr => Ok (LibV name repr)
      end
  end.

(** [typedString]. *)
Definition typedString (T : FieldType) (s : string) : Result error any :=
  ParseStringTo T s.

(** *** Field descriptors and schemas *)

Inductive ViewField :=
  JSONField {
    qualifiedName : string;
    scope : string;
    required : bool;
    array : bool;
    object : bool;
    embedded : option Schema;
    fieldType : FieldType;
    validators : list Validator }
with Schema :=
  mkSchema {
    fields : list ViewField;
    allowUnknownFields : bool }.

Definition Required (f : ViewField) : bool := required f.
Definition IsArray (f : ViewField) : bool := array f.
Definition IsObject (f : ViewField) : bool := object f.
Definition embeddedObject (f : ViewField) : option Schema := embedded f.

(** [Name]: the last segment of the qualified name. *)
Definition Name (f : ViewField) : string :=
  let q := qualifiedName f in
  if decide (q = "") then ""
  else match GoStrings.AfterLast q "." with
       | Some t => t
       | None => q
       end.

Definition UniqueName (f : ViewField) : string :=
  if decide (qualifiedName f ≠ "") then qualifiedName f else Name f.

(** The first validator that refuses the value, in declaration order. *)
Fixpoint firstError (vs : list Validator) (val : any) : option error :=
  match vs with
  | [] => None
  | vfn :: vs' =>
      match vfn val with
      | Some e => Some e
      | None => firstError vs' val
      end
  end.

Definition fieldError (f : ViewField) (e : error) : error :=
  wrapError ("field '" +:+ Name f +:+ "': ") e "".

(** [validateRaw]: a value that comes from a URL parameter. *)
Definition validateRaw (f : ViewField) (v : string) : Result error any :=
  match typedString (fieldType f) v with
  | Err e => Err (fieldError f e)
  | Ok val =>
      match firstError (validators f) val with
      | Some e => Err (fieldError f e)
      | None => Ok val
      end
  end.

(** The constructors of fields. *)
Definition trait (T : FieldType) (name : string) (isArray isObject : bool)
    (nested : option Schema) (vfs : list ValidateFunc) : ViewField :=
  {| qualifiedName := name; scope := ""; required := true;
     array := isArray; object := isObject; embedded := nested;
     fieldType := T; validators := vfs.*2 |}.

Definition Field (T : FieldType) (name : string) (vfs : list ValidateFunc)
    : ViewField := trait T name false false None vfs.
Definition ArrayField (T : FieldType) (name : string)
    (vfs : list ValidateFunc) : ViewField := trait T name true false None vfs.
Definition ObjectField (name : string) (nested : Schema) : ViewField :=
  trait TString name false true (Some nested) [].
Definition ArrayOfObjectField (name : string) (nested : Schema) : ViewField :=
  trait TString name true true (Some nested) [].

Definition Optional (f : ViewField) : ViewField :=
  {| qualifiedName := qualifiedName f; scope := scope f; required := false;
     array := array f; object := object f; embedded := embedded f;
     fieldType := fieldType f; validators := validators f |}.

(** [WithFields], once its two uniqueness checks have passed. *)
Definition WithFields (fs : list ViewField) : Schema :=
  {| fields := fs; allowUnknownFields := false |}.

Definition AllowUnknownFields (s : Schema) : Schema :=
  {| fields := fields s; allowUnknownFields := true |}.

(** *** Storing a validated value *)

(** [setObjectField]: a plain [Data] is wrapped into the struct of the
    view; every other value is stored as it is. *)
Definition setObjectField (object : gmap string any) (key : string)
    (val : any) : gmap string any :=
  match val with
  | DataV v => <[key := VO v]> object
  | _ => <[key := val]> object
  end.

(** [lo.SliceToMap] over the fields: name to [IsArray() || IsObject()]. *)
Definition voFieldsOf (s : Schema) : gmap string bool :=
  foldl (λ m field, <[Name field := IsArray field || IsObject field]> m)
        ∅ (fields s).

(** [node.ForEach] on an array: the loop body receives the index. *)
Definition forEach {St : Type} (body : St → nat → json → St)
    : nat → St → list json → St :=
  fix go index st elems :=
    match elems with
    | [] => st
    | element :: rest => go (S index) (body st index element) rest
    end.

Definition forEachM {St : Type} (body : St → nat → json → outcome St)
    : nat → St → list json → outcome St :=
  fix go index st elems :=
    match elems with
    | [] => Ret st
    | element :: rest =>
        obind (body st index element) (λ st', go (S index) st' rest)
    end.

(** The key [fmt.Sprintf("%s[%d]", f.Name(), index.Int())]. *)
Definition elemKey (f : ViewField) (index : nat) : string :=
  Name f +:+ "[" +:+ Strconv.FormatInt (Z.of_nat index) +:+ "]".

(** The body of the loop over an array of primitives: an element that
    does not coerce is reported; otherwise every validator runs and every
    failure is written under the key of the element; the value is
    appended when the aggregate is still empty. *)
Definition primElement (f : ViewField)
    (st : gmap string error * list any) (index : nat) (element : json)
    : gmap string error * list any :=
  let '(errs, values) := st in
  match typedJson (fieldType f) element with
  | Err e => (add errs (elemKey f index) (Some e), values)
  | Ok val =>
      let errs' :=
        foldl (λ errs v, add errs (elemKey f index) (v val))
              errs (validators f) in
      (errs', match err errs' with
              | None => (values ++ [val])%list
              | Some _ => values
              end)
  end.

Definition notArrayError (f : ViewField) : error :=
  errorString ("dvo: field '" +:+ Name f
               +:+ "' expected a JSON array but got Clause").

Definition notObjectError : error :=
  errorString "expected a JSON object but got Clause".

Definition requiredError (f : ViewField) : error :=
  wrapError (Name f +:+ " ") ErrRequired "".

Section Validate.
Variable range : rangeOrder.

(** The conversion of a stored [ValueObject] back to a [Data] in
    [setNestedField]: every field is read through [Get]. *)
Definition fieldsToData (vo : gmap string any)
    : outcome (gmap string any) :=
  foldlM (λ inner k,
            opt ←! Internal.Get Internal.AnyType vo k;
            Ret (match opt with
                 | Some v => <[k := v]> inner
                 | None => inner
                 end))
         ∅ (Internal.Fields range vo).

(** [setNestedField] on the parts of the split key.  A nested map is
    updated in place in the code; here the updated map is stored back
    under its key. *)
Fixpoint setNestedParts (cur : gmap string any) (parts : list string)
    (val : any) : outcome (gmap string any) :=
  match parts with
  | [] => Ret cur
  | [final] => Ret (setObjectField cur final val)
  | p :: rest =>
      match cur !! p with
      | Some (DataV m) =>
          m' ←! setNestedParts m rest val;
          Ret (<[p := DataV m']> cur)
      | Some (VO vo) =>
          inner ←! fieldsToData vo;
          m' ←! setNestedParts inner rest val;
          Ret (<[p := DataV m']> cur)
      | _ =>
          m' ←! setNestedParts ∅ rest val;
          Ret (<[p := DataV m']> cur)
      end
  end.

Definition setNestedField (object : gmap string any) (key : string)
    (val : any) : outcome (gmap string any) :=
  setNestedParts object (GoStrings.Split key ".") val.

(** The loop over the URL parameter maps: conflicts between the maps,
    unknown parameters and parameters that name a nested field are
    reported, and the maps are merged. *)
Definition urlParam (s : Schema) (voFields : gmap string bool)
    (st : gmap string error * gmap string string) (kv : string * string)
    : gmap string error * gmap string string :=
  let '(errs, urlPair) := st in
  let '(k, v) := kv in
  let errs :=
    match urlPair !! k with
    | Some _ =>
        add errs k (Some (errorString
                            ("duplicated url parameter '" +:+ k +:+ "'")))
    | None => errs
    end in
  let errs :=
    if allowUnknownFields s then errs
    else match voFields !! k with
         | None =>
             add errs k (Some (errorString
                                 ("unknown url parameter '" +:+ k +:+ "'")))
         | Some true =>
             add errs k
               (Some (errorString
                        ("url parameter '" +:+ k
                         +:+ "' is mapped to a embedded object")))
         | Some false => errs
         end in
  (errs, <[k := v]> urlPair).

Definition mergeUrlParams (s : Schema) (voFields : gmap string bool)
    (urlParams : list (gmap string string))
    : gmap string error * gmap string string :=
  foldl (λ st pair, foldl (urlParam s voFields) st (range string pair))
        (∅, ∅) urlParams.

(** The loop over the keys of the JSON document. *)
Definition jsonKey (s : Schema) (voFields : gmap string bool)
    (urlPair : gmap string string) (errs : gmap string error)
    (jsonKey : string) : gmap string error :=
  let errs :=
    match urlPair !! jsonKey with
    | Some _ =>
        add errs jsonKey
          (Some (errorString ("duplicate parameter in url and json '"
                              +:+ jsonKey +:+ "'")))
    | None => errs
    end in
  if allowUnknownFields s then errs
  else match voFields !! jsonKey with
       | None =>
           add errs jsonKey
             (Some (errorString
                      ("unknown json field '" +:+ jsonKey +:+ "'")))
       | Some _ => errs
       end.

(** What the field loop does with the result of one field: the entries
    of an aggregate found in the error are merged one by one, another
    error is stored under the name of the field, a value is stored
    under the unique name. *)
Definition mergeNested (errs nested : gmap string error)
    : gmap string error :=
  foldl (λ errs kv, add errs kv.1 (Some kv.2)) errs (range error nested).

Definition storeResult (field : ViewField)
    (st : gmap string any * gmap string error) (rs : Result error any)
    : outcome (gmap string any * gmap string error) :=
  let '(object, errs) := st in
  match rs with
  | Err e =>
      match errors_As e with
      | Some nestedErr => Ret (object, mergeNested errs nestedErr)
      | None => Ret (object, add errs (Name field) (Some e))
      end
  | Ok val =>
      object' ←! setNestedField object (UniqueName field) val;
      Ret (object', errs)
  end.

(** The loop that adds the URL parameters to the object of a permissive
    schema. *)
Definition addUrlParams (object : gmap string any)
    (urlPair : gmap string string) : gmap string any :=
  foldl (λ object kv,
           match object !! kv.1 with
           | None => <[kv.1 := Str kv.2]> object
           | Some _ => object
           end)
        object (range string urlPair).

(** The error written for one element of an array of objects that did
    not validate: the only entry of a one-entry aggregate, or the error
    as it is. *)
Definition elementError (e : error) : error :=
  match errors_As e with
  | Some nested =>
      if decide (size nested = 1)
      then foldl (λ _ kv, kv.2) e (range error nested)
      else e
  | None => e
  end.

(** The first phase of [Validate], from the loop over the URL parameters to
    the loop over the keys of the document: the errors it collects and the
    merged URL parameters. *)
Definition structuralPhase (s : Schema) (json : document)
    (urlParams : list (gmap string string))
    : gmap string error * gmap string string :=
  let voFields := voFieldsOf s in
  let st := mergeUrlParams s voFields urlParams in
  (foldl (jsonKey s voFields st.2) st.1 (Gjson.keys json), st.2).

(** [Schema.Validate] and [JSONField.validate]. *)
Fixpoint Validate (s : Schema) (json : document)
    (urlParams : list (gmap string string)) {struct s}
    : outcome (Result error (gmap string any)) :=
  match json with
  | Malformed text => Ret (Err (errorString ("invalid json " +:+ text)))
  | _ =>
      let '(errs, urlPair) := structuralPhase s json urlParams in
      match err errs with
      | Some e => Ret (Err e)
      | None =>
          st ←! foldlM
            (λ st field,
               match Gjson.Get json (Name field) with
               | None =>
                   match urlPair !! Name field with
                   | None =>
                       Ret (st.1,
                            if Required field
                            then add st.2 (Name field)
                                   (Some (requiredError field))
                            else st.2)
                   | Some urlValue =>
                       storeResult field st (validateRaw field urlValue)
                   end
               | Some node =>
                   rs ←! validate field node;
                   storeResult field st rs
               end)
            (∅, errs) (fields s);
          let object :=
            if allowUnknownFields s then addUrlParams st.1 urlPair
            else st.1 in
          Ret (match err st.2 with
               | Some e => Err e
               | None => Ok object
               end)
      end
  end
with validate (f : ViewField) (node : json) {struct f}
    : outcome (Result error any) :=
  if IsObject f && negb (IsArray f) then
    match embeddedObject f with
    | None => Panic NoSuchElement
    | Some nested =>
        nestedResult ←! Validate nested (Doc node) [];
        Ret (match nestedResult with
             | Err e =>
                 Err (wrapError
                        ("field '" +:+ Name f +:+ "' validation failed, ")
                        e "")
             | Ok vo => Ok (VO vo)
             end)
    end
  else if IsArray f then
    match node with
    | JArray elems =>
        match embeddedObject f with
        | Some nested =>
            st ←! forEachM
              (λ st index element,
                 if negb (Gjson.IsObject element)
                 then Ret (add st.1 (elemKey f index)
                             (Some notObjectError), st.2)
                 else
                   result ←! Validate nested (Doc element) [];
                   Ret (match result with
                        | Err e =>
                            (add st.1 (elemKey f index)
                               (Some (elementError e)), st.2)
                        | Ok vo =>
                            (st.1, match err st.1 with
                                   | None => (st.2 ++ [VO vo])%list
                                   | Some _ => st.2
                                   end)
                        end))
              0%nat (∅, []) elems;
            Ret (match err st.1 with
                 | Some e => Err e
                 | None => Ok (Slice GoViewValueObject st.2)
                 end)
        | None =>
            let st := forEach (primElement f) 0%nat (∅, []) elems in
            Ret (match err st.1 with
                 | Some e => Err e
                 | None => Ok (Slice (goTypeOf (fieldType f)) st.2)
                 end)
        end
    | _ => Ret (Err (notArrayError f))
    end
  else
    Ret (match typedJson (fieldType f) node with
         | Err e => Err (fieldError f e)
         | Ok val =>
             match firstError (validators f) val with
             | Some e => Err (fieldError f e)
             | None => Ok val
             end
         end).

(** The body of the loop of [Validate] over the fields. *)
Definition fieldStep (json : document) (urlPair : gmap string string)
    (st : gmap string any * gmap string error) (field : ViewField)
    : outcome (gmap string any * gmap string error) :=
  match Gjson.Get json (Name field) with
  | None =>
      match urlPair !! Name field with
      | None =>
          Ret (st.1,
               if Required field
               then add st.2 (Name field) (Some (requiredError field))
               else st.2)
      | Some urlValue => storeResult field st (validateRaw field urlValue)
      end
  | Some node =>
      rs ←! validate field node;
      storeResult field st rs
  end.

(** The body of the loop of [validate] over an array of objects. *)
Definition objectElement (f : ViewField) (nested : Schema)
    (st : gmap string error * list any) (index : nat) (element : json)
    : outcome (gmap string error * list any) :=
  if negb (Gjson.IsObject element)
  then Ret (add st.1 (elemKey f index) (Some notObjectError), st.2)
  else
    result ←! Validate nested (Doc element) [];
    Ret (match result with
         | Err e => (add st.1 (elemKey f index) (Some (elementError e)), st.2)
         | Ok vo =>
             (st.1, match err st.1 with
                    | None => (st.2 ++ [VO vo])%list
                    | Some _ => st.2
                    end)
         end).
End Validate.

(** *** Methods on a schema as state transformers

      The receiver of a method is a pointer: a call may change the schema
      it is made on.  A call is a function from the schema before to the
      result and the schema after. *)

Definition method (A : Type) : Type := Schema → A * Schema.

(** [AllowUnknownFields] sets the flag of its receiver and returns it. *)
Definition AllowUnknownFields_call : method Schema :=
  λ s, (AllowUnknownFields s, AllowUnknownFields s).

(** [Validate] reads its receiver and assigns to none of its fields. *)
Definition Validate_call (range : rangeOrder) (json : document)
    (urlParams : list (gmap string string))
    : method (outcome (Result error (gmap string any))) :=
  λ s, (Validate range s json urlParams, s).

(** *** Flattening a result object

    [valueObject.FlatMap], from the revision of vo.go that the file
    view/vo_to_sqlx_test.go carries. *)

Definition joinKey (prefix k : string) : string :=
  if decide (prefix ≠ "") then prefix +:+ "." +:+ k else k.

Section FlatMap.
Variable range : rangeOrder.

(** The recursive walker.  It takes the value first and then the prefix
    and the map [out] it writes to.  The walkers of the values of a
    container are built at once ([walk <$> val]) and run in the order
    of the loop. *)
Fixpoint walk (v : any)
    : string → gmap string any → outcome (gmap string any) :=
  match v with
  | DataV val | MapV val =>
      let walkers := walk <$> val in
      λ prefix out,
        foldlM (λ out kv,
                  match walkers !! kv.1 with
                  | Some w => w (joinKey prefix kv.1) out
                  | None => Ret out
                  end)
               out (range any val)
  | VO val =>
      let walkers := walk <$> val in
      λ prefix out,
        foldlM (λ out fk,
                  opt ←! Internal.Get Internal.AnyType val fk;
                  match opt, walkers !! fk with
                  | Some _, Some w => w (joinKey prefix fk) out
                  | _, _ => Ret out
                  end)
               out (Internal.Fields range val)
  | _ =>
      λ prefix out,
        Ret (if decide (prefix ≠ "") then <[prefix := v]> out else out)
  end.

Definition FlatMap (vo : gmap string any) : outcome (gmap string any) :=
  foldlM (λ out k,
            opt ←! Internal.Get Internal.AnyType vo k;
            match opt with
            | Some v => walk v k out
            | None => Ret out
            end)
         ∅ (Internal.Fields range vo).

(** [ToSQLXValueObject] of vo.go, up to the constructor of the sqlx
    package: the top-level fields are copied, nested containers are
    kept as they are. *)
Definition ToSQLXValueObject (vo : gmap string any)
    : outcome (gmap string any) :=
  fieldsToData range vo.
End FlatMap.

End View.

(** * Measures

    The size of an error and of a value, by which properties of the nested
    maps are proved. *)

Fixpoint error_size (e : error) : nat :=
  match e with
  | errorString _ => 1
  | wrapError _ e' _ => S (error_size e')
  | validationError errors =>
      S (map_fold (λ _ e' n, error_size e' + n) 0 errors)
  end.

Fixpoint any_size (v : any) : nat :=
  match v with
  | Slice _ l => S (foldr (λ x n, any_size x + n) 0 l)
  | DataV d | VO d | MapV d => S (map_fold (λ _ x n, any_size x + n) 0 d)
  | _ => 1
  end.

(** * Vocabulary of the statements *)

(** The text of the entries of an aggregate, in the order of [keys], each
    entry as [- path: message], with nothing between two entries. *)
Definition entriesText (keys : list string) (msgs : gmap string string)
    : string :=
  foldr (λ k acc, ("- " +:+ k +:+ ": " +:+ default "" (msgs !! k)) +:+ acc)
        "" keys.

(** The line feed. *)
Definition newline : ascii := ascii_of_nat 10.

(** What the loop over an array of primitives reports for one element:
    the error of the coercion, or else the error of the last validator
    that refuses the value. *)
Definition lastError (vs : list Validator.Validator) (val : any)
    (acc : option error) : option error :=
  foldl (λ acc v, match v val with Some e => Some e | None => acc end) acc vs.

Definition elementFailure (f : View.ViewField) (element : json)
    : option error :=
  match View.typedJson (View.fieldType f) element with
  | Err e => Some e
  | Ok val => lastError (View.validators f) val None
  end.

(** Another valid order: the reverse of [keyOrder]. *)
Definition reverseOrder : rangeOrder := λ V m, reverse (map_to_list m).

(** A value that holds the nil interface nowhere. *)
Inductive nonNil : any → Prop :=
  | nonNil_Str s : nonNil (Str s)
  | nonNil_Bool b : nonNil (Bool b)
  | nonNil_IntV k z : nonNil (IntV k z)
  | nonNil_UintV k z : nonNil (UintV k z)
  | nonNil_LibV n r : nonNil (LibV n r)
  | nonNil_Slice t l : Forall nonNil l → nonNil (Slice t l)
  | nonNil_DataV d : (∀ k v, d !! k = Some v → nonNil v) → nonNil (DataV d)
  | nonNil_VO d : (∀ k v, d !! k = Some v → nonNil v) → nonNil (VO d)
  | nonNil_MapV d : (∀ k v, d !! k = Some v → nonNil v) → nonNil (MapV d).

(** A schema in which every object field carries its embedded schema, as
    the constructors [ObjectField] and [ArrayOfObjectField] make them. *)
Fixpoint wfSchema (s : View.Schema) : Prop :=
  foldr (λ f rest, wfField f ∧ rest) True (View.fields s)
with wfField (f : View.ViewField) : Prop :=
  match View.embedded f with
  | Some nested => wfSchema nested
  | None => View.object f && negb (View.array f) = false
  end.

(** [reaches v parts c]: the parts of a path, followed from [v], lead to
    [c].  A part is a key of a plain map, a key of a nested object under
    which the value is not nil, or the decimal index of an element of a
    slice; a scalar has no parts to follow. *)
Inductive reaches : any → list string → any → Prop :=
  | reaches_here v : reaches v [] v
  | reaches_data m part v rest c :
      m !! part = Some v → reaches v rest c →
      reaches (DataV m) (part :: rest) c
  | reaches_object m part v rest c :
      m !! part = Some v → v ≠ Nil → reaches v rest c →
      reaches (VO m) (part :: rest) c
  | reaches_slice t l part i v rest c :
      Strconv.Atoi part = Some (Z.of_nat i) → l !! i = Some v →
      reaches v rest c →
      reaches (Slice t l) (part :: rest) c.

(** The map of a value that [FlatMap] walks into: a plain [Data], an
    object of the view, or a [map[string]any]; every other value is
    terminal. *)
Definition container (v : any) : option (gmap string any) :=
  match v with
  | DataV d | VO d | MapV d => Some d
  | _ => None
  end.

(** [leafAt v ks leaf]: the keys [ks], followed from [v] through nested
    containers, lead to the terminal value [leaf]. *)
Inductive leafAt : any → list string → any → Prop :=
  | leafAt_here v : container v = None → leafAt v [] v
  | leafAt_down v d k child ks leaf :
      container v = Some d → d !! k = Some child →
      leafAt child ks leaf → leafAt v (k :: ks) leaf.

(** The key [FlatMap] writes for a path: the keys joined by dots, where an
    empty prefix is left out. *)
Definition flatKey (prefix : string) (ks : list string) : string :=
  foldl View.joinKey prefix ks.

(** The step of the walker on the child under the key [k], in a plain map
    and in an object of the view. *)
Definition childStep (range : rangeOrder) (val : gmap string any)
    (prefix : string) (out : gmap string any) (k : string)
    : outcome (gmap string any) :=
  match (View.walk range <$> val) !! k with
  | Some w => w (View.joinKey prefix k) out
  | None => Ret out
  end.

Definition fieldStepVO (range : rangeOrder) (val : gmap string any)
    (prefix : string) (out : gmap string any) (fk : string)
    : outcome (gmap string any) :=
  opt ←! Internal.Get Internal.AnyType val fk;
  match opt, (View.walk range <$> val) !! fk with
  | Some _, Some w => w (View.joinKey prefix fk) out
  | _, _ => Ret out
  end.

(** What one call of the walker adds to the output: every new entry is a
    terminal value stored under the key of a path that leads to it, every
    such path with a non-empty key has an entry, and no entry is removed. *)
Definition walkPost (v : any) (prefix : string)
    (out out' : gmap string any) : Prop :=
  (∀ p x, out' !! p = Some x →
     out !! p = Some x
     ∨ (p ≠ "" ∧ ∃ ks, leafAt v ks x ∧ flatKey prefix ks = p))
  ∧ (∀ ks x, leafAt v ks x → flatKey prefix ks ≠ "" →
     is_Some (out' !! flatKey prefix ks))
  ∧ (∀ p, is_Some (out !! p) → is_Some (out' !! p)).

(** * Further code of the repository *)

(** ** The constructors of fields and schemas, with their panics (vo.go)

    [View.trait] and [View.WithFields] are the values the constructors
    return; here they are with the checks they make first.  A panic is
    [Err] with its cause. *)

Module Checked.
Import Validator.

Inductive cause :=
  | FieldNameHasDotOrHash (name : string)
  | DuplicateValidator (n name : string)
  | NestedSchemaIsNil (name : string)
  | DuplicateFieldName (name : string)
  | DuplicateQualifiedName (qn : string)
  | DuplicateFieldNameInExtend (name : string).

(** The loop of [trait] over its validator functions: a name seen before
    is a panic; the validators are appended in order. *)
Fixpoint validatorLoop (name : string) (vfs : list ValidateFunc)
    (names : gset string) (nf : list Validator)
    : Result cause (list Validator) :=
  match vfs with
  | [] => Ok nf
  | (n, f) :: rest =>
      if decide (n ∈ names) then Err (DuplicateValidator n name)
      else validatorLoop name rest ({[ n ]} ∪ names) (nf ++ [f])%list
  end.

(** [trait]; [strings.ContainsAny(name, ".#")] first. *)
Definition trait (T : FieldType) (name : string) (isArray isObject : bool)
    (nested : option View.Schema) (vfs : list ValidateFunc)
    : Result cause View.ViewField :=
  if GoStrings.ContainsByte name "." || GoStrings.ContainsByte name "#"
  then Err (FieldNameHasDotOrHash name)
  else match validatorLoop name vfs ∅ [] with
       | Err c => Err c
       | Ok nf =>
           Ok {| View.qualifiedName := name; View.scope := "";
                 View.required := true; View.array := isArray;
                 View.object := isObject; View.embedded := nested;
                 View.fieldType := T; View.validators := nf |}
       end.

Definition Field (T : FieldType) (name : string) (vfs : list ValidateFunc)
    : Result cause View.ViewField := trait T name false false None vfs.

Definition ArrayField (T : FieldType) (name : string)
    (vfs : list ValidateFunc) : Result cause View.ViewField :=
  trait T name true false None vfs.

(** [ObjectField] and [ArrayOfObjectField]: the nested schema is a
    pointer, which the constructor asserts not to be nil. *)
Definition ObjectField (name : string) (nested : option View.Schema)
    : Result cause View.ViewField :=
  match nested with
  | None => Err (NestedSchemaIsNil name)
  | Some _ => trait TString name false true nested []
  end.

Definition ArrayOfObjectField (name : string) (nested : option View.Schema)
    : Result cause View.ViewField :=
  match nested with
  | None => Err (NestedSchemaIsNil name)
  | Some _ => trait TString name true true nested []
  end.

(** The first loop of [WithFields], and the loop of [Extend]: the first
    field whose name was seen before. *)
Fixpoint nameLoop (fs : list View.ViewField) (names : gset string)
    : option string :=
  match fs with
  | [] => None
  | f :: rest =>
      if decide (View.Name f ∈ names) then Some (View.Name f)
      else nameLoop rest ({[ View.Name f ]} ∪ names)
  end.

(** The second loop of [WithFields], over the qualified names that are
    not empty. *)
Fixpoint qualifiedLoop (fs : list View.ViewField) (qnames : gset string)
    : option string :=
  match fs with
  | [] => None
  | f :: rest =>
      let qn := View.qualifiedName f in
      if decide (qn = "") then qualifiedLoop rest qnames
      else if decide (qn ∈ qnames) then Some qn
      else qualifiedLoop rest ({[ qn ]} ∪ qnames)
  end.

Definition WithFields (fields : list View.ViewField)
    : Result cause View.Schema :=
  match nameLoop fields ∅ with
  | Some name => Err (DuplicateFieldName name)
  | None =>
      match qualifiedLoop fields ∅ with
      | Some qn => Err (DuplicateQualifiedName qn)
      | None =>
          Ok {| View.fields := fields; View.allowUnknownFields := false |}
      end
  end.

(** [Extend]: a new schema; neither receiver nor argument is assigned
    to. *)
Definition Extend (s another : View.Schema) : Result cause View.Schema :=
  let newFields := (View.fields s ++ View.fields another)%list in
  match nameLoop newFields ∅ with
  | Some name => Err (DuplicateFieldNameInExtend name)
  | None =>
      Ok {| View.fields := newFields;
            View.allowUnknownFields :=
              View.allowUnknownFields s || View.allowUnknownFields another |}
  end.

End Checked.

(** ** The typed getters of the result object (object.go, vo.go)

    [Data.String], [Data.Int], ..., [valueObject.StringArray], ... are
    [Get] at the type of the getter; each [Mst] variant calls [MustGet]
    on the option. *)

Module Getters.

Definition MustGet {A} (opt : option A) : outcome A :=
  match opt with
  | Some a => Ret a
  | None => Panic NoSuchElement
  end.

(** The getter of the type [t]: [String] is [typed GoString], [Int8] is
    [typed (GoInt Int8)], [StringArray] is [typed (GoSlice GoString)],
    and so on. *)
Definition typed (t : goType) (vo : gmap string any) (name : string)
    : outcome (option any) :=
  Internal.Get (Internal.Exactly t) vo name.

(** Its [Mst] variant. *)
Definition must (t : goType) (vo : gmap string any) (name : string)
    : outcome any :=
  opt ←! typed t vo name;
  MustGet opt.

End Getters.

(** ** Package sqlx (sqlx.go): the consumer of the flattened map *)

Module Sqlx.

Inductive assertion :=
  | EmptyMap
  | KeyWithoutTable (key : string).

Section Range.
Variable range : rangeOrder.

(** [MapValueObject]: the map is asserted not to be nil or empty, and each
    key, in the order of the loop, to split into two parts at least. *)
Definition MapValueObject (m : gmap string any)
    : Result assertion (gmap string any) :=
  if decide (m = ∅) then Err EmptyMap
  else
    match list_find (λ key, length (GoStrings.Split key ".") < 2)
                    (range any m).*1 with
    | Some (_, key) => Err (KeyWithoutTable key)
    | None => Ok m
    end.
End Range.

End Sqlx.

(** ** More validators of package xql (constraint.go) *)

Module Constraints.
Import Validator.

Definition ErrLengthExact : error := errorString "length must be exactly".
Definition ErrLengthBetween : error := errorString "length must be between".
Definition ErrMustGt : error := errorString "must be greater than".
Definition ErrMustGte : error :=
  errorString "must be greater than or equal to".
Definition ErrMustLt : error := errorString "must be less than".
Definition ErrMustLte : error :=
  errorString "must be less than or equal to".
Definition ErrMustBetween : error := errorString "must be between".
Definition ErrMustBeTrue : error := errorString "must be true".
Definition ErrMustBeFalse : error := errorString "must be false".

(** [ExactLength] and [LengthBetween]. *)
Definition ExactLength (length : Z) : ValidateFunc :=
  ("exact_length",
   λ v, match v with
        | Str str =>
            if decide (Z.of_nat (String.length str) ≠ length)
            then Some (wrapError "" ErrLengthExact
                         (" " +:+ Strconv.FormatInt length +:+ " characters"))
            else None
        | _ => None
        end).

Definition LengthBetween (min max : Z) : ValidateFunc :=
  ("length_between",
   λ v, match v with
        | Str str =>
            let length := Z.of_nat (String.length str) in
            if bool_decide (length < min)%Z || bool_decide (length > max)%Z
            then Some (wrapError "" ErrLengthBetween
                         (" " +:+ Strconv.FormatInt min +:+ " and "
                          +:+ Strconv.FormatInt max +:+ " characters"))
            else None
        | _ => None
        end).

(** [BeTrue] and [BeFalse]. *)
Definition BeTrue : ValidateFunc :=
  ("be_true",
   λ v, match v with
        | Bool b => if negb b then Some ErrMustBeTrue else None
        | _ => None
        end).

Definition BeFalse : ValidateFunc :=
  ("be_false",
   λ v, match v with
        | Bool b => if b then Some ErrMustBeFalse else None
        | _ => None
        end).

Section Comparison.
(** The comparisons of [float32], [float64] and [time.Time] ([>], [<],
    [After], [Before]) and the verb [%v] on their values are those of
    Go: they are taken as they come, on the representations. *)
Variable libGreater libLess : string → string → string → bool.
Variable libFormat : string → string → string.

(** [isGreaterThan] and [isLessThan]: both arguments have the type [T] of
    the validator; a value of no numeric type compares as false. *)
Definition isGreaterThan (a b : any) : bool :=
  match a, b with
  | IntV _ x, IntV _ y => bool_decide (x > y)%Z
  | UintV _ x, UintV _ y => bool_decide (x > y)%Z
  | LibV name x, LibV _ y => libGreater name x y
  | _, _ => false
  end.

Definition isLessThan (a b : any) : bool :=
  match a, b with
  | IntV _ x, IntV _ y => bool_decide (x < y)%Z
  | UintV _ x, UintV _ y => bool_decide (x < y)%Z
  | LibV name x, LibV _ y => libLess name x y
  | _, _ => false
  end.

(** The verb [%v] on a bound. *)
Definition fmtV (v : any) : string :=
  match v with
  | IntV _ x | UintV _ x => Strconv.FormatInt x
  | LibV name x => libFormat name x
  | _ => ""
  end.

Definition Gt (min : any) : ValidateFunc :=
  ("gt", λ val, if negb (isGreaterThan val min)
                then Some (wrapError "" ErrMustGt (" " +:+ fmtV min))
                else None).

Definition Gte (min : any) : ValidateFunc :=
  ("gte", λ val, if isLessThan val min
                 then Some (wrapError "" ErrMustGte (" " +:+ fmtV min))
                 else None).

Definition Lt (max : any) : ValidateFunc :=
  ("lt", λ val, if negb (isLessThan val max)
                then Some (wrapError "" ErrMustLt (" " +:+ fmtV max))
                else None).

Definition Lte (max : any) : ValidateFunc :=
  ("lte", λ val, if isGreaterThan val max
                 then Some (wrapError "" ErrMustLte (" " +:+ fmtV max))
                 else None).

Definition Between (min max : any) : ValidateFunc :=
  ("between",
   λ val, if isLessThan val min || isGreaterThan val max
          then Some (wrapError "" ErrMustBetween
                       (" " +:+ fmtV min +:+ " and " +:+ fmtV max))
          else None).
End Comparison.

End Constraints.

(** * Properties *)

Import Validator.

(** ** Outcomes and folds *)

Lemma obind_Ret {A B} (a : A) (k : A → outcome B) : obind (Ret a) k = k a.
Proof. done. Qed.

Lemma foldlM_app {A St} (step : St → A → outcome St) st l1 l2 :
  foldlM step st (l1 ++ l2)%list
  = obind (foldlM step st l1) (λ st', foldlM step st' l2).
Proof.
  revert st. induction l1 as [|x l1 IH]; intros st; simpl; [done|].
  destruct (step st x); simpl; auto.
Qed.

(** A loop with a step that never panics is a plain left fold. *)
Lemma foldlM_Ret {A St} (step : St → A → outcome St) (f : St → A → St) l :
  ∀ st, (∀ st x, x ∈ l → step st x = Ret (f st x)) →
  foldlM step st l = Ret (foldl f st l).
Proof.
  induction l as [|x l IH]; intros st Hstep; simpl; [done|].
  rewrite Hstep by left. simpl. apply IH.
  intros st' y Hy. apply Hstep. by right.
Qed.

(** ** Go strings *)

Lemma ContainsByte_spec (s : string) (c : ascii) :
  GoStrings.ContainsByte s c = true ↔ c ∈ list_ascii_of_string s.
Proof.
  induction s as [|x s IH]; simpl.
  - split; [done|]. by intros ?%elem_of_nil.
  - destruct (decide (x = c)) as [->|Hne].
    + split; [|done]. intros _. by left.
    + rewrite IH. split; [by right|].
      intros [?|?]%elem_of_cons; [congruence|done].
Qed.

Lemma ContainsByte_false (s : string) (c : ascii) :
  GoStrings.ContainsByte s c = false ↔ c ∉ list_ascii_of_string s.
Proof.
  rewrite <-ContainsByte_spec. by destruct (GoStrings.ContainsByte s c).
Qed.

(** A string with no separator in it is its own single part. *)
Lemma Split_plain (s : string) (sep : ascii) :
  GoStrings.ContainsByte s sep = false → GoStrings.Split s sep = [s].
Proof.
  induction s as [|x s IH]; simpl; [done|].
  destruct (decide (x = sep)); [done|]. intros H. by rewrite IH.
Qed.

(** No part of a split string holds the separator. *)
Lemma Split_parts (s : string) (sep : ascii) :
  Forall (λ p, GoStrings.ContainsByte p sep = false) (GoStrings.Split s sep).
Proof.
  induction s as [|x s IH]; simpl.
  - by repeat constructor.
  - destruct (decide (x = sep)) as [->|Hne].
    + by constructor.
    + destruct (GoStrings.Split s sep) as [|p ps].
      * repeat constructor. simpl. by destruct (decide (x = sep)).
      * inversion_clear IH. constructor; [|done].
        simpl. by destruct (decide (x = sep)).
Qed.

Lemma Split_nonempty (s : string) (sep : ascii) : GoStrings.Split s sep ≠ [].
Proof.
  destruct s as [|x s]; simpl; [done|].
  destruct (decide (x = sep)); [done|].
  by destruct (GoStrings.Split s sep).
Qed.

(** Splitting undoes joining, for parts that hold no separator. *)
Lemma Split_Join (parts : list string) (sep : ascii) :
  parts ≠ [] →
  Forall (λ p, GoStrings.ContainsByte p sep = false) parts →
  GoStrings.Split (GoStrings.Join parts (String sep "")) sep = parts.
Proof.
  assert (Hsplit : ∀ p rest,
    GoStrings.ContainsByte p sep = false →
    GoStrings.Split (p +:+ String sep rest) sep
    = p :: GoStrings.Split rest sep).
  { induction p as [|x p IH]; intros rest Hp; simpl in *.
    - by destruct (decide (sep = sep)).
    - destruct (decide (x = sep)); [done|]. by rewrite IH. }
  induction parts as [|p parts IH]; intros Hne Hall; [done|].
  inversion_clear Hall as [|?? Hp Hps].
  destruct parts as [|q parts].
  - simpl. by apply Split_plain.
  - change (GoStrings.Join (p :: q :: parts) (String sep ""))
      with (p +:+ String sep "" +:+ GoStrings.Join (q :: parts) (String sep "")).
    change (String sep "" +:+ ?r) with (String sep r).
    rewrite Hsplit by done. f_equal. by apply IH.
Qed.

(** ** The result object: [Add] *)

(** A run of [Add] calls that returns: every name was new when it was
    added and holds no dot, what was stored before is still there, and
    every value added is there under its name. *)
Lemma Add_run (l : list (string * any)) :
  ∀ d0 d,
    foldlM (λ d nv, Internal.Add d nv.1 nv.2) d0 l = Ret d →
    (∀ k v, d0 !! k = Some v → d !! k = Some v)
    ∧ (∀ n v, (n, v) ∈ l →
         d !! n = Some v ∧ d0 !! n = None
         ∧ "."%char ∉ list_ascii_of_string n)
    ∧ (∀ k, is_Some (d !! k) → is_Some (d0 !! k) ∨ k ∈ l.*1).
Proof.
  induction l as [|[n v] l IH]; intros d0 d; simpl.
  - intros [= <-]. split_and!; [done| |by left].
    by intros ?? ?%elem_of_nil.
  - unfold Internal.Add at 1.
    destruct (d0 !! n) as [w|] eqn:Hn; simpl; [done|].
    destruct (GoStrings.ContainsByte n ".") eqn:Hdot; simpl; [done|].
    intros Hrun. destruct (IH _ _ Hrun) as (Hkeep & Hnew & Hdom).
    assert (d !! n = Some v) as Hv by (apply Hkeep, lookup_insert_eq).
    split_and!.
    + intros k w Hk. apply Hkeep.
      rewrite lookup_insert_ne; [done|]. intros ->. congruence.
    + intros n' v' [[= -> ->]|Hin]%elem_of_cons.
      * split_and!; [done..|]. by apply ContainsByte_false.
      * destruct (Hnew _ _ Hin) as (? & Hfree & ?). split_and!; [done| |done].
        destruct (decide (n = n')) as [->|Hne].
        -- by rewrite lookup_insert_eq in Hfree.
        -- by rewrite lookup_insert_ne in Hfree.
    + intros k Hk. destruct (Hdom _ Hk) as [Hk'|Hk'].
      * destruct (decide (n = k)) as [->|Hne].
        -- right. simpl. by left.
        -- left. by rewrite lookup_insert_ne in Hk'.
      * right. simpl. by right.
Qed.

(** C10. [Data.Add(name, value)] panics when a property of that name exists
    or when the name holds a dot, and only then; when it returns, the value
    is stored under the name and nothing else changed.  Hence, along any
    run of [Add] calls, every key added is free of dots and no stored value
    is overwritten. *)
Theorem Add_guards (vo : gmap string any) (name : string) (value : any) :
  ((∃ p, Internal.Add vo name value = Panic p)
     ↔ is_Some (vo !! name) ∨ "."%char ∈ list_ascii_of_string name)
  ∧ (∀ vo', Internal.Add vo name value = Ret vo' →
       vo !! name = None
       ∧ ("."%char ∉ list_ascii_of_string name)
       ∧ vo' = <[name := value]> vo)
  ∧ (vo !! name = None → "."%char ∉ list_ascii_of_string name →
       Internal.Add vo name value = Ret (<[name := value]> vo))
  ∧ (∀ (l : list (string * any)) d,
       foldlM (λ d nv, Internal.Add d nv.1 nv.2) vo l = Ret d →
       (∀ k v, vo !! k = Some v → d !! k = Some v)
       ∧ (∀ n v, (n, v) ∈ l →
            d !! n = Some v ∧ "."%char ∉ list_ascii_of_string n)).
Proof.
  split_and!.
  - unfold Internal.Add. split.
    + intros [p Hp]. destruct (vo !! name) eqn:Hn; [left; eauto|].
      destruct (GoStrings.ContainsByte name ".") eqn:Hdot; [|done].
      right. by apply ContainsByte_spec.
    + intros [[w Hw]|Hdot]; [rewrite Hw; eauto|].
      destruct (vo !! name); [eauto|].
      apply ContainsByte_spec in Hdot. rewrite Hdot. eauto.
  - unfold Internal.Add. intros vo'.
    destruct (vo !! name); [done|].
    destruct (GoStrings.ContainsByte name ".") eqn:Hdot; [done|].
    intros [= <-]. split_and!; [done| |done]. by apply ContainsByte_false.
  - intros Hn Hdot. unfold Internal.Add. rewrite Hn.
    apply ContainsByte_false in Hdot. by rewrite Hdot.
  - intros l d Hrun. destruct (Add_run _ _ _ Hrun) as (Hkeep & Hnew & _).
    split; [done|]. intros n v Hin. by destruct (Hnew _ _ Hin) as (? & _ & ?).
Qed.

(** ** The result object: [Get] *)

Section GetFacts.
Implicit Types (delegate : gmap string any → string → outcome (option any)).

(** The loop over a path is the loop over its first parts, carried on
    from the value they lead to. *)
Lemma walk_app delegate (pre suf : list string) :
  ∀ c, Internal.walk delegate c (pre ++ suf)
       = match Internal.walk delegate c pre with
         | Internal.Found c' => Internal.walk delegate c' suf
         | Internal.Absent => Internal.Absent
         | Internal.Failed p => Internal.Failed p
         end.
Proof.
  induction pre as [|part pre IH]; intros c; [done|].
  simpl. destruct c; try done.
  - destruct (Strconv.Atoi part); [|done].
    case_decide; [|done]. by destruct (_ !! _).
  - by destruct (_ !! _).
  - destruct (delegate d part) as [[v|]|]; auto.
Qed.

(** The loop only delegates on parts of the path, which hold no dot. *)
Lemma walk_ext delegate1 delegate2 (parts : list string) :
  (∀ d part, GoStrings.ContainsByte part "." = false →
             delegate1 d part = delegate2 d part) →
  Forall (λ p, GoStrings.ContainsByte p "." = false) parts →
  ∀ c, Internal.walk delegate1 c parts = Internal.walk delegate2 c parts.
Proof.
  intros Hext. induction 1 as [|part parts Hpart _ IH]; intros c; [done|].
  simpl. destruct c; try done.
  - destruct (Strconv.Atoi part); [|done].
    case_decide; [|done]. by destruct (_ !! _).
  - by destruct (_ !! _).
  - rewrite (Hext _ _ Hpart). destruct (delegate2 d part) as [[v|]|]; auto.
Qed.

(** On a name with no dot, [Get[any]] is a lookup of the key, whatever it
    would delegate to. *)
Lemma GetWith_plain delegate (d : gmap string any) (part : string) :
  GoStrings.ContainsByte part "." = false →
  Internal.GetWith delegate Internal.AnyType d part
  = match d !! part with
    | Some Nil => Panic WrongType
    | Some v => Ret (Some v)
    | None => Ret None
    end.
Proof.
  intros Hpart. unfold Internal.GetWith.
  destruct (d !! part) as [v|] eqn:Hd; [by destruct v|].
  rewrite Split_plain by done. simpl. by rewrite Hd.
Qed.

(** [Get] satisfies the recursive equation of its source: the call it
    delegates to is [Get[any]]. *)
Lemma Get_unfold (T : Internal.typeParam) (data : gmap string any)
    (name : string) :
  Internal.Get T data name
  = Internal.GetWith (Internal.Get Internal.AnyType) T data name.
Proof.
  unfold Internal.Get at 1. unfold Internal.GetWith at 1 3.
  destruct (data !! name); [done|].
  erewrite walk_ext; [done| |apply Split_parts].
  intros d part Hpart. unfold Internal.Get. by rewrite !GetWith_plain.
Qed.

(** [Get] on a key that is present: no path is walked. *)
Lemma Get_literal (T : Internal.typeParam) (data : gmap string any)
    (name : string) (val : any) :
  data !! name = Some val →
  Internal.Get T data name
  = if Internal.assertType T val then Ret (Some val) else Panic WrongType.
Proof. intros H. unfold Internal.Get, Internal.GetWith. by rewrite H. Qed.

(** [Get] on a name that is no key: the path is split and walked. *)
Lemma Get_walk (T : Internal.typeParam) (data : gmap string any)
    (name : string) :
  data !! name = None →
  Internal.Get T data name
  = match Internal.walk (Internal.Get Internal.AnyType) (DataV data)
            (GoStrings.Split name ".") with
    | Internal.Found c =>
        if Internal.assertType T c then Ret (Some c) else Panic WrongType
    | Internal.Absent => Ret None
    | Internal.Failed p => Panic p
    end.
Proof. intros H. rewrite Get_unfold. unfold Internal.GetWith. by rewrite H. Qed.

End GetFacts.

(** What the parts lead to is where the loop of [Get] ends. *)
Lemma reaches_walk (v c : any) (parts : list string) :
  Forall (λ p, GoStrings.ContainsByte p "." = false) parts →
  reaches v parts c →
  Internal.walk (Internal.Get Internal.AnyType) v parts = Internal.Found c.
Proof.
  intros Hparts Hreach. induction Hreach as
    [v|m part v rest c Hm _ IH|m part v rest c Hm Hv _ IH
    |t l part i v rest c Hpart Hl _ IH]; [done|..];
    apply Forall_cons in Hparts as [Hpart' Hrest]; simpl.
  - rewrite Hm. by apply IH.
  - unfold Internal.Get at 1. rewrite GetWith_plain by done. rewrite Hm.
    destruct v; try done; by apply IH.
  - rewrite Hpart. apply lookup_lt_Some in Hl as Hlt.
    rewrite decide_True by lia. rewrite Nat2Z.id, Hl. by apply IH.
Qed.

Lemma walk_reaches (parts : list string) :
  Forall (λ p, GoStrings.ContainsByte p "." = false) parts →
  ∀ v c,
    Internal.walk (Internal.Get Internal.AnyType) v parts = Internal.Found c →
    reaches v parts c.
Proof.
  induction 1 as [|part rest Hpart _ IH]; intros v c; simpl.
  - intros [= <-]. constructor.
  - destruct v as [| | | | | |t l|m|m|m]; try done.
    + destruct (Strconv.Atoi part) as [index|] eqn:Hindex; [|done].
      case_decide as Hrange; [|done].
      destruct (l !! Z.to_nat index) as [v|] eqn:Hl; [|done].
      intros Hwalk. apply (reaches_slice t l part (Z.to_nat index) v); auto.
      by rewrite Z2Nat.id by lia.
    + destruct (m !! part) as [v|] eqn:Hm; [|done].
      intros Hwalk. apply (reaches_data m part v); auto.
    + unfold Internal.Get at 1. rewrite GetWith_plain by done.
      destruct (m !! part) as [v|] eqn:Hm; [|done].
      destruct v; try done; intros Hwalk;
        (eapply reaches_object; [exact Hm|done|by apply IH]).
Qed.

(** C7. [Get] on a result object.  A path that is itself a key of the
    object is answered by that key alone, with no walk.  Otherwise the path
    is split at the dots and followed from the object: through the keys of
    plain maps and of nested objects and through the indices of slices.
    Where the parts before [part] lead to a map or to a nested object that
    has no key [part], the result is empty; where they lead to a scalar,
    the result is empty; where they lead to a slice, a [part] that is no
    integer, or an index out of range, is a panic.  Where the whole path
    leads to a value, that value is the result, and a value of another type
    than the one asked for is a panic, as it is on a key; and [Get] returns
    no value but the one the path leads to. *)
Theorem Get_resolution (T : Internal.typeParam) (data : gmap string any)
    (name : string) :
  (∀ val, data !! name = Some val →
     Internal.Get T data name
     = if Internal.assertType T val then Ret (Some val) else Panic WrongType)
  ∧ (data !! name = None →
     ∀ pre part rest c,
       GoStrings.Split name "." = (pre ++ part :: rest)%list →
       reaches (DataV data) pre c →
       match c with
       | DataV m | VO m =>
           m !! part = None → Internal.Get T data name = Ret None
       | Slice _ l =>
           (Strconv.Atoi part = None →
            Internal.Get T data name = Panic NotAnIndex)
           ∧ (∀ index, Strconv.Atoi part = Some index →
                ¬ (0 ≤ index < Z.of_nat (length l))%Z →
                Internal.Get T data name = Panic OutOfBounds)
       | _ => Internal.Get T data name = Ret None
       end)
  ∧ (data !! name = None →
     ∀ c,
       reaches (DataV data) (GoStrings.Split name ".") c →
       Internal.Get T data name
       = if Internal.assertType T c then Ret (Some c) else Panic WrongType)
  ∧ (data !! name = None →
     ∀ c,
       Internal.Get T data name = Ret (Some c) →
       reaches (DataV data) (GoStrings.Split name ".") c
       ∧ Internal.assertType T c = true).
Proof.
  pose proof (Split_parts name ".") as Hparts.
  split_and!.
  - intros val. apply Get_literal.
  - intros Hname pre part rest c Hsplit Hpre.
    rewrite Hsplit in Hparts. apply Forall_app in Hparts as [Hpre' Hrest].
    apply Forall_cons in Hrest as [Hpart _].
    rewrite (Get_walk _ _ _ Hname), Hsplit, walk_app.
    rewrite (reaches_walk _ _ _ Hpre' Hpre).
    destruct c as [| | | | | |t l|m|m|m]; simpl; try done.
    + split.
      * by intros ->.
      * intros index -> Hout. by case_decide.
    + by intros ->.
    + intros Hm. unfold Internal.Get at 1.
      by rewrite GetWith_plain, Hm.
  - intros Hname c Hc.
    by rewrite (Get_walk _ _ _ Hname), (reaches_walk _ _ _ Hparts Hc).
  - intros Hname c. rewrite (Get_walk _ _ _ Hname).
    destruct (Internal.walk _ _ _) as [c'| |p] eqn:Hwalk; [|done..].
    destruct (Internal.assertType T c') eqn:Htype; [|done].
    intros [= <-]. split; [|done]. by apply walk_reaches.
Qed.

(** The example object of the tests of the view: a nested user, a slice of
    tags. *)
Example Get_examples :
  let user : gmap string any := {[ "name" := Str "John Doe" ]} in
  let vo : gmap string any :=
    {[ "user" := VO user;
       "tags" := Slice GoString [Str "go"; Str "dvo"; Str "testing"];
       "acct.Email" := Str "a@x.com" ]} in
  Internal.Get Internal.AnyType vo "acct.Email" = Ret (Some (Str "a@x.com"))
  ∧ Internal.Get Internal.AnyType vo "user.name" = Ret (Some (Str "John Doe"))
  ∧ Internal.Get Internal.AnyType vo "tags.1" = Ret (Some (Str "dvo"))
  ∧ Internal.Get Internal.AnyType vo "user.email" = Ret None
  ∧ Internal.Get Internal.AnyType vo "user.name.foo" = Ret None
  ∧ Internal.Get Internal.AnyType vo "tags.not-an-index" = Panic NotAnIndex
  ∧ Internal.Get Internal.AnyType vo "tags.3" = Panic OutOfBounds
  ∧ Internal.Get (Internal.Exactly (GoInt Int)) vo "user.name" = Panic WrongType.
Proof. vm_compute. by repeat split. Qed.

(** ** Coercion of integers *)

Lemma digit_pretty_N_char (d : N) :
  (d < 10)%N → Gjson.digit (pretty_N_char d) = Some (Z.of_N d).
Proof.
  intros Hd.
  assert (d = 0 ∨ d = 1 ∨ d = 2 ∨ d = 3 ∨ d = 4 ∨ d = 5 ∨ d = 6 ∨ d = 7
          ∨ d = 8 ∨ d = 9)%N as Hcases by lia.
  by destruct_or! Hcases; subst d.
Qed.

(** Reading back the digits that [pretty_N_go] writes in front of [s]. *)
Lemma parseDigits_pretty_N_go (x : N) :
  ∀ (s : string) (acc : Z), ∃ k : Z,
    (0 ≤ k)%Z
    ∧ Gjson.parseDigits id acc (pretty_N_go x s)
      = Gjson.parseDigits id (acc * 10 ^ k + Z.of_N x)%Z s.
Proof.
  induction (N.lt_wf_0 x) as [x _ IH]; intros s acc.
  destruct (decide (x = 0)%N) as [->|Hx].
  - exists 0%Z. rewrite pretty_N_go_0. split; [done|]. f_equal. lia.
  - rewrite pretty_N_go_step by lia.
    destruct (IH (x `div` 10)%N) with
      (s := String (pretty_N_char (x `mod` 10)) s) (acc := acc)
      as (k & Hk & ->); [apply N.div_lt; lia|].
    exists (k + 1)%Z. split; [lia|]. simpl.
    rewrite digit_pretty_N_char by (apply N.mod_lt; lia).
    unfold id at 1. f_equal.
    rewrite Z.pow_add_r, Z.pow_1_r by lia.
    rewrite N2Z.inj_div, N2Z.inj_mod.
    pose proof (Z.div_mod (Z.of_N x) 10). lia.
Qed.

Lemma parseDigits_pretty_N (x : N) :
  Gjson.parseDigits id 0 (pretty x) = Some (Z.of_N x).
Proof.
  unfold pretty, pretty_N. case_decide as Hx; [by subst x|].
  destruct (parseDigits_pretty_N_go x "" 0) as (k & _ & ->). simpl.
  f_equal; lia.
Qed.

(** A string of digits holds neither a sign nor a point. *)
Lemma parseDigits_chars (wrap : Z → Z) (s : string) (c : ascii) :
  Gjson.digit c = None →
  ∀ acc v, Gjson.parseDigits wrap acc s = Some v →
           GoStrings.ContainsByte s c = false.
Proof.
  intros Hc. induction s as [|x s IH]; intros acc v; simpl; [done|].
  destruct (Gjson.digit x) as [d|] eqn:Hx; [|done].
  destruct (decide (x = c)) as [->|_]; [congruence|]. apply IH.
Qed.

(** The decimal rendering of an integer is an integer literal, and reads
    back as that integer: a raw text that is no literal is the rendering of
    no integer. *)
Lemma FormatInt_literal (z : Z) :
  Gjson.literal (Strconv.FormatInt z) = Some z.
Proof.
  assert (Hpos : ∀ p : positive, ∃ c r,
            pretty (N.pos p) = String c r ∧ c ≠ "-"%char).
  { intros p. pose proof (parseDigits_pretty_N (N.pos p)) as Hp.
    destruct (pretty (N.pos p)) as [|c r] eqn:Hs; [done|].
    exists c, r. split; [done|]. intros ->. by simpl in Hp. }
  unfold Strconv.FormatInt, pretty at 1, pretty_Z.
  destruct z as [|p|p].
  - done.
  - change (pretty p) with (pretty (N.pos p)).
    pose proof (parseDigits_pretty_N (N.pos p)) as Hp.
    destruct (Hpos p) as (c & r & Hs & Hc). rewrite Hs in Hp |- *.
    unfold Gjson.literal. by rewrite decide_False.
  - change (pretty p) with (pretty (N.pos p)).
    pose proof (parseDigits_pretty_N (N.pos p)) as Hp.
    destruct (Hpos p) as (c & r & Hs & Hc). rewrite Hs in Hp |- *.
    change ("-" +:+ String c r) with (String "-" (String c r)).
    unfold Gjson.literal. rewrite decide_True by done. by rewrite Hp.
Qed.

Lemma FormatInt_not_literal (raw : string) :
  Gjson.literal raw = None → ∀ z, Strconv.FormatInt z ≠ raw.
Proof. intros Hraw z <-. by rewrite FormatInt_literal in Hraw. Qed.

(** C3. The boundaries of integer coercion.  For every signed target, of
    width N, the number 2^(N-1) is refused as an overflow and 2^(N-1)-1 is
    accepted; for every unsigned target, -1 is refused and 0 is accepted;
    and on an unsigned target every raw text that starts with a minus sign
    is refused as an overflow, which is no type mismatch (the error of a
    number in float format). *)
Theorem typedJson_integer_bounds :
  (∀ k : intKind,
     View.typedJson (TInt k)
       (JNumber (Strconv.FormatInt (2 ^ (intBits k - 1))))
     = Err (View.overflowError (TInt k))
     ∧ View.typedJson (TInt k)
         (JNumber (Strconv.FormatInt (2 ^ (intBits k - 1) - 1)))
       = Ok (IntV k (2 ^ (intBits k - 1) - 1)))
  ∧ (∀ k : uintKind,
       View.typedJson (TUint k) (JNumber "-1")
       = Err (View.overflowError (TUint k))
       ∧ View.typedJson (TUint k) (JNumber "0") = Ok (UintV k 0))
  ∧ (∀ (k : uintKind) (rest : string),
       View.typedJson (TUint k) (JNumber (String "-" rest))
       = Err (View.overflowError (TUint k)))
  ∧ (∀ T : FieldType,
       errors_Is (View.overflowError T) "integer overflow" = true
       ∧ errors_Is (View.overflowError T) "type mismatch" = false).
Proof.
  split_and!.
  - intros k. split; destruct k; vm_compute; reflexivity.
  - intros k. split; destruct k; vm_compute; reflexivity.
  - intros k rest. unfold View.typedJson. by simpl.
  - intros T. split; reflexivity.
Qed.

(** ** Induction on errors and on values *)

Lemma map_fold_size_lookup {A} (size : A → nat) (m : gmap string A) k x :
  m !! k = Some x →
  size x < S (map_fold (λ _ y n, size y + n) 0 m).
Proof.
  intros Hk.
  rewrite (map_fold_delete_L (λ _ y n, size y + n) 0 k x m); [lia| |done].
  intros. lia.
Qed.

(** Induction on an error, with the property known of every entry of an
    aggregate. *)
Lemma error_ind' (P : error → Prop) :
  (∀ s, P (errorString s)) →
  (∀ pre e post, P e → P (wrapError pre e post)) →
  (∀ errors, map_Forall (λ _ e, P e) errors → P (validationError errors)) →
  ∀ e, P e.
Proof.
  intros Hs Hw Hv e.
  remember (error_size e) as n eqn:Hn. revert e Hn.
  induction n as [n IH] using lt_wf_ind. intros e ->.
  destruct e as [s|pre e post|errors].
  - apply Hs.
  - apply Hw. apply (IH (error_size e)); [simpl; lia|done].
  - apply Hv. intros k x Hk. apply (IH (error_size x)); [|done].
    simpl. by eapply (map_fold_size_lookup error_size).
Qed.

Lemma foldr_size_elem (l : list any) (x : any) :
  x ∈ l → any_size x < S (foldr (λ y n, any_size y + n) 0 l).
Proof.
  induction 1 as [|x y l _ IH]; simpl; lia.
Qed.

(** Induction on a value, with the property known of every element of a
    slice and of every value of a map. *)
Lemma any_ind' (P : any → Prop) :
  P Nil →
  (∀ s, P (Str s)) →
  (∀ b, P (Bool b)) →
  (∀ k z, P (IntV k z)) →
  (∀ k z, P (UintV k z)) →
  (∀ n r, P (LibV n r)) →
  (∀ t l, Forall P l → P (Slice t l)) →
  (∀ d, map_Forall (λ _ v, P v) d → P (DataV d)) →
  (∀ d, map_Forall (λ _ v, P v) d → P (VO d)) →
  (∀ d, map_Forall (λ _ v, P v) d → P (MapV d)) →
  ∀ v, P v.
Proof.
  intros HNil HStr HBool HInt HUint HLib HSlice HData HVO HMap v.
  remember (any_size v) as n eqn:Hn. revert v Hn.
  induction n as [n IH] using lt_wf_ind. intros v ->.
  destruct v as [| | | | | |t l|d|d|d]; auto.
  - apply HSlice, Forall_forall. intros x Hx.
    apply (IH (any_size x)); [|done]. simpl. by apply foldr_size_elem.
  - apply HData. intros k x Hk. apply (IH (any_size x)); [|done].
    simpl. by eapply (map_fold_size_lookup any_size).
  - apply HVO. intros k x Hk. apply (IH (any_size x)); [|done].
    simpl. by eapply (map_fold_size_lookup any_size).
  - apply HMap. intros k x Hk. apply (IH (any_size x)); [|done].
    simpl. by eapply (map_fold_size_lookup any_size).
Qed.

(** ** Ranging in any order *)

(** A loop over a list of entries with distinct keys, whose steps on two
    different keys commute, does not depend on the order of the entries. *)
Lemma foldl_Permutation_keys {St V} (step : St → string * V → St)
    (l1 l2 : list (string * V)) :
  (∀ st k1 v1 k2 v2, k1 ≠ k2 →
     step (step st (k1, v1)) (k2, v2) = step (step st (k2, v2)) (k1, v1)) →
  l1 ≡ₚ l2 → NoDup l1.*1 →
  ∀ st, foldl step st l1 = foldl step st l2.
Proof.
  intros Hcomm Hperm.
  induction Hperm as [|x l1 l2 _ IH|[k1 v1] [k2 v2] l|l1 l2 l3 H12 IH12 H23 IH23];
    intros Hnd st.
  - done.
  - simpl. apply IH. by inversion Hnd.
  - simpl. rewrite Hcomm; [done|].
    simpl in Hnd. inversion_clear Hnd as [|?? Hnotin _]. intros ->.
    apply Hnotin. by left.
  - rewrite IH12 by done. apply IH23. by rewrite <-H12.
Qed.

(** A valid order visits distinct keys, and exactly the entries of the
    map. *)
Lemma range_NoDup (range : rangeOrder) {V} (m : gmap string V) :
  rangeOrder_valid range → NoDup (range V m).*1.
Proof. intros Hr. rewrite (Hr V m). apply NoDup_fst_map_to_list. Qed.

Lemma range_elem_of (range : rangeOrder) {V} (m : gmap string V) k v :
  rangeOrder_valid range → (k, v) ∈ range V m ↔ m !! k = Some v.
Proof. intros Hr. rewrite (Hr V m). apply elem_of_map_to_list. Qed.

Lemma keyOrder_valid : rangeOrder_valid keyOrder.
Proof. by intros V m. Qed.

(** A loop over a map does not depend on the order of the range when its
    steps on different keys commute. *)
Lemma range_foldl {St V} (range1 range2 : rangeOrder)
    (step : St → string * V → St) (m : gmap string V) (st : St) :
  rangeOrder_valid range1 → rangeOrder_valid range2 →
  (∀ st k1 v1 k2 v2, k1 ≠ k2 →
     step (step st (k1, v1)) (k2, v2) = step (step st (k2, v2)) (k1, v1)) →
  foldl step st (range1 V m) = foldl step st (range2 V m).
Proof.
  intros H1 H2 Hcomm. apply foldl_Permutation_keys; [done| |by apply range_NoDup].
  by rewrite (H1 V m), (H2 V m).
Qed.

(** Sorting forgets the order in which the keys were collected. *)
Lemma sort_Strings_Permutation (l1 l2 : list string) :
  l1 ≡ₚ l2 → sort_Strings l1 = sort_Strings l2.
Proof.
  intros Hperm. unfold sort_Strings.
  apply (Sorted_unique String.le).
  - apply Sorted_merge_sort, _.
  - apply Sorted_merge_sort, _.
  - by rewrite !merge_sort_Permutation.
Qed.

Lemma sort_Strings_range (range1 range2 : rangeOrder) {V} (m : gmap string V) :
  rangeOrder_valid range1 → rangeOrder_valid range2 →
  sort_Strings (range1 V m).*1 = sort_Strings (range2 V m).*1.
Proof.
  intros H1 H2. apply sort_Strings_Permutation.
  by rewrite (H1 V m), (H2 V m).
Qed.

Lemma sort_Strings_elem_of (range : rangeOrder) {V} (m : gmap string V) k :
  rangeOrder_valid range →
  k ∈ sort_Strings (range V m).*1 ↔ is_Some (m !! k).
Proof.
  intros Hr. unfold sort_Strings.
  rewrite merge_sort_Permutation, (Hr V m), list_elem_of_fmap.
  split.
  - intros ([k' v] & -> & Hin). apply elem_of_map_to_list in Hin. eauto.
  - intros [v Hv]. exists (k, v). split; [done|]. by apply elem_of_map_to_list.
Qed.

(** ** The rendering of an aggregate *)

Lemma string_app_assoc (s1 s2 s3 : string) :
  (s1 +:+ s2) +:+ s3 = s1 +:+ (s2 +:+ s3).
Proof.
  induction s1 as [|c s1 IH]; [done|].
  change (String c ((s1 +:+ s2) +:+ s3) = String c (s1 +:+ (s2 +:+ s3))).
  by f_equal.
Qed.

Lemma string_app_nil_r (s : string) : s +:+ "" = s.
Proof.
  induction s as [|c s IH]; [done|].
  change (String c (s +:+ "") = String c s). by f_equal.
Qed.

(** The builder loop writes the header and then the entries. *)
Lemma writeEntries_text (keys : list string) (msgs : gmap string string) :
  View.writeEntries keys msgs = View.header +:+ entriesText keys msgs.
Proof.
  unfold View.writeEntries. generalize View.header as b.
  induction keys as [|k keys IH]; intros b; simpl.
  - by rewrite string_app_nil_r.
  - by rewrite IH, string_app_assoc.
Qed.

(** The message of an error does not depend on the order in which the
    maps of aggregates are ranged over. *)
Lemma Error_range (range1 range2 : rangeOrder) :
  rangeOrder_valid range1 → rangeOrder_valid range2 →
  ∀ e, View.Error range1 e = View.Error range2 e.
Proof.
  intros H1 H2. induction e as [s|pre e post IH|errors IH] using error_ind';
    simpl.
  - done.
  - by rewrite IH.
  - case_decide; [done|].
    rewrite (sort_Strings_range range1 range2) by done. f_equal.
    apply map_fmap_ext. intros k e Hk. by apply (IH k).
Qed.

(** A byte of a concatenation is a byte of one of its two parts. *)
Lemma ContainsByte_app (s1 s2 : string) (c : ascii) :
  GoStrings.ContainsByte (s1 +:+ s2) c
  = GoStrings.ContainsByte s1 c || GoStrings.ContainsByte s2 c.
Proof.
  induction s1 as [|x s1 IH]; [done|].
  change (GoStrings.ContainsByte (String x (s1 +:+ s2)) c
          = GoStrings.ContainsByte (String x s1) c
            || GoStrings.ContainsByte s2 c).
  simpl. by case_decide.
Qed.

(** The entries hold a line feed only where a path or a message does. *)
Lemma entriesText_newline (keys : list string) (msgs : gmap string string) :
  GoStrings.ContainsByte (entriesText keys msgs) newline = true
  ↔ ∃ k, k ∈ keys
         ∧ (GoStrings.ContainsByte k newline = true
            ∨ GoStrings.ContainsByte (default "" (msgs !! k)) newline = true).
Proof.
  induction keys as [|k keys IH]; simpl.
  - split; [done|]. intros (k & Hk & _). by apply elem_of_nil in Hk.
  - rewrite !ContainsByte_app.
    change (GoStrings.ContainsByte "- " newline) with false.
    change (GoStrings.ContainsByte ": " newline) with false.
    rewrite !orb_false_l, !orb_true_iff, IH. split.
    + intros [[Hk|Hmsg]|(k' & Hk' & Hor)].
      * exists k. split; [by left|by left].
      * exists k. split; [by left|by right].
      * exists k'. split; [by right|done].
    + intros (k' & Hk' & Hor). apply elem_of_cons in Hk' as [->|Hk'].
      * left. by destruct Hor; [left|right].
      * right. eauto.
Qed.

(** C4, as the code has it.  The message of an aggregate that is not empty
    is the header followed by the entries, one [- path: message] per field
    path, in ascending order of the paths; the text is the same in whatever
    order the map is ranged over.  Nothing is written between the header
    and the first entry, nor between two entries: the message holds a line
    feed exactly when the path or the message of one of its entries holds
    one. *)
Theorem Error_sorted_entries (range : rangeOrder)
    (errors : gmap string error) :
  rangeOrder_valid range → errors ≠ ∅ →
  ∃ keys : list string,
    Sorted String.le keys
    ∧ NoDup keys
    ∧ (∀ k, k ∈ keys ↔ is_Some (errors !! k))
    ∧ View.Error range (validationError errors)
      = View.header +:+ entriesText keys (View.Error range <$> errors)
    ∧ (∀ range', rangeOrder_valid range' →
         View.Error range' (validationError errors)
         = View.Error range (validationError errors))
    ∧ (GoStrings.ContainsByte (View.Error range (validationError errors))
         newline = true
       ↔ ∃ k e, errors !! k = Some e
                ∧ (GoStrings.ContainsByte k newline = true
                   ∨ GoStrings.ContainsByte (View.Error range e) newline
                     = true)).
Proof.
  intros Hr Hne.
  assert (View.Error range (validationError errors)
          = View.header
            +:+ entriesText (sort_Strings (range error errors).*1)
                  (View.Error range <$> errors)) as Htext.
  { simpl. rewrite decide_False by done. apply writeEntries_text. }
  exists (sort_Strings (range error errors).*1). split_and!.
  - apply Sorted_merge_sort, _.
  - unfold sort_Strings. rewrite merge_sort_Permutation.
    by apply range_NoDup.
  - intros k. by apply sort_Strings_elem_of.
  - done.
  - intros range' Hr'. by apply Error_range.
  - rewrite Htext, ContainsByte_app.
    change (GoStrings.ContainsByte View.header newline) with false.
    rewrite orb_false_l, entriesText_newline. split.
    + intros (k & Hk & Hor).
      apply (sort_Strings_elem_of range) in Hk as [e He]; [|done].
      exists k, e. split; [done|].
      by rewrite lookup_fmap, He in Hor.
    + intros (k & e & He & Hor). exists k. split.
      * apply (sort_Strings_elem_of range); eauto.
      * by rewrite lookup_fmap, He.
Qed.

Lemma Error_sorted_entries_witness :
  ∃ keys : list string,
    Sorted String.le keys
    ∧ NoDup keys
    ∧ (∀ k, k ∈ keys ↔ is_Some
         (({[ "name" := errorString "too short" ]} : gmap string error) !! k))
    ∧ View.Error keyOrder
        (validationError {[ "name" := errorString "too short" ]})
      = View.header
        +:+ entriesText keys
              (View.Error keyOrder <$> {[ "name" := errorString "too short" ]})
    ∧ (∀ range', rangeOrder_valid range' →
         View.Error range'
           (validationError {[ "name" := errorString "too short" ]})
         = View.Error keyOrder
             (validationError {[ "name" := errorString "too short" ]}))
    ∧ (GoStrings.ContainsByte
         (View.Error keyOrder
            (validationError {[ "name" := errorString "too short" ]}))
         newline = true
       ↔ ∃ k e,
           ({[ "name" := errorString "too short" ]} : gmap string error) !! k
           = Some e
           ∧ (GoStrings.ContainsByte k newline = true
              ∨ GoStrings.ContainsByte (View.Error keyOrder e) newline
                = true)).
Proof.
  apply (Error_sorted_entries keyOrder
           {[ "name" := errorString "too short" ]}).
  - apply keyOrder_valid.
  - apply insert_non_empty.
Defined.

(** The message of an aggregate of two entries: one line, the entries
    follow the header and each other with no line feed in between. *)
Lemma Error_two_entries_one_line :
  View.Error keyOrder
    (validationError
       {[ "name" := errorString "too short"; "age" := errorString "too low" ]})
  = "validation failed with the following errors:- age: too low- name: too short"
  ∧ GoStrings.ContainsByte
      (View.Error keyOrder
         (validationError
            {[ "name" := errorString "too short";
               "age" := errorString "too low" ]}))
      newline = false.
Proof. split; vm_compute; reflexivity. Qed.

(** ** Arrays of primitives *)

Arguments View.primElement : simpl never.

Lemma string_app_inj_r (s1 s2 : string) (c : ascii) :
  s1 +:+ String c "" = s2 +:+ String c "" → s1 = s2.
Proof.
  revert s2. induction s1 as [|x s1 IH]; intros [|y s2] Heq; [done|..].
  - change (String c "" = String y (s2 +:+ String c "")) in Heq.
    injection Heq as _ Heq. by destruct s2.
  - change (String x (s1 +:+ String c "") = String c "") in Heq.
    injection Heq as _ Heq. by destruct s1.
  - change (String x (s1 +:+ String c "") = String y (s2 +:+ String c ""))
      in Heq.
    injection Heq as -> Heq. f_equal. by apply IH.
Qed.

(** Two elements of one array have different keys. *)
Lemma elemKey_inj (f : View.ViewField) (i j : nat) :
  View.elemKey f i = View.elemKey f j → i = j.
Proof.
  unfold View.elemKey. intros Heq.
  apply (inj (String.app _)), (inj (String.app _)) in Heq.
  apply string_app_inj_r in Heq.
  apply (inj pretty) in Heq. lia.
Qed.

(** The validators of an element all run, and each failure overwrites the
    one before under the key of the element. *)
Lemma validators_add (vs : list Validator) (val : any) (key : string) :
  ∀ (errs : gmap string error) (acc : option error),
    foldl (λ errs v, View.add errs key (v val)) (View.add errs key acc) vs
    = View.add errs key (lastError vs val acc).
Proof.
  induction vs as [|v vs IH]; intros errs acc; simpl; [done|].
  rewrite <-IH. f_equal.
  destruct (v val) as [e|]; [|done].
  destruct acc as [e'|]; simpl; [|done]. by rewrite insert_insert_eq.
Qed.

(** The effect of the loop body on the aggregate. *)
Lemma primElement_errs (f : View.ViewField) errs values index element :
  (View.primElement f (errs, values) index element).1
  = View.add errs (View.elemKey f index) (elementFailure f element).
Proof.
  unfold View.primElement, elementFailure.
  destruct (View.typedJson _ _) as [val|e]; simpl; [|done].
  apply (validators_add _ _ _ errs None).
Qed.

(** The value is appended when the aggregate is empty after the element. *)
Lemma primElement_values (f : View.ViewField) errs values index element :
  (View.primElement f (errs, values) index element).2
  = match View.typedJson (View.fieldType f) element with
    | Ok val =>
        match View.err (View.add errs (View.elemKey f index)
                          (elementFailure f element)) with
        | None => (values ++ [val])%list
        | Some _ => values
        end
    | Err _ => values
    end.
Proof.
  pose proof (primElement_errs f errs values index element) as Herrs.
  unfold View.primElement, elementFailure in *.
  destruct (View.typedJson _ _) as [val|e]; simpl in *; [|done].
  by rewrite Herrs.
Qed.

Lemma forEach_cons {St} (body : St → nat → json → St) index st element rest :
  View.forEach body index st (element :: rest)
  = View.forEach body (S index) (body st index element) rest.
Proof. done. Qed.

(** The loop leaves alone every key that is the key of none of its
    elements. *)
Lemma forEach_errs_other (f : View.ViewField) (elems : list json) k :
  ∀ index errs values,
    (∀ j, (j < length elems)%nat → k ≠ View.elemKey f (index + j)) →
    (View.forEach (View.primElement f) index (errs, values) elems).1 !! k
    = errs !! k.
Proof.
  induction elems as [|element elems IH]; intros index errs values Hk; [done|].
  rewrite forEach_cons.
  destruct (View.primElement f (errs, values) index element)
    as [errs1 values1] eqn:Hstep.
  rewrite IH.
  - pose proof (primElement_errs f errs values index element) as Herrs.
    rewrite Hstep in Herrs. simpl in Herrs. subst errs1.
    destruct (elementFailure f element); simpl; [|done].
    apply lookup_insert_ne. intros <-. apply (Hk 0%nat); simpl; [lia|].
    by rewrite Nat.add_0_r.
  - intros j Hj. replace (S index + j)%nat with (index + S j)%nat by lia.
    apply Hk. simpl. lia.
Qed.

(** Every element that fails is reported under its key. *)
Lemma forEach_errs_reported (f : View.ViewField) (elems : list json) :
  ∀ index errs values j element e,
    elems !! j = Some element → elementFailure f element = Some e →
    (View.forEach (View.primElement f) index (errs, values) elems).1
      !! View.elemKey f (index + j) = Some e.
Proof.
  induction elems as [|el elems IH];
    intros index errs values j element e Hj He; [done|].
  rewrite forEach_cons.
  destruct (View.primElement f (errs, values) index el)
    as [errs1 values1] eqn:Hstep.
  destruct j as [|j]; simpl in Hj.
  - injection Hj as ->. rewrite forEach_errs_other.
    + pose proof (primElement_errs f errs values index element) as Herrs.
      rewrite Hstep, He in Herrs. simpl in Herrs. subst errs1.
      rewrite Nat.add_0_r. apply lookup_insert_eq.
    + intros j _ Heq%elemKey_inj. lia.
  - replace (index + S j)%nat with (S index + j)%nat by lia. by eapply IH.
Qed.

(** Every entry written by the loop reports an element that fails. *)
Lemma forEach_errs_origin (f : View.ViewField) (elems : list json) :
  ∀ index errs values k e,
    (View.forEach (View.primElement f) index (errs, values) elems).1 !! k
    = Some e →
    errs !! k = Some e
    ∨ ∃ j element, k = View.elemKey f (index + j)
                   ∧ elems !! j = Some element
                   ∧ elementFailure f element = Some e.
Proof.
  induction elems as [|el elems IH]; intros index errs values k e; [by left|].
  rewrite forEach_cons.
  destruct (View.primElement f (errs, values) index el)
    as [errs1 values1] eqn:Hstep.
  intros [Hk|(j & element & -> & Hj & He)]%IH.
  - pose proof (primElement_errs f errs values index el) as Herrs.
    rewrite Hstep in Herrs. simpl in Herrs. subst errs1.
    destruct (elementFailure f el) as [e'|] eqn:He'; simpl in Hk; [|by left].
    destruct (decide (View.elemKey f index = k)) as [<-|Hne].
    + rewrite lookup_insert_eq in Hk. injection Hk as ->.
      right. exists 0%nat, el. by rewrite Nat.add_0_r.
    + rewrite lookup_insert_ne in Hk by done. by left.
  - right. exists (S j), element. split_and!; [f_equal; lia|done..].
Qed.

Lemma err_empty : View.err ∅ = None.
Proof. unfold View.err. by rewrite decide_True. Qed.

Lemma err_non_empty (errors : gmap string error) :
  errors ≠ ∅ → View.err errors = Some (validationError errors).
Proof. intros H. unfold View.err. by rewrite decide_False. Qed.

(** When no element fails, every value is collected, in order. *)
Lemma forEach_values (f : View.ViewField) (elems : list json) :
  Forall (λ element, elementFailure f element = None) elems →
  ∀ index values, ∃ vals,
    View.forEach (View.primElement f) index (∅, values) elems
    = (∅, (values ++ vals)%list)
    ∧ Forall2 (λ element val,
                 View.typedJson (View.fieldType f) element = Ok val)
              elems vals.
Proof.
  induction 1 as [|element elems Hel _ IH]; intros index values.
  - exists []. by rewrite app_nil_r.
  - rewrite forEach_cons.
    pose proof (primElement_errs f ∅ values index element) as Herrs.
    pose proof (primElement_values f ∅ values index element) as Hvals.
    destruct (View.primElement f (∅, values) index element)
      as [errs1 values1] eqn:Hstep.
    rewrite Hel in Herrs, Hvals. unfold elementFailure in Hel.
    destruct (View.typedJson (View.fieldType f) element) as [val|] eqn:Hval;
      [|done].
    simpl in Herrs, Hvals. rewrite err_empty in Hvals. subst errs1 values1.
    destruct (IH (S index) (values ++ [val])%list) as (vals & -> & Hall).
    exists (val :: vals). rewrite <-app_assoc. split; [done|].
    by constructor.
Qed.

(** The array branch of [validate] on a field of primitives. *)
Lemma validate_array (range : rangeOrder) (f : View.ViewField)
    (elems : list json) :
  View.array f = true → View.embedded f = None →
  View.validate range f (JArray elems)
  = Ret (match View.err
                 (View.forEach (View.primElement f) 0 (∅, []) elems).1 with
         | Some e => Err e
         | None =>
             Ok (Slice (goTypeOf (View.fieldType f))
                   (View.forEach (View.primElement f) 0 (∅, []) elems).2)
         end).
Proof.
  destruct f as [qn sc req arr obj emb T vs]. simpl. intros -> ->.
  unfold View.IsObject, View.IsArray, View.embeddedObject. simpl.
  by rewrite andb_false_r.
Qed.

(** C2. An array field of primitives, on a JSON array.  Every element is
    coerced and validated on its own.  When no element fails the result is
    the slice of the coerced values, in the order of the elements.  When
    some element fails the result is an aggregate whose entries are, for
    every failing index [j], the failure of that element under the key
    [name[j]], and no other entry; two indices never share a key.  In
    particular an array of three elements that fails at the indices 0 and 2
    yields the two entries [name[0]] and [name[2]]. *)
Theorem array_reports_every_element (range : rangeOrder)
    (f : View.ViewField) (elems : list json) :
  View.array f = true → View.embedded f = None →
  (Forall (λ element, elementFailure f element = None) elems →
     ∃ vals,
       View.validate range f (JArray elems)
       = Ret (Ok (Slice (goTypeOf (View.fieldType f)) vals))
       ∧ Forall2 (λ element val,
                    View.typedJson (View.fieldType f) element = Ok val)
                 elems vals)
  ∧ (Exists (λ element, is_Some (elementFailure f element)) elems →
     ∃ errors,
       View.validate range f (JArray elems) = Ret (Err (validationError errors))
       ∧ (∀ j e,
            errors !! View.elemKey f j = Some e
            ↔ ∃ element, elems !! j = Some element
                         ∧ elementFailure f element = Some e)
       ∧ (∀ k, is_Some (errors !! k) →
            ∃ j, k = View.elemKey f j ∧ (j < length elems)%nat))
  ∧ (∀ i j, View.elemKey f i = View.elemKey f j → i = j)
  ∧ (∀ e0 e1 e2 x0 x2,
       elems = [e0; e1; e2] →
       elementFailure f e0 = Some x0 →
       elementFailure f e1 = None →
       elementFailure f e2 = Some x2 →
       View.validate range f (JArray elems)
       = Ret (Err (validationError
                     {[ View.elemKey f 0 := x0; View.elemKey f 2 := x2 ]}))).
Proof.
  intros Harr Hemb. rewrite validate_array by done. split_and!.
  - intros Hall. destruct (forEach_values f elems Hall 0%nat [])
      as (vals & -> & Hvals).
    exists vals. simpl. by rewrite err_empty.
  - intros Hex. apply Exists_exists in Hex as (element & Hin & [e He]).
    apply list_elem_of_lookup in Hin as [j Hj].
    pose proof (forEach_errs_reported f elems 0%nat ∅ [] j element e Hj He)
      as Hrep. simpl in Hrep.
    set (errors := (View.forEach (View.primElement f) 0 (∅, []) elems).1)
      in *.
    exists errors. rewrite err_non_empty.
    2:{ intros Hempty. by rewrite Hempty in Hrep. }
    split_and!; [done|..].
    + intros j' e'. split.
      * intros [Hk|(j'' & el & Heq & Hel & Hfail)]%forEach_errs_origin;
          [done|].
        apply elemKey_inj in Heq. simpl in Heq. subst j''. eauto.
      * intros (el & Hel & Hfail).
        apply (forEach_errs_reported f elems 0%nat ∅ [] j' el e' Hel Hfail).
    + intros k [e' [Hk|(j' & el & -> & Hel & _)]%forEach_errs_origin];
        [done|].
      exists j'. split; [done|]. by eapply lookup_lt_Some.
  - apply elemKey_inj.
  - intros e0 e1 e2 x0 x2 -> H0 H1 H2.
    assert ((View.forEach (View.primElement f) 0 (∅, []) [e0; e1; e2]).1
            = {[ View.elemKey f 0 := x0; View.elemKey f 2 := x2 ]}) as ->.
    { rewrite forEach_cons.
      destruct (View.primElement f (∅, []) 0 e0) as [errs0 v0] eqn:Hs0.
      pose proof (primElement_errs f ∅ [] 0%nat e0) as Hp0.
      rewrite Hs0, H0 in Hp0. simpl in Hp0. subst errs0.
      rewrite forEach_cons.
      destruct (View.primElement f _ 1 e1) as [errs1 v1] eqn:Hs1.
      pose proof (primElement_errs f (<[View.elemKey f 0 := x0]> ∅) v0 1%nat e1)
        as Hp1.
      rewrite Hs1, H1 in Hp1. simpl in Hp1. subst errs1.
      rewrite forEach_cons.
      destruct (View.primElement f _ 2 e2) as [errs2 v2] eqn:Hs2.
      pose proof (primElement_errs f (<[View.elemKey f 0 := x0]> ∅) v1 2%nat e2)
        as Hp2.
      rewrite Hs2, H2 in Hp2. simpl in Hp2. subst errs2. simpl.
      apply insert_insert_ne. intros Heq%elemKey_inj. lia. }
    rewrite err_non_empty; [done|]. apply insert_non_empty.
Qed.

Lemma array_reports_every_element_witness :
  View.validate keyOrder (View.ArrayField TString "tags" [MinLength 2])
    (JArray [JString "a"; JString "bb"; JNumber "3"])
  = Ret (Err (validationError
                {[ "tags[0]" := wrapError "" ErrLengthMin " 2 ";
                   "tags[2]" := View.mismatchError TString (JNumber "3") ]})).
Proof.
  pose proof (array_reports_every_element keyOrder
                (View.ArrayField TString "tags" [MinLength 2])
                [JString "a"; JString "bb"; JNumber "3"] eq_refl eq_refl)
    as (_ & _ & _ & H).
  apply (H _ _ _ _ _ eq_refl eq_refl eq_refl eq_refl).
Defined.

(** ** The two functions of validation, unfolded *)

Lemma Validate_unfold (range : rangeOrder) (s : View.Schema)
    (json : document) (urlParams : list (gmap string string)) :
  View.Validate range s json urlParams
  = match json with
    | Malformed text => Ret (Err (errorString ("invalid json " +:+ text)))
    | _ =>
        let st0 := View.structuralPhase range s json urlParams in
        match View.err st0.1 with
        | Some e => Ret (Err e)
        | None =>
            st ←! foldlM (View.fieldStep range json st0.2) (∅, st0.1)
                    (View.fields s);
            Ret (match View.err st.2 with
                 | Some e => Err e
                 | None =>
                     Ok (if View.allowUnknownFields s
                         then View.addUrlParams range st.1 st0.2
                         else st.1)
                 end)
        end
    end.
Proof.
  destruct s as [fs allow].
  destruct json; simpl; try done;
    by destruct (View.structuralPhase _ _ _ _).
Qed.

Lemma validate_unfold (range : rangeOrder) (f : View.ViewField) (node : json) :
  View.validate range f node
  = if View.IsObject f && negb (View.IsArray f) then
      match View.embeddedObject f with
      | None => Panic NoSuchElement
      | Some nested =>
          nestedResult ←! View.Validate range nested (Doc node) [];
          Ret (match nestedResult with
               | Err e =>
                   Err (wrapError
                          ("field '" +:+ View.Name f +:+ "' validation failed, ")
                          e "")
               | Ok vo => Ok (VO vo)
               end)
      end
    else if View.IsArray f then
      match node with
      | JArray elems =>
          match View.embeddedObject f with
          | Some nested =>
              st ←! View.forEachM (View.objectElement range f nested)
                      0%nat (∅, []) elems;
              Ret (match View.err st.1 with
                   | Some e => Err e
                   | None => Ok (Slice GoViewValueObject st.2)
                   end)
          | None =>
              let st := View.forEach (View.primElement f) 0%nat (∅, []) elems in
              Ret (match View.err st.1 with
                   | Some e => Err e
                   | None => Ok (Slice (goTypeOf (View.fieldType f)) st.2)
                   end)
          end
      | _ => Ret (Err (View.notArrayError f))
      end
    else
      Ret (match View.typedJson (View.fieldType f) node with
           | Err e => Err (View.fieldError f e)
           | Ok val =>
               match View.firstError (View.validators f) val with
               | Some e => Err (View.fieldError f e)
               | None => Ok val
               end
           end).
Proof. by destruct f. Qed.

(** Induction on a schema and its fields together, down the embedded
    schemas. *)
Lemma Schema_ViewField_ind (P : View.Schema → Prop) (Q : View.ViewField → Prop) :
  (∀ fs allow, Forall Q fs → P (View.mkSchema fs allow)) →
  (∀ qn sc req arr obj emb T vs,
     from_option P True emb → Q (View.JSONField qn sc req arr obj emb T vs)) →
  (∀ s, P s) ∧ (∀ f, Q f).
Proof.
  intros HS HF.
  assert (HP : ∀ s, P s).
  { fix IHs 1. intros [fs allow]. apply HS.
    induction fs as [|f fs IHfs]; constructor; [|exact IHfs].
    destruct f as [qn sc req arr obj emb T vs]. apply HF.
    destruct emb as [s|]; simpl; [apply IHs|exact I]. }
  split; [exact HP|].
  intros [qn sc req arr obj emb T vs]. apply HF.
  destruct emb as [s|]; simpl; [apply HP|exact I].
Qed.

(** ** The loops over maps, in closed form *)

Lemma range_list_to_map (range : rangeOrder) {V} (m : gmap string V) :
  rangeOrder_valid range → list_to_map (range V m) = m.
Proof.
  intros Hr. rewrite <-(list_to_map_to_list m) at 2.
  apply list_to_map_proper; [by apply range_NoDup|apply Hr].
Qed.

Lemma foldl_insert_union {V} (l : list (string * V)) :
  NoDup l.*1 →
  ∀ m : gmap string V,
    foldl (λ m kv, <[kv.1 := kv.2]> m) m l = list_to_map l ∪ m.
Proof.
  induction l as [|[k v] l IH]; intros Hnd m; simpl.
  - by rewrite (left_id ∅ (∪)).
  - inversion_clear Hnd as [|?? Hk Hnd']. rewrite IH by done.
    rewrite <-insert_union_l. symmetry. apply insert_union_r.
    by apply not_elem_of_list_to_map_1.
Qed.

(** Merging the entries of a nested aggregate: the union of the two maps,
    where an entry of the nested aggregate replaces one of the same key. *)
Lemma mergeNested_union (range : rangeOrder) (errs nested : gmap string error) :
  rangeOrder_valid range → View.mergeNested range errs nested = nested ∪ errs.
Proof.
  intros Hr. unfold View.mergeNested, View.add.
  rewrite (foldl_insert_union (range error nested)) by (by apply range_NoDup).
  by rewrite range_list_to_map.
Qed.

(** Adding the URL parameters to the object: the union of the two maps,
    where the object keeps what it holds. *)
Lemma addUrlParams_union (range : rangeOrder) (object : gmap string any)
    (urlPair : gmap string string) :
  rangeOrder_valid range →
  View.addUrlParams range object urlPair = object ∪ (Str <$> urlPair).
Proof.
  intros Hr. unfold View.addUrlParams.
  rewrite <-(range_list_to_map range urlPair Hr) at 2.
  rewrite <-list_to_map_fmap.
  generalize (range string urlPair) as l. intros l. revert object.
  induction l as [|[k v] l IH]; intros object; simpl.
  - by rewrite (right_id ∅ (∪)).
  - rewrite IH.
    rewrite (insert_union_singleton_l (list_to_map _)), (assoc_L (∪)).
    f_equal. destruct (object !! k) as [w|] eqn:Hk.
    + apply map_eq. intros i. rewrite lookup_union.
      destruct (decide (i = k)) as [->|Hne].
      * by rewrite Hk, lookup_singleton_eq.
      * rewrite lookup_singleton_ne by done. by destruct (object !! i).
    + rewrite insert_union_singleton_l. apply map_union_comm.
      by apply map_disjoint_singleton_l.
Qed.

(** The only entry of a one-entry aggregate. *)
Lemma map_size_1 {V} (m : gmap string V) :
  size m = 1%nat → ∃ k v, m = {[ k := v ]}.
Proof.
  intros Hsize. rewrite <-length_map_to_list in Hsize.
  destruct (map_to_list m) as [|[k v] [|??]] eqn:Hl; simplify_eq/=.
  exists k, v. by rewrite <-(list_to_map_to_list m), Hl.
Qed.

Lemma elementError_single (range : rangeOrder) (k : string) (e : error) :
  rangeOrder_valid range →
  View.elementError range (validationError {[ k := e ]}) = e.
Proof.
  intros Hr. unfold View.elementError. simpl.
  rewrite decide_True by apply map_size_singleton.
  pose proof (Hr error {[ k := e ]}) as Hperm.
  rewrite map_to_list_singleton in Hperm.
  apply Permutation_singleton_r in Hperm. by rewrite Hperm.
Qed.

Lemma elementError_range (range1 range2 : rangeOrder) (e : error) :
  rangeOrder_valid range1 → rangeOrder_valid range2 →
  View.elementError range1 e = View.elementError range2 e.
Proof.
  intros H1 H2. unfold View.elementError.
  destruct (errors_As e) as [nested|] eqn:He; [|done].
  case_decide as Hsize; [|done].
  destruct (map_size_1 _ Hsize) as (k & v & ->).
  pose proof (H1 error {[ k := v ]}) as Hp1.
  pose proof (H2 error {[ k := v ]}) as Hp2.
  rewrite map_to_list_singleton in Hp1, Hp2.
  apply Permutation_singleton_r in Hp1, Hp2. by rewrite Hp1, Hp2.
Qed.

(** The steps of the loop over one map of URL parameters commute. *)
Lemma urlParam_comm (s : View.Schema) (voFields : gmap string bool)
    (st : gmap string error * gmap string string) k1 v1 k2 v2 :
  k1 ≠ k2 →
  View.urlParam s voFields (View.urlParam s voFields st (k1, v1)) (k2, v2)
  = View.urlParam s voFields (View.urlParam s voFields st (k2, v2)) (k1, v1).
Proof.
  intros Hne. destruct st as [errs urlPair]. unfold View.urlParam, View.add.
  rewrite !lookup_insert_ne by done.
  f_equal; [|by apply insert_insert_ne].
  apply map_eq. intros i.
  destruct (urlPair !! k1), (urlPair !! k2), (View.allowUnknownFields s),
    (voFields !! k1) as [[]|], (voFields !! k2) as [[]|];
    rewrite ?lookup_insert; repeat case_decide; congruence.
Qed.

Lemma mergeUrlParams_range (range1 range2 : rangeOrder) (s : View.Schema)
    (voFields : gmap string bool) (urlParams : list (gmap string string)) :
  rangeOrder_valid range1 → rangeOrder_valid range2 →
  View.mergeUrlParams range1 s voFields urlParams
  = View.mergeUrlParams range2 s voFields urlParams.
Proof.
  intros H1 H2. unfold View.mergeUrlParams.
  generalize (∅ : gmap string error, ∅ : gmap string string) as st.
  induction urlParams as [|pair urlParams IH]; intros st; simpl; [done|].
  rewrite IH. f_equal. apply range_foldl; [done..|].
  intros. by apply urlParam_comm.
Qed.

Lemma structuralPhase_range (range1 range2 : rangeOrder) (s : View.Schema)
    (json : document) (urlParams : list (gmap string string)) :
  rangeOrder_valid range1 → rangeOrder_valid range2 →
  View.structuralPhase range1 s json urlParams
  = View.structuralPhase range2 s json urlParams.
Proof.
  intros H1 H2. unfold View.structuralPhase.
  by rewrite (mergeUrlParams_range range1 range2).
Qed.

(** One step of [setNestedField] down a dotted key. *)
Lemma setNestedParts_step (range : rangeOrder) (cur : gmap string any)
    (p q : string) (rest : list string) (val : any) :
  View.setNestedParts range cur (p :: q :: rest) val
  = match cur !! p with
    | Some (DataV m) =>
        m' ←! View.setNestedParts range m (q :: rest) val;
        Ret (<[p := DataV m']> cur)
    | Some (VO vo) =>
        inner ←! View.fieldsToData range vo;
        m' ←! View.setNestedParts range inner (q :: rest) val;
        Ret (<[p := DataV m']> cur)
    | _ =>
        m' ←! View.setNestedParts range ∅ (q :: rest) val;
        Ret (<[p := DataV m']> cur)
    end.
Proof. done. Qed.

(** ** Validation does not depend on the order of the ranges *)

Section RangeIrrelevant.
Variables range1 range2 : rangeOrder.
Hypothesis valid1 : rangeOrder_valid range1.
Hypothesis valid2 : rangeOrder_valid range2.

Lemma Fields_range (vo : gmap string any) :
  Internal.Fields range1 vo = Internal.Fields range2 vo.
Proof. by apply sort_Strings_range. Qed.

Lemma fieldsToData_range (vo : gmap string any) :
  View.fieldsToData range1 vo = View.fieldsToData range2 vo.
Proof. unfold View.fieldsToData. by rewrite Fields_range. Qed.

Lemma setNestedParts_range (parts : list string) (val : any) :
  ∀ cur, View.setNestedParts range1 cur parts val
         = View.setNestedParts range2 cur parts val.
Proof.
  induction parts as [|p [|q rest] IH]; intros cur; [done..|].
  rewrite !setNestedParts_step.
  destruct (cur !! p) as [[]|]; rewrite ?fieldsToData_range, ?IH; try done.
  destruct (View.fieldsToData range2 d); [|done].
  rewrite !obind_Ret. cbv beta. by rewrite IH.
Qed.

Lemma storeResult_range (field : View.ViewField)
    (st : gmap string any * gmap string error) (rs : Result error any) :
  View.storeResult range1 field st rs = View.storeResult range2 field st rs.
Proof.
  unfold View.storeResult, View.setNestedField. destruct st as [object errs].
  destruct rs as [val|e].
  - by rewrite setNestedParts_range.
  - destruct (errors_As e); [|done]. by rewrite !mergeNested_union.
Qed.

Lemma foldlM_ext {A St} (step1 step2 : St → A → outcome St) (l : list A) :
  Forall (λ x, ∀ st, step1 st x = step2 st x) l →
  ∀ st, foldlM step1 st l = foldlM step2 st l.
Proof.
  induction 1 as [|x l Hx _ IH]; intros st; simpl; [done|].
  rewrite Hx. destruct (step2 st x); simpl; auto.
Qed.

Lemma forEachM_ext {St} (body1 body2 : St → nat → json → outcome St)
    (elems : list json) :
  (∀ st index element, body1 st index element = body2 st index element) →
  ∀ index st,
    View.forEachM body1 index st elems = View.forEachM body2 index st elems.
Proof.
  intros Hext. induction elems as [|element elems IH]; intros index st; [done|].
  simpl. rewrite Hext. destruct (body2 st index element); simpl; auto.
Qed.

Lemma fieldStep_range (json : document) (urlPair : gmap string string)
    (f : View.ViewField) :
  (∀ node, View.validate range1 f node = View.validate range2 f node) →
  ∀ st, View.fieldStep range1 json urlPair st f
        = View.fieldStep range2 json urlPair st f.
Proof.
  intros Hf st. unfold View.fieldStep.
  destruct (Gjson.Get json (View.Name f)) as [node|].
  - rewrite Hf. destruct (View.validate range2 f node) as [rs|]; [|done].
    rewrite !obind_Ret. apply storeResult_range.
  - destruct (urlPair !! View.Name f); [|done]. apply storeResult_range.
Qed.

Lemma objectElement_range (f : View.ViewField) (nested : View.Schema) :
  (∀ json urlParams,
     View.Validate range1 nested json urlParams
     = View.Validate range2 nested json urlParams) →
  ∀ st index element,
    View.objectElement range1 f nested st index element
    = View.objectElement range2 f nested st index element.
Proof.
  intros Hnested st index element. unfold View.objectElement.
  destruct (negb _); [done|]. rewrite Hnested.
  destruct (View.Validate range2 nested _ _) as [[vo|e]|]; try done.
  rewrite !obind_Ret. by rewrite (elementError_range range1 range2).
Qed.

(** Validation gives the same result in whatever order the maps are ranged
    over: the same value, the same error with the same entries, or the same
    panic. *)
Lemma Validate_validate_range :
  (∀ s json urlParams,
     View.Validate range1 s json urlParams
     = View.Validate range2 s json urlParams)
  ∧ (∀ f node, View.validate range1 f node = View.validate range2 f node).
Proof.
  apply Schema_ViewField_ind.
  - intros fs allow Hfs json urlParams. rewrite !Validate_unfold.
    rewrite (structuralPhase_range range1 range2) by done.
    set (st0 := View.structuralPhase range2 _ json urlParams).
    assert (∀ st, foldlM (View.fieldStep range1 json st0.2) st fs
                  = foldlM (View.fieldStep range2 json st0.2) st fs) as Hloop.
    { apply foldlM_ext. eapply Forall_impl; [exact Hfs|].
      intros f Hf st. by apply fieldStep_range. }
    destruct json as [|text|j]; [|done|]; cbv zeta;
      (destruct (View.err st0.1); [done|]);
      rewrite Hloop;
      (destruct (foldlM _ _ _) as [st|]; [|done]);
      rewrite !obind_Ret; cbv beta;
      by rewrite !addUrlParams_union.
  - intros qn sc req arr obj emb T vs Hemb node. rewrite !validate_unfold.
    destruct (_ && _).
    + destruct emb as [nested|]; simpl in *; [|done]. by rewrite Hemb.
    + destruct (View.IsArray _); [|done].
      destruct node; try done.
      destruct emb as [nested|]; simpl in *; [|done].
      erewrite forEachM_ext; [done|]. by apply objectElement_range.
Qed.

End RangeIrrelevant.

Lemma reverseOrder_valid : rangeOrder_valid reverseOrder.
Proof. intros V m. apply reverse_Permutation. Qed.

(** Validation, run in the order of the keys. *)
Lemma Validate_keyOrder (range : rangeOrder) (s : View.Schema)
    (json : document) (urlParams : list (gmap string string)) :
  rangeOrder_valid range →
  View.Validate range s json urlParams
  = View.Validate keyOrder s json urlParams.
Proof.
  intros Hr.
  apply (Validate_validate_range range keyOrder Hr keyOrder_valid).
Qed.

(** C9. Two calls of [Validate] on one schema with the same document and
    the same URL parameters give the same result (the same object, or the
    same error with the same entries), in whatever order each call ranges
    over its maps; and a call leaves the schema as it was, with its fields
    and its flag. *)
Theorem Validate_deterministic (range1 range2 : rangeOrder)
    (s : View.Schema) (json : document)
    (urlParams : list (gmap string string)) :
  rangeOrder_valid range1 → rangeOrder_valid range2 →
  let call1 := View.Validate_call range1 json urlParams s in
  let call2 := View.Validate_call range2 json urlParams call1.2 in
  call1.1 = call2.1
  ∧ call1.2 = s
  ∧ call2.2 = s
  ∧ View.fields call2.2 = View.fields s
  ∧ View.allowUnknownFields call2.2 = View.allowUnknownFields s.
Proof.
  intros H1 H2. unfold View.Validate_call. simpl. split_and!; [|done..].
  apply (Validate_validate_range range1 range2 H1 H2).
Qed.

Lemma Validate_deterministic_witness :
  let s := View.WithFields [View.Field TString "id" [MinLength 2]] in
  let json := Doc (JObject [("id", JString "1")]) in
  let urlParams : list (gmap string string) :=
    [ {[ "extra" := "x"; "more" := "y" ]} ] in
  let call1 := View.Validate_call keyOrder json urlParams s in
  let call2 := View.Validate_call reverseOrder json urlParams call1.2 in
  call1.1 = call2.1
  ∧ call1.2 = s
  ∧ call2.2 = s
  ∧ View.fields call2.2 = View.fields s
  ∧ View.allowUnknownFields call2.2 = View.allowUnknownFields s.
Proof.
  apply (Validate_deterministic keyOrder reverseOrder).
  - apply keyOrder_valid.
  - apply reverseOrder_valid.
Defined.

(** ** Unknown fields *)

(** C5, as the code has it.  A schema that declares the field [id] alone
    refuses the document with the members [id] and [extra]: the error has
    the one entry [unknown json field 'extra'].  In permissive mode the same
    document validates, and the result holds [id] only: [Get] on [extra] is
    empty.  What a permissive schema copies into the result are the URL
    parameters that no field left a value for, not the members of the
    document: with [extra] passed as a URL parameter, [Get] on [extra]
    returns its value. *)
Theorem unknown_fields_scenario (range : rangeOrder) :
  rangeOrder_valid range →
  let schema := View.WithFields [View.Field TString "id" []] in
  let permissive := View.AllowUnknownFields schema in
  let json := Doc (JObject [("id", JString "1"); ("extra", JString "x")]) in
  View.Validate range schema json []
  = Ret (Err (validationError
                {[ "extra" := errorString "unknown json field 'extra'" ]}))
  ∧ View.Validate range permissive json [] = Ret (Ok {[ "id" := Str "1" ]})
  ∧ Internal.Get Internal.AnyType {[ "id" := Str "1" ]} "extra" = Ret None
  ∧ View.Validate range permissive (Doc (JObject [("id", JString "1")]))
      [ {[ "extra" := "x" ]} ]
    = Ret (Ok {[ "id" := Str "1"; "extra" := Str "x" ]})
  ∧ Internal.Get Internal.AnyType {[ "id" := Str "1"; "extra" := Str "x" ]}
      "extra" = Ret (Some (Str "x"))
  ∧ (∀ (object : gmap string any) (urlPair : gmap string string),
       View.addUrlParams range object urlPair = object ∪ (Str <$> urlPair)).
Proof.
  intros Hr. cbv zeta. rewrite !(Validate_keyOrder range) by done.
  split_and!; try (vm_compute; reflexivity).
  intros object urlPair. by apply addUrlParams_union.
Qed.

Lemma unknown_fields_scenario_witness :
  View.Validate reverseOrder
    (View.AllowUnknownFields (View.WithFields [View.Field TString "id" []]))
    (Doc (JObject [("id", JString "1"); ("extra", JString "x")])) []
  = Ret (Ok {[ "id" := Str "1" ]}).
Proof.
  apply (unknown_fields_scenario reverseOrder reverseOrder_valid).
Defined.

(** In permissive mode the member [extra] of the document is not in the
    result. *)
Lemma permissive_drops_json_member :
  View.Validate keyOrder
    (View.AllowUnknownFields (View.WithFields [View.Field TString "id" []]))
    (Doc (JObject [("id", JString "1"); ("extra", JString "x")])) []
  = Ret (Ok {[ "id" := Str "1" ]})
  ∧ Internal.Get Internal.AnyType {[ "id" := Str "1" ]} "extra" = Ret None.
Proof. split; vm_compute; reflexivity. Qed.

(** ** Nested failures *)

Arguments View.storeResult : simpl never.

(** A field that is neither an array nor an object. *)
Lemma validate_scalar (range : rangeOrder) (f : View.ViewField) (node : json) :
  View.array f = false → View.object f = false →
  View.validate range f node
  = Ret (match View.typedJson (View.fieldType f) node with
         | Err e => Err (View.fieldError f e)
         | Ok val =>
             match View.firstError (View.validators f) val with
             | Some e => Err (View.fieldError f e)
             | None => Ok val
             end
         end).
Proof.
  intros Harr Hobj. rewrite validate_unfold.
  unfold View.IsObject, View.IsArray. by rewrite Harr, Hobj.
Qed.

(** An embedded object whose validation fails: the error of the nested
    schema, wrapped with the name of the field. *)
Lemma validate_object_error (range : rangeOrder) (f : View.ViewField)
    (nested : View.Schema) (node : json) (e : error) :
  View.object f = true → View.array f = false →
  View.embedded f = Some nested →
  View.Validate range nested (Doc node) [] = Ret (Err e) →
  View.validate range f node
  = Ret (Err (wrapError
                ("field '" +:+ View.Name f +:+ "' validation failed, ") e "")).
Proof.
  intros Hobj Harr Hemb Hnested. rewrite validate_unfold.
  unfold View.IsObject, View.IsArray, View.embeddedObject.
  by rewrite Hobj, Harr, Hemb, Hnested.
Qed.

(** A schema of one field, on a document that holds the field and nothing
    else, with no URL parameter: the result of the field is the result of
    the schema. *)
Lemma Validate_single_field (range : rangeOrder) (f : View.ViewField)
    (node : json) (rs : Result error any) :
  rangeOrder_valid range →
  View.validate range f node = Ret rs →
  View.Validate range (View.WithFields [f])
    (Doc (JObject [(View.Name f, node)])) []
  = st ←! View.storeResult range f (∅, ∅) rs;
    Ret (match View.err st.2 with
         | Some e => Err e
         | None => Ok st.1
         end).
Proof.
  intros Hr Hrs. rewrite Validate_unfold. cbv zeta.
  assert (View.structuralPhase range (View.WithFields [f])
            (Doc (JObject [(View.Name f, node)])) [] = (∅, ∅)) as ->.
  { unfold View.structuralPhase, View.mergeUrlParams, View.voFieldsOf.
    simpl. unfold View.jsonKey. simpl.
    rewrite lookup_empty, lookup_insert_eq. done. }
  simpl. rewrite err_empty. unfold View.fieldStep. simpl.
  rewrite decide_True by done. rewrite Hrs, obind_Ret.
  by destruct (View.storeResult range f (∅, ∅) rs).
Qed.

Lemma storeResult_Err (range : rangeOrder) (field : View.ViewField)
    (object : gmap string any) (errs : gmap string error) (e : error) :
  rangeOrder_valid range →
  View.storeResult range field (object, errs) (Err e)
  = Ret (object,
         match errors_As e with
         | Some nested => nested ∪ errs
         | None => <[View.Name field := e]> errs
         end).
Proof.
  intros Hr. unfold View.storeResult.
  destruct (errors_As e); [|done]. by rewrite mergeNested_union.
Qed.

(** Scenario E: the field [user] is an object that holds the field
    [email]; the value of [email] is refused by a validator. *)
Lemma scenario_E (range : rangeOrder) (vfs : list ValidateFunc) (e : error) :
  rangeOrder_valid range →
  View.firstError vfs.*2 (Str "bad") = Some e →
  errors_As e = None →
  View.Validate range
    (View.WithFields
       [View.ObjectField "user"
          (View.WithFields [View.Field TString "email" vfs])])
    (Doc (JObject [("user", JObject [("email", JString "bad")])])) []
  = Ret (Err (validationError
                {[ "email" := wrapError "field 'email': " e "" ]})).
Proof.
  intros Hr He Has.
  set (email := View.Field TString "email" vfs).
  set (user := View.ObjectField "user" (View.WithFields [email])).
  assert (View.Validate range (View.WithFields [email])
            (Doc (JObject [("email", JString "bad")])) []
          = Ret (Err (validationError
                        {[ "email" := wrapError "field 'email': " e "" ]})))
    as Hinner.
  { change "email" with (View.Name email) at 1.
    rewrite (Validate_single_field range email (JString "bad")
               (Err (View.fieldError email e))); [|done|].
    - rewrite storeResult_Err by done. simpl. rewrite Has.
      rewrite ?obind_Ret. simpl. rewrite err_non_empty; [done|].
      apply insert_non_empty.
    - rewrite validate_scalar by done. simpl.
      change (vfs.*2) with (fmap snd vfs) in He. by rewrite He. }
  change "user" with (View.Name user) at 1.
  erewrite (Validate_single_field range user); [|done|].
  2:{ by apply (validate_object_error range user (View.WithFields [email])). }
  rewrite storeResult_Err by done. simpl.
  rewrite (right_id ∅ (∪)), ?obind_Ret. simpl.
  rewrite err_non_empty; [done|]. apply insert_non_empty.
Qed.

(** C6, as the code has it.  A failure of an element of an array of
    objects is written under the key of the element: the inner error when
    the failure is an aggregate of one entry, and otherwise the failure as
    it is, the aggregate kept whole under that one key.  A failure of an
    embedded object is the nested error wrapped with the name of the field,
    and the loop over the fields merges the entries of the aggregate it
    finds in an error under their own keys, be there one entry or more.
    Hence scenario E yields one entry, which holds the error of the field
    [email] and no wrapper around it. *)
Theorem nested_failure_merging (range : rangeOrder) :
  rangeOrder_valid range →
  (∀ k e, View.elementError range (validationError {[ k := e ]}) = e)
  ∧ (∀ nested : gmap string error,
       size nested ≠ 1%nat →
       View.elementError range (validationError nested)
       = validationError nested)
  ∧ (∀ f nested errs values index element e,
       Gjson.IsObject element = true →
       View.Validate range nested (Doc element) [] = Ret (Err e) →
       View.objectElement range f nested (errs, values) index element
       = Ret (<[View.elemKey f index := View.elementError range e]> errs,
              values))
  ∧ (∀ f nested node e,
       View.object f = true → View.array f = false →
       View.embedded f = Some nested →
       View.Validate range nested (Doc node) [] = Ret (Err e) →
       View.validate range f node
       = Ret (Err (wrapError
                     ("field '" +:+ View.Name f +:+ "' validation failed, ")
                     e "")))
  ∧ (∀ field object errs pre post (nested : gmap string error),
       View.storeResult range field (object, errs)
         (Err (wrapError pre (validationError nested) post))
       = Ret (object, nested ∪ errs))
  ∧ (∀ (vfs : list ValidateFunc) (e : error),
       View.firstError vfs.*2 (Str "bad") = Some e →
       errors_As e = None →
       View.Validate range
         (View.WithFields
            [View.ObjectField "user"
               (View.WithFields [View.Field TString "email" vfs])])
         (Doc (JObject [("user", JObject [("email", JString "bad")])])) []
       = Ret (Err (validationError
                     {[ "email" := wrapError "field 'email': " e "" ]}))).
Proof.
  intros Hr. split_and!.
  - intros k e. by apply elementError_single.
  - intros nested Hsize. unfold View.elementError. simpl.
    by rewrite decide_False.
  - intros f nested errs values index element e Hobj Hnested.
    unfold View.objectElement. rewrite Hobj. simpl. by rewrite Hnested.
  - intros f nested node e. apply validate_object_error.
  - intros field object errs pre post nested.
    by rewrite storeResult_Err.
  - intros vfs e. by apply scenario_E.
Qed.

Lemma nested_failure_merging_witness :
  View.Validate reverseOrder
    (View.WithFields
       [View.ObjectField "user"
          (View.WithFields [View.Field TString "email" [MinLength 5]])])
    (Doc (JObject [("user", JObject [("email", JString "bad")])])) []
  = Ret (Err (validationError
                {[ "email" :=
                     wrapError "field 'email': "
                       (wrapError "" ErrLengthMin " 5 ") "" ]})).
Proof.
  pose proof (nested_failure_merging reverseOrder reverseOrder_valid)
    as (_ & _ & _ & _ & _ & H).
  apply (H [MinLength 5]); reflexivity.
Defined.

(** An element of an array of objects that fails on two fields: the
    aggregate of the element is one entry of the result, under the key of
    the element, and the result has no entry for its two fields. *)
Lemma array_element_aggregate_kept_whole :
  View.Validate keyOrder
    (View.WithFields
       [View.ArrayOfObjectField "items"
          (View.WithFields
             [View.Field (TInt Int) "id" []; View.Field TString "name" []])])
    (Doc (JObject [("items", JArray [JObject []])])) []
  = Ret (Err (validationError
                {[ "items[0]" :=
                     validationError
                       {[ "id" := wrapError "id " ErrRequired "";
                          "name" := wrapError "name " ErrRequired "" ]} ]})).
Proof. vm_compute. reflexivity. Qed.

(** ** Validation returns *)

Lemma wfSchema_fields (s : View.Schema) :
  wfSchema s ↔ Forall wfField (View.fields s).
Proof.
  destruct s as [fs allow]. simpl.
  induction fs as [|f fs IH]; simpl.
  - split; [constructor|done].
  - rewrite Forall_cons. by rewrite IH.
Qed.

Lemma typedJson_nonNil (T : FieldType) (res : json) (val : any) :
  View.typedJson T res = Ok val → nonNil val.
Proof.
  unfold View.typedJson. intros H.
  repeat (case_match; simplify_eq/=); constructor.
Qed.

Lemma ParseStringTo_nonNil (T : FieldType) (s : string) (val : any) :
  ParseStringTo T s = Ok val → nonNil val.
Proof.
  unfold ParseStringTo. intros H.
  repeat (case_match; simplify_eq/=); constructor.
Qed.

Lemma validateRaw_nonNil (f : View.ViewField) (v : string) (val : any) :
  View.validateRaw f v = Ok val → nonNil val.
Proof.
  unfold View.validateRaw, View.typedString. intros H.
  destruct (ParseStringTo _ _) as [val'|] eqn:Hp; [|done].
  destruct (View.firstError _ _); simplify_eq. by eapply ParseStringTo_nonNil.
Qed.

(** A loop whose steps return and keep an invariant returns, and keeps
    it. *)
Lemma foldlM_invariant {A St} (Inv : St → Prop) (step : St → A → outcome St)
    (l : list A) :
  Forall (λ x, ∀ st, Inv st → ∃ st', step st x = Ret st' ∧ Inv st') l →
  ∀ st, Inv st → ∃ st', foldlM step st l = Ret st' ∧ Inv st'.
Proof.
  induction 1 as [|x l Hx _ IH]; intros st Hst; simpl; [eauto|].
  destruct (Hx st Hst) as (st1 & -> & Hst1). simpl. by apply IH.
Qed.

Lemma forEachM_invariant {St} (Inv : St → Prop)
    (body : St → nat → json → outcome St) (elems : list json) :
  (∀ st index element, Inv st →
     ∃ st', body st index element = Ret st' ∧ Inv st') →
  ∀ index st, Inv st →
    ∃ st', View.forEachM body index st elems = Ret st' ∧ Inv st'.
Proof.
  intros Hbody. induction elems as [|element elems IH]; intros index st Hst;
    simpl; [eauto|].
  destruct (Hbody st index element Hst) as (st1 & -> & Hst1). simpl.
  by apply IH.
Qed.

Section Returns.
Variable range : rangeOrder.
Hypothesis valid : rangeOrder_valid range.

(** The copy of a stored object back to a plain map, field by field,
    returns the map when no field holds nil. *)
Lemma fieldsToData_returns (vo : gmap string any) :
  (∀ k v, vo !! k = Some v → nonNil v) →
  View.fieldsToData range vo = Ret vo.
Proof.
  intros Hvo. unfold View.fieldsToData.
  set (f := λ (inner : gmap string any) (k : string),
              match vo !! k with
              | Some v => <[k := v]> inner
              | None => inner
              end).
  rewrite (foldlM_Ret _ f).
  - f_equal. apply map_eq. intros i.
    assert (∀ keys inner, i ∉ keys → foldl f inner keys !! i = inner !! i)
      as Hout.
    { induction keys as [|k keys IH]; intros inner Hi; [done|].
      apply not_elem_of_cons in Hi as [Hne Hi]. simpl. rewrite IH by done.
      unfold f. destruct (vo !! k); [by rewrite lookup_insert_ne|done]. }
    assert (∀ keys inner, is_Some (vo !! i) → i ∈ keys →
              foldl f inner keys !! i = vo !! i) as Hin.
    { intros keys inner [v Hv].
      revert inner. induction keys as [|k keys IH]; intros inner Hi;
        [by apply elem_of_nil in Hi|].
      simpl. destruct (decide (i ∈ keys)) as [Hi'|Hi']; [by apply IH|].
      apply elem_of_cons in Hi as [->|Hi]; [|done].
      rewrite Hout by done. unfold f. by rewrite Hv, lookup_insert_eq. }
    destruct (decide (i ∈ Internal.Fields range vo)) as [Hi|Hi].
    + apply Hin; [|done]. by apply (sort_Strings_elem_of range vo i valid).
    + rewrite Hout by done. rewrite lookup_empty. symmetry.
      apply eq_None_not_Some. intros His.
      apply Hi. by apply sort_Strings_elem_of.
  - intros inner k Hk.
    apply (sort_Strings_elem_of range vo k valid) in Hk as [v Hv].
    rewrite (Get_literal _ _ _ _ Hv). unfold f. rewrite Hv.
    pose proof (Hvo _ _ Hv) as Hnn. by destruct Hnn.
Qed.

Lemma setObjectField_nonNil (object : gmap string any) (key : string)
    (val : any) :
  (∀ k v, object !! k = Some v → nonNil v) → nonNil val →
  ∀ k v, View.setObjectField object key val !! k = Some v → nonNil v.
Proof.
  intros Hobj Hval k v. unfold View.setObjectField.
  assert (∀ w, nonNil w → <[key := w]> object !! k = Some v → nonNil v)
    as Hins.
  { intros w Hw. rewrite lookup_insert. case_decide; [congruence|eauto]. }
  destruct Hval; try (apply Hins; by constructor).
Qed.

(** Storing under a dotted key returns, on an object that holds no nil. *)
Lemma setNestedParts_returns (parts : list string) (val : any) :
  nonNil val →
  ∀ cur, (∀ k v, cur !! k = Some v → nonNil v) →
    ∃ cur', View.setNestedParts range cur parts val = Ret cur'
            ∧ (∀ k v, cur' !! k = Some v → nonNil v).
Proof.
  intros Hval.
  induction parts as [|p [|q rest] IH]; intros cur Hcur.
  - by exists cur.
  - eexists. split; [done|]. by apply setObjectField_nonNil.
  - rewrite setNestedParts_step.
    assert (∀ m, (∀ k v, m !! k = Some v → nonNil v) →
              ∃ cur',
                (m' ←! View.setNestedParts range m (q :: rest) val;
                 Ret (<[p := DataV m']> cur)) = Ret cur'
                ∧ (∀ k v, cur' !! k = Some v → nonNil v)) as Hdown.
    { intros m Hm. destruct (IH m Hm) as (m' & -> & Hm').
      eexists. split; [done|]. intros k v. rewrite lookup_insert.
      case_decide; [|eauto]. intros [= <-]. by constructor. }
    destruct (cur !! p) as [v|] eqn:Hp; [|by apply Hdown].
    pose proof (Hcur _ _ Hp) as Hv.
    destruct Hv as [| | | | | |d Hd|d Hd|]; try by apply Hdown.
    rewrite (fieldsToData_returns d Hd), obind_Ret. by apply Hdown.
Qed.

Lemma storeResult_returns (field : View.ViewField)
    (st : gmap string any * gmap string error) (rs : Result error any) :
  (∀ val, rs = Ok val → nonNil val) →
  (∀ k v, st.1 !! k = Some v → nonNil v) →
  ∃ st', View.storeResult range field st rs = Ret st'
         ∧ (∀ k v, st'.1 !! k = Some v → nonNil v).
Proof.
  intros Hrs Hst. destruct st as [object errs]. unfold View.storeResult.
  destruct rs as [val|e].
  - destruct (setNestedParts_returns
                (GoStrings.Split (View.UniqueName field) ".") val
                (Hrs _ eq_refl) object Hst) as (object' & Hset & Hobj).
    unfold View.setNestedField. rewrite Hset. eauto.
  - destruct (errors_As e); eauto.
Qed.

(** The values kept by the loop over an array of primitives hold no
    nil. *)
Lemma forEach_values_nonNil (f : View.ViewField) (elems : list json) :
  ∀ index errs values,
    Forall nonNil values →
    Forall nonNil
      (View.forEach (View.primElement f) index (errs, values) elems).2.
Proof.
  induction elems as [|element elems IH]; intros index errs values Hvals;
    [done|].
  rewrite forEach_cons.
  pose proof (primElement_values f errs values index element) as Hstep.
  destruct (View.primElement f (errs, values) index element)
    as [errs1 values1]. simpl in Hstep. subst values1.
  apply IH.
  destruct (View.typedJson _ _) as [val|] eqn:Hval; [|done].
  destruct (View.err _); [done|].
  apply Forall_app. split; [done|]. repeat constructor.
  by eapply typedJson_nonNil.
Qed.

Lemma fieldStep_returns (json : document) (urlPair : gmap string string)
    (f : View.ViewField) (st : gmap string any * gmap string error) :
  (∀ node, ∃ r, View.validate range f node = Ret r
                ∧ (∀ val, r = Ok val → nonNil val)) →
  (∀ k v, st.1 !! k = Some v → nonNil v) →
  ∃ st', View.fieldStep range json urlPair st f = Ret st'
         ∧ (∀ k v, st'.1 !! k = Some v → nonNil v).
Proof.
  intros Hf Hst. unfold View.fieldStep.
  destruct (Gjson.Get json (View.Name f)) as [node|].
  - destruct (Hf node) as (rs & -> & Hrs). rewrite obind_Ret.
    by apply storeResult_returns.
  - destruct (urlPair !! View.Name f) as [urlValue|]; [|by eexists].
    apply storeResult_returns; [|done].
    intros val. apply validateRaw_nonNil.
Qed.

(** The two phases of [Validate] after the check of the JSON text. *)
Lemma Validate_phases_return (s : View.Schema) (json : document)
    (st0 : gmap string error * gmap string string) :
  Forall (λ f, ∀ node, ∃ r, View.validate range f node = Ret r
                            ∧ (∀ val, r = Ok val → nonNil val))
         (View.fields s) →
  ∃ r,
    match View.err st0.1 with
    | Some e => Ret (Err e)
    | None =>
        st ←! foldlM (View.fieldStep range json st0.2) (∅, st0.1)
                (View.fields s);
        Ret (match View.err st.2 with
             | Some e => Err e
             | None =>
                 Ok (if View.allowUnknownFields s
                     then View.addUrlParams range st.1 st0.2
                     else st.1)
             end)
    end = Ret r
    ∧ (∀ vo, r = Ok vo → ∀ k v, vo !! k = Some v → nonNil v).
Proof.
  intros Hfs. destruct (View.err st0.1); [by eexists|].
  destruct (foldlM_invariant
              (λ st : gmap string any * gmap string error,
                 ∀ k v, st.1 !! k = Some v → nonNil v)
              (View.fieldStep range json st0.2) (View.fields s))
    with (st := (∅ : gmap string any, st0.1)) as (st & -> & Hst).
  - eapply Forall_impl; [exact Hfs|]. intros f Hf st Hst.
    by apply fieldStep_returns.
  - intros k v. simpl. by rewrite lookup_empty.
  - rewrite obind_Ret. eexists. split; [done|].
    intros vo Hvo. destruct (View.err st.2); [done|]. injection Hvo as <-.
    destruct (View.allowUnknownFields s); [|done].
    rewrite addUrlParams_union by done.
    intros k v [?|[_ Hk]]%lookup_union_Some_raw; [by eapply Hst|].
    apply lookup_fmap_Some in Hk as (w & <- & _). constructor.
Qed.

Lemma objectElement_returns (f : View.ViewField) (nested : View.Schema)
    (st : gmap string error * list any) (index : nat) (element : json) :
  (∀ json urlParams,
     ∃ r, View.Validate range nested json urlParams = Ret r
          ∧ (∀ vo, r = Ok vo → ∀ k v, vo !! k = Some v → nonNil v)) →
  Forall nonNil st.2 →
  ∃ st', View.objectElement range f nested st index element = Ret st'
         ∧ Forall nonNil st'.2.
Proof.
  intros Hnested Hst. unfold View.objectElement.
  destruct (negb _); [by eexists|].
  destruct (Hnested (Doc element) []) as (r & -> & Hr).
  rewrite obind_Ret. eexists. split; [done|].
  destruct r as [vo|]; [|done]. simpl.
  destruct (View.err _); [done|].
  apply Forall_app. split; [done|]. repeat constructor. by apply Hr.
Qed.

(** On a well-formed schema validation returns, and the object it returns
    holds no nil. *)
Lemma Validate_validate_returns :
  (∀ s, wfSchema s → ∀ json urlParams,
     ∃ r, View.Validate range s json urlParams = Ret r
          ∧ (∀ vo, r = Ok vo → ∀ k v, vo !! k = Some v → nonNil v))
  ∧ (∀ f, wfField f → ∀ node,
       ∃ r, View.validate range f node = Ret r
            ∧ (∀ val, r = Ok val → nonNil val)).
Proof.
  apply Schema_ViewField_ind.
  - intros fs allow Hfs Hwf json urlParams.
    apply wfSchema_fields in Hwf. simpl in Hwf.
    assert (Forall (λ f, ∀ node, ∃ r, View.validate range f node = Ret r
                                      ∧ (∀ val, r = Ok val → nonNil val))
              fs) as Hfs'.
    { rewrite Forall_forall in Hfs, Hwf. apply Forall_forall. auto. }
    rewrite Validate_unfold.
    destruct json as [|text|j]; [|by eexists|];
      by apply (Validate_phases_return (View.mkSchema fs allow)).
  - intros qn sc req arr obj emb T vs Hemb Hwf node.
    rewrite validate_unfold. unfold wfField in Hwf. simpl in *.
    unfold View.IsObject, View.IsArray, View.embeddedObject. simpl.
    destruct emb as [nested|]; simpl in *.
    + destruct (obj && negb arr).
      * destruct (Hemb Hwf (Doc node) []) as (r & -> & Hr). rewrite obind_Ret.
        eexists. split; [done|].
        intros val. destruct r; [|done]. intros [= <-].
        constructor. by apply Hr.
      * destruct arr.
        -- destruct node; try by eexists.
           destruct (forEachM_invariant
                       (λ st : gmap string error * list any,
                          Forall nonNil st.2)
                       (View.objectElement range
                          (View.JSONField qn sc req true obj (Some nested) T vs)
                          nested) elems) with (index := 0%nat)
                                              (st := (∅ : gmap string error,
                                                      [] : list any))
             as (st & -> & Hst); [|done|].
           ++ intros st index element Hst.
              apply objectElement_returns; [|done]. by apply Hemb.
           ++ rewrite obind_Ret. eexists. split; [done|].
              intros val. destruct (View.err _); [done|]. intros [= <-].
              by constructor.
        -- eexists. split; [done|].
           intros val Hval. repeat (case_match; simplify_eq).
           by eapply typedJson_nonNil.
    + rewrite Hwf. destruct arr.
      * destruct node; try by eexists.
        eexists. split; [done|].
        intros val. destruct (View.err _); [done|]. intros [= <-].
        constructor. by apply forEach_values_nonNil.
      * eexists. split; [done|].
        intros val Hval. repeat (case_match; simplify_eq).
        by eapply typedJson_nonNil.
Qed.

End Returns.

(** ** Required fields *)

Section Required.
Variable range : rangeOrder.
Hypothesis valid : rangeOrder_valid range.

(** A key that no URL parameter map holds is not in the merged map. *)
Lemma mergeUrlParams_absent (s : View.Schema) (voFields : gmap string bool)
    (urlParams : list (gmap string string)) (k : string) :
  (∀ pair, pair ∈ urlParams → pair !! k = None) →
  (View.mergeUrlParams range s voFields urlParams).2 !! k = None.
Proof.
  unfold View.mergeUrlParams.
  assert (∀ st : gmap string error * gmap string string,
            st.2 !! k = None →
            (∀ pair, pair ∈ urlParams → pair !! k = None) →
            (foldl (λ st pair,
                      foldl (View.urlParam s voFields) st (range string pair))
               st urlParams).2 !! k = None) as Hgen.
  { induction urlParams as [|pair urlParams IH]; intros st Hst Habs; [done|].
    simpl. apply IH; [|intros p Hp; apply Habs; by right].
    assert (∀ l st, st.2 !! k = None →
              (∀ k' v, (k', v) ∈ l → k' ≠ k) →
              (foldl (View.urlParam s voFields) st l).2 !! k = None) as Hin.
    { clear. induction l as [|[k' v] l IH]; intros st Hst Hl; [done|].
      simpl. apply IH; [|intros k'' v' Hin; eapply Hl; by right].
      destruct st as [errs urlPair]. simpl.
      rewrite lookup_insert_ne; [done|]. eapply Hl. by left. }
    apply Hin; [done|]. intros k' v Hkv ->.
    apply (range_elem_of range pair k v valid) in Hkv.
    rewrite Habs in Hkv; [done|by left]. }
  intros Habs. by apply Hgen.
Qed.

(** The step of the field loop on a required field that is absent. *)
Lemma fieldStep_required (json : document) (urlPair : gmap string string)
    (st : gmap string any * gmap string error) (F : View.ViewField) :
  Gjson.Get json (View.Name F) = None →
  urlPair !! View.Name F = None →
  View.Required F = true →
  View.fieldStep range json urlPair st F
  = Ret (st.1, <[View.Name F := View.requiredError F]> st.2).
Proof. intros HJ HU HR. unfold View.fieldStep. by rewrite HJ, HU, HR. Qed.

(** No step of the field loop removes an entry of the aggregate. *)
Lemma fieldStep_keeps_keys (json : document) (urlPair : gmap string string)
    (st st' : gmap string any * gmap string error) (f : View.ViewField)
    (k : string) :
  View.fieldStep range json urlPair st f = Ret st' →
  is_Some (st.2 !! k) → is_Some (st'.2 !! k).
Proof.
  assert (∀ rs, View.storeResult range f st rs = Ret st' →
                is_Some (st.2 !! k) → is_Some (st'.2 !! k)) as Hstore.
  { intros rs. destruct st as [object errs]. destruct rs as [val|e].
    - unfold View.storeResult.
      destruct (View.setNestedField _ _ _ _); simpl; [|done].
      by intros [= <-].
    - rewrite storeResult_Err by done. intros [= <-]. simpl.
      destruct (errors_As e) as [nested|].
      + intros [e' He']. rewrite lookup_union.
        rewrite He'. destruct (nested !! k); simpl; eauto.
      + intros His. rewrite lookup_insert. case_decide; eauto. }
  unfold View.fieldStep.
  destruct (Gjson.Get _ _) as [node|].
  - destruct (View.validate _ _ _) as [rs|]; [|done]. rewrite obind_Ret.
    apply Hstore.
  - destruct (urlPair !! View.Name f) as [urlValue|]; [apply Hstore|].
    intros [= <-]. simpl. destruct (View.Required f); [|done].
    intros His. unfold View.add. rewrite lookup_insert. case_decide; eauto.
Qed.

Lemma foldlM_fieldStep_keeps_keys (json : document)
    (urlPair : gmap string string) (fs : list View.ViewField) (k : string) :
  ∀ st st',
    foldlM (View.fieldStep range json urlPair) st fs = Ret st' →
    is_Some (st.2 !! k) → is_Some (st'.2 !! k).
Proof.
  induction fs as [|f fs IH]; intros st st'; simpl.
  - by intros [= <-].
  - destruct (View.fieldStep _ _ _ _ _) as [st1|] eqn:Hstep; [|done].
    simpl. intros Hrest His. eapply IH; [done|].
    by eapply fieldStep_keeps_keys.
Qed.

Lemma foldlM_fieldStep_leaves_key (json : document)
    (urlPair : gmap string string) (fs : list View.ViewField) (k : string) :
  (∀ G st st', G ∈ fs →
     View.fieldStep range json urlPair st G = Ret st' →
     st'.2 !! k = st.2 !! k) →
  ∀ st st',
    foldlM (View.fieldStep range json urlPair) st fs = Ret st' →
    st'.2 !! k = st.2 !! k.
Proof.
  induction fs as [|f fs IH]; intros Hfs st st'; simpl.
  - by intros [= <-].
  - destruct (View.fieldStep _ _ _ _ _) as [st1|] eqn:Hstep; [|done].
    simpl. intros Hrest.
    assert (∀ G st2 st3, G ∈ fs →
              View.fieldStep range json urlPair st2 G = Ret st3 →
              st3.2 !! k = st2.2 !! k) as Hfs'.
    { intros G st2 st3 HG. apply Hfs. by right. }
    rewrite (IH Hfs' st1 st' Hrest).
    eapply Hfs; [by left|done].
Qed.

End Required.

(** C1, as the code has it.  Take a well-formed schema whose fields have
    names without path syntax of gjson, a required field [F] of it, and
    an input, the empty text or an object, in which neither the document
    nor any URL parameter map holds the name of [F].  When the first
    phase reports nothing (no key is unknown, duplicated or in conflict),
    [Validate] returns an aggregate that has an entry under the name of
    [F]; that entry is the error [F is required but not found] when the
    fields declared after [F] are no nested objects and none of them
    writes an entry of its own under the name of [F].  When the first
    phase reports an error, [Validate] returns the aggregate of the first
    phase alone: the loop over the fields does not run. *)
Theorem required_field_reported (range : rangeOrder) (s : View.Schema)
    (F : View.ViewField) (json : document)
    (urlParams : list (gmap string string)) :
  rangeOrder_valid range →
  wfSchema s →
  F ∈ View.fields s →
  View.Required F = true →
  (∀ G, G ∈ View.fields s → Gjson.plain (View.Name G) = true) →
  Gjson.emptyOrObject json = true →
  Gjson.Get json (View.Name F) = None →
  (∀ pair, pair ∈ urlParams → pair !! View.Name F = None) →
  ((View.structuralPhase range s json urlParams).1 = ∅ →
   ∃ errors,
     View.Validate range s json urlParams = Ret (Err (validationError errors))
     ∧ is_Some (errors !! View.Name F)
     ∧ errors_Is (View.requiredError F) "is required but not found" = true
     ∧ (∀ pre post,
          View.fields s = (pre ++ F :: post)%list →
          (∀ G, G ∈ post → View.object G = false) →
          (∀ G st st', G ∈ post →
             View.fieldStep range json
               (View.structuralPhase range s json urlParams).2 st G
             = Ret st' →
             st'.2 !! View.Name F = st.2 !! View.Name F) →
          errors !! View.Name F = Some (View.requiredError F)))
  ∧ ((View.structuralPhase range s json urlParams).1 ≠ ∅ →
     View.Validate range s json urlParams
     = Ret (Err (validationError
                   (View.structuralPhase range s json urlParams).1))).
Proof.
  intros Hr Hwf HF Hreq _ Hshape HJ HU.
  assert (∀ text, json ≠ Malformed text) as Hjson.
  { intros text ->. discriminate Hshape. }
  split; cycle 1.
  { intros Hphase. rewrite Validate_unfold. cbv zeta.
    rewrite err_non_empty by done.
    by destruct json; [|destruct (Hjson text)|]. }
  intros Hphase.
  set (urlPair := (View.structuralPhase range s json urlParams).2).
  assert (urlPair !! View.Name F = None) as HU'.
  { by apply mergeUrlParams_absent. }
  (* the field loop returns *)
  destruct (Validate_validate_returns range Hr) as [_ Hvalidate].
  assert (∀ fs st, Forall wfField fs →
            (∀ k v, st.1 !! k = Some v → nonNil v) →
            ∃ st', foldlM (View.fieldStep range json urlPair) st fs = Ret st'
                   ∧ (∀ k v, st'.1 !! k = Some v → nonNil v)) as Hloop.
  { intros fs st Hfs Hst.
    apply (foldlM_invariant
             (λ st : gmap string any * gmap string error,
                ∀ k v, st.1 !! k = Some v → nonNil v)); [|done].
    eapply Forall_impl; [exact Hfs|]. intros f Hf st1 Hst1.
    apply fieldStep_returns; [done| |done]. intros node. by apply Hvalidate. }
  apply wfSchema_fields in Hwf.
  (* the loop up to [F], the step on [F], the loop after [F] *)
  assert (∀ pre post, View.fields s = (pre ++ F :: post)%list →
            ∃ st1 st3,
              foldlM (View.fieldStep range json urlPair) (∅, ∅) pre = Ret st1
              ∧ foldlM (View.fieldStep range json urlPair)
                  (st1.1, <[View.Name F := View.requiredError F]> st1.2) post
                = Ret st3
              ∧ foldlM (View.fieldStep range json urlPair) (∅, ∅)
                  (View.fields s) = Ret st3) as Hsplit.
  { intros pre post Hfields. rewrite Hfields in Hwf |- *.
    apply Forall_app in Hwf as [Hpre Hpost].
    apply Forall_cons in Hpost as [_ Hpost].
    destruct (Hloop pre (∅, ∅) Hpre) as (st1 & Hst1 & Hinv1).
    { intros k v. simpl. by rewrite lookup_empty. }
    destruct (Hloop post
                (st1.1, <[View.Name F := View.requiredError F]> st1.2) Hpost)
      as (st3 & Hst3 & _); [done|].
    exists st1, st3. split_and!; [done..|].
    rewrite foldlM_app, Hst1, obind_Ret. simpl.
    by rewrite (fieldStep_required range json urlPair st1 F), obind_Ret. }
  destruct (list_elem_of_split _ _ HF) as (pre0 & post0 & Hfields0).
  destruct (Hsplit _ _ Hfields0) as (st1 & st3 & Hst1 & Hst3 & Hall).
  assert (is_Some (st3.2 !! View.Name F)) as Hkey.
  { eapply (foldlM_fieldStep_keeps_keys range Hr); [exact Hst3|].
    simpl. rewrite lookup_insert_eq. eauto. }
  exists st3.2. split_and!.
  - rewrite Validate_unfold. cbv zeta. fold urlPair. rewrite Hphase.
    rewrite err_empty, Hall, obind_Ret.
    rewrite err_non_empty.
    2:{ intros Hempty. rewrite Hempty, lookup_empty in Hkey.
        by destruct Hkey. }
    by destruct json; [|destruct (Hjson text)|].
  - done.
  - done.
  - intros pre post Hfields _ Hleave.
    destruct (Hsplit _ _ Hfields) as (st1' & st3' & Hst1' & Hst3' & Hall').
    rewrite Hall in Hall'. injection Hall' as <-.
    rewrite (foldlM_fieldStep_leaves_key range json urlPair post
               (View.Name F) Hleave _ _ Hst3').
    simpl. apply lookup_insert_eq.
Qed.

Lemma required_field_reported_witness :
  ∃ errors,
    View.Validate keyOrder
      (View.WithFields
         [View.Field TString "id" [];
          View.Optional (View.Field TString "name" [MinLength 3])])
      (Doc (JObject [("name", JString "Al")])) []
    = Ret (Err (validationError errors))
    ∧ is_Some (errors !! "id").
Proof.
  destruct (required_field_reported keyOrder
              (View.WithFields
                 [View.Field TString "id" [];
                  View.Optional (View.Field TString "name" [MinLength 3])])
              (View.Field TString "id" [])
              (Doc (JObject [("name", JString "Al")])) [])
    as [Hreported _].
  - apply keyOrder_valid.
  - simpl. tauto.
  - left.
  - reflexivity.
  - intros G [->|[->|?%elem_of_nil]%elem_of_cons]%elem_of_cons; done.
  - reflexivity.
  - reflexivity.
  - intros pair Hpair. by apply elem_of_nil in Hpair.
  - destruct Hreported as (errors & Hvalidate & Hkey & _).
    + vm_compute. reflexivity.
    + exists errors. split; [exact Hvalidate|exact Hkey].
Defined.

(** A required field that is absent, next to a member of the document that
    the schema does not declare: the aggregate reports the unknown member
    and has no entry for the required field. *)
Lemma required_field_not_reported :
  View.Validate keyOrder (View.WithFields [View.Field TString "id" []])
    (Doc (JObject [("extra", JString "x")])) []
  = Ret (Err (validationError
                {[ "extra" := errorString "unknown json field 'extra'" ]}))
  ∧ ({[ "extra" := errorString "unknown json field 'extra'" ]}
       : gmap string error) !! "id" = None.
Proof. split; vm_compute; reflexivity. Qed.

(** ** Flattening *)

Lemma foldlM_fmap {A B St} (g : A → B) (step : St → B → outcome St)
    (l : list A) :
  ∀ st, foldlM (λ st x, step st (g x)) st l = foldlM step st (g <$> l).
Proof.
  induction l as [|x l IH]; intros st; simpl; [done|].
  destruct (step st (g x)); simpl; auto.
Qed.

Section Flatten.
Variable range : rangeOrder.
Hypothesis valid : rangeOrder_valid range.

Lemma walk_DataV (val : gmap string any) (prefix : string)
    (out : gmap string any) :
  View.walk range (DataV val) prefix out
  = foldlM (childStep range val prefix) out (range any val).*1.
Proof. simpl. by rewrite <-foldlM_fmap. Qed.

Lemma walk_MapV (val : gmap string any) (prefix : string)
    (out : gmap string any) :
  View.walk range (MapV val) prefix out
  = foldlM (childStep range val prefix) out (range any val).*1.
Proof. simpl. by rewrite <-foldlM_fmap. Qed.

Lemma walk_VO (val : gmap string any) (prefix : string)
    (out : gmap string any) :
  View.walk range (VO val) prefix out
  = foldlM (fieldStepVO range val prefix) out (Internal.Fields range val).
Proof. done. Qed.

Lemma walk_terminal (v : any) (prefix : string) (out : gmap string any) :
  container v = None →
  View.walk range v prefix out
  = Ret (if decide (prefix ≠ "") then <[prefix := v]> out else out).
Proof. by destruct v. Qed.

(** [FlatMap] is the walker on the object itself, from the empty prefix. *)
Lemma FlatMap_walk (vo : gmap string any) :
  View.FlatMap range vo = View.walk range (VO vo) "" ∅.
Proof.
  rewrite walk_VO. unfold View.FlatMap.
  apply foldlM_ext, Forall_forall. intros k Hk out.
  apply (sort_Strings_elem_of range vo k valid) in Hk as [v Hv].
  unfold fieldStepVO. rewrite (Get_literal _ _ _ _ Hv), lookup_fmap, Hv.
  simpl. by destruct v.
Qed.

End Flatten.

Lemma leafAt_terminal v ks x : leafAt v ks x → container x = None.
Proof. induction 1; auto. Qed.

Lemma leafAt_nil v x : container v = None → ∀ ks, leafAt v ks x → ks = [] ∧ x = v.
Proof.
  intros Hv ks H. inversion H; subst; [done|congruence].
Qed.

Lemma children_post (d : gmap string any) (prefix : string)
    (step : gmap string any → string → outcome (gmap string any))
    (keys : list string) :
  (∀ k, k ∈ keys → ∃ child, d !! k = Some child ∧
     ∀ out out1, step out k = Ret out1 →
       walkPost child (View.joinKey prefix k) out out1) →
  ∀ out out', foldlM step out keys = Ret out' →
    (∀ p x, out' !! p = Some x →
       out !! p = Some x
       ∨ (p ≠ "" ∧ ∃ k child ks, k ∈ keys ∧ d !! k = Some child ∧
            leafAt child ks x ∧ flatKey (View.joinKey prefix k) ks = p))
    ∧ (∀ k child ks x, k ∈ keys → d !! k = Some child →
         leafAt child ks x → flatKey (View.joinKey prefix k) ks ≠ "" →
         is_Some (out' !! flatKey (View.joinKey prefix k) ks))
    ∧ (∀ p, is_Some (out !! p) → is_Some (out' !! p)).
Proof.
  induction keys as [|k keys IH]; intros Hstep out out' Hfold.
  - simpl in Hfold. injection Hfold as <-.
    split; [auto|]. split; [|auto].
    intros k child ks x Hk. by apply elem_of_nil in Hk.
  - simpl in Hfold. destruct (step out k) as [out1|] eqn:Hk; [|done].
    simpl in Hfold.
    destruct (Hstep k) as (child & Hchild & Hpost); [left|].
    destruct (Hpost _ _ Hk) as (Hsound1 & Hcomplete1 & Hmono1).
    destruct (IH (λ k' Hk', Hstep k' (list_elem_of_further _ _ _ Hk')) _ _ Hfold)
      as (Hsound & Hcomplete & Hmono).
    split; [|split].
    + intros p x Hp. destruct (Hsound p x Hp) as [Hp1|(Hne & k' & c' & ks & Hin & Hc' & Hleaf & Hkey)].
      * destruct (Hsound1 p x Hp1) as [?|(Hne & ks & Hleaf & Hkey)]; [by left|].
        right. split; [done|]. exists k, child, ks. split; [left|done].
      * right. split; [done|]. exists k', c', ks. split; [by right|done].
    + intros k' c' ks x Hin Hc' Hleaf Hne.
      apply elem_of_cons in Hin as [->|Hin].
      * apply Hmono. rewrite Hchild in Hc'. injection Hc' as <-.
        by apply (Hcomplete1 ks x).
      * by apply (Hcomplete k' c' ks x).
    + intros p Hp. by apply Hmono, Hmono1.
Qed.

Section FlatMapResult.
Variable range : rangeOrder.
Hypothesis valid : rangeOrder_valid range.

Lemma children_walkPost (v : any) (d : gmap string any) (prefix : string)
    (step : gmap string any → string → outcome (gmap string any))
    (keys : list string) :
  container v = Some d →
  (∀ k, k ∈ keys ↔ is_Some (d !! k)) →
  (∀ k child, d !! k = Some child →
     ∀ out out1, step out k = Ret out1 →
       walkPost child (View.joinKey prefix k) out out1) →
  ∀ out out', foldlM step out keys = Ret out' → walkPost v prefix out out'.
Proof.
  intros Hv Hkeys Hstep out out' Hfold.
  destruct (children_post d prefix step keys) with (out := out) (out' := out')
    as (Hsound & Hcomplete & Hmono); [|done|].
  { intros k Hk. apply Hkeys in Hk as [child Hchild]. eauto. }
  split; [|split; [|done]].
  - intros p x Hp.
    destruct (Hsound p x Hp) as [?|(Hne & k & child & ks & _ & Hc & Hleaf & Hkey)];
      [by left|].
    right. split; [done|]. exists (k :: ks). split; [|done].
    by apply (leafAt_down v d k child).
  - intros ks x Hleaf Hne. inversion Hleaf; subst; [congruence|].
    assert (d0 = d) as -> by congruence.
    apply (Hcomplete k child ks0 x); [|done..]. apply Hkeys. eauto.
Qed.

Lemma walk_walkPost (v : any) :
  ∀ prefix out out',
    View.walk range v prefix out = Ret out' → walkPost v prefix out out'.
Proof.
  assert (Hterminal : ∀ v, container v = None → ∀ prefix out out',
    View.walk range v prefix out = Ret out' → walkPost v prefix out out').
  { clear v. intros v Hv prefix out out'. rewrite (walk_terminal range v) by done.
    intros [= <-]. split; [|split].
    - intros p x Hp. case_decide as Hprefix; [|by left].
      destruct (decide (prefix = p)) as [->|Hne].
      + rewrite lookup_insert_eq in Hp. injection Hp as <-.
        right. split; [done|]. exists []. split; [by constructor|done].
      + rewrite lookup_insert_ne in Hp by done. by left.
    - intros ks x Hleaf Hne.
      destruct (leafAt_nil v x Hv ks Hleaf) as [-> ->].
      simpl in *. unfold flatKey in *. simpl in *. rewrite decide_True by done.
      by rewrite lookup_insert_eq.
    - intros p Hp. case_decide; [|done].
      rewrite lookup_insert. case_decide; [by eexists|done]. }
  assert (Hplain : ∀ v d, container v = Some d →
    map_Forall (λ _ child, ∀ prefix out out',
       View.walk range child prefix out = Ret out' →
       walkPost child prefix out out') d →
    ∀ prefix out out',
      foldlM (childStep range d prefix) out (range any d).*1 = Ret out' →
      walkPost v prefix out out').
  { clear v. intros v d Hv IH prefix out out'.
    apply (children_walkPost v d prefix); [done| |].
    - intros k. rewrite list_elem_of_fmap. split.
      + intros ([k' x] & -> & Hin). apply (range_elem_of range) in Hin; eauto.
      + intros [x Hx]. exists (k, x). split; [done|]. by apply (range_elem_of range).
    - intros k child Hchild out0 out1. unfold childStep.
      rewrite lookup_fmap, Hchild. simpl. by apply (IH k child). }
  induction v as [| | | | | |t l _|d IH|d IH|d IH] using any_ind';
    try (by apply Hterminal).
  - intros prefix out out'. rewrite walk_DataV. by apply Hplain.
  - intros prefix out out'. rewrite walk_VO.
    apply (children_walkPost (VO d) d prefix); [done| |].
    + intros k. by apply sort_Strings_elem_of.
    + intros k child Hchild out0 out1. unfold fieldStepVO.
      rewrite (Get_literal _ _ _ _ Hchild), lookup_fmap, Hchild.
      destruct (Internal.assertType Internal.AnyType child); [|done].
      simpl. by apply (IH k child).
  - intros prefix out out'. rewrite walk_MapV. by apply Hplain.
Qed.

Lemma walk_returns (v : any) :
  nonNil v → ∀ prefix out, ∃ out', View.walk range v prefix out = Ret out'.
Proof.
  assert (Hplain : ∀ d,
    map_Forall (λ _ child, nonNil child → ∀ prefix out,
       ∃ out', View.walk range child prefix out = Ret out') d →
    (∀ k child, d !! k = Some child → nonNil child) →
    ∀ prefix out, ∃ out',
      foldlM (childStep range d prefix) out (range any d).*1 = Ret out').
  { intros d IH Hd prefix out.
    destruct (foldlM_invariant (λ _, True) (childStep range d prefix)
                (range any d).*1) with (st := out) as (out' & Hout & _);
      [|done|by exists out'].
    apply Forall_forall. intros k Hk out0 _.
    apply list_elem_of_fmap in Hk as ([k' x] & -> & Hin).
    apply (range_elem_of range) in Hin; [|done]. simpl.
    unfold childStep. rewrite lookup_fmap, Hin. simpl.
    destruct (IH k' x Hin (Hd k' x Hin) (View.joinKey prefix k') out0) as [out1 ->].
    eauto. }
  induction v as [| | | | | |t l _|d IH|d IH|d IH] using any_ind';
    intros Hv prefix out; try (rewrite walk_terminal by done; eauto).
  - rewrite walk_DataV. inversion Hv; subst. by apply Hplain.
  - rewrite walk_VO. inversion Hv as [| | | | | | |d' Hd|]; subst.
    destruct (foldlM_invariant (λ _, True) (fieldStepVO range d prefix)
                (Internal.Fields range d)) with (st := out) as (out' & Hout & _);
      [|done|by exists out'].
    apply Forall_forall. intros k Hk out0 _.
    apply (sort_Strings_elem_of range d k valid) in Hk as [child Hchild].
    unfold fieldStepVO. rewrite (Get_literal _ _ _ _ Hchild), lookup_fmap, Hchild.
    pose proof (Hd k child Hchild) as Hnn.
    destruct (IH k child Hchild Hnn (View.joinKey prefix k) out0) as [out1 Hout1].
    change (View.walk range <$> Some child) with (Some (View.walk range child)).
    assert (Internal.assertType Internal.AnyType child = true) as ->
      by (by destruct Hnn).
    revert Hout1. generalize (View.walk range child). intros w Hw.
    simpl. rewrite Hw. eauto.
  - rewrite walk_MapV. inversion Hv; subst. by apply Hplain.
Qed.

Lemma flatKey_prefix_Join (ks : list string) :
  ∀ prefix, prefix ≠ "" → Forall (λ k, k ≠ "") ks →
    flatKey prefix ks = GoStrings.Join (prefix :: ks) ".".
Proof.
  induction ks as [|k ks IH]; intros prefix Hprefix Hks; [done|].
  apply Forall_cons in Hks as [Hk Hks].
  change (flatKey prefix (k :: ks)) with (flatKey (View.joinKey prefix k) ks).
  unfold View.joinKey. rewrite decide_True by done.
  rewrite IH; [|by destruct prefix|done].
  destruct ks as [|k2 ks]; [done|].
  change (GoStrings.Join ((prefix +:+ "." +:+ k) :: k2 :: ks) ".")
    with ((prefix +:+ ("." +:+ k)) +:+ ("." +:+ GoStrings.Join (k2 :: ks) ".")).
  change (GoStrings.Join (prefix :: k :: k2 :: ks) ".")
    with (prefix +:+ ("." +:+ (k +:+ ("." +:+ GoStrings.Join (k2 :: ks) ".")))).
  by rewrite string_app_assoc.
Qed.

Lemma flatKey_Join (ks : list string) :
  Forall (λ k, k ≠ "") ks → flatKey "" ks = GoStrings.Join ks ".".
Proof.
  destruct ks as [|k ks]; [done|]. intros Hks.
  pose proof (Forall_inv Hks) as Hk. apply Forall_inv_tail in Hks.
  change (flatKey "" (k :: ks)) with (flatKey (View.joinKey "" k) ks).
  unfold View.joinKey. rewrite decide_False by (by intros []).
  by apply flatKey_prefix_Join.
Qed.

(** C8, as the code has it.  [FlatMap], the flattening operation of the
    result object, returns on an object that holds no nil; the map it
    returns has one level: each entry is a terminal value (an array or a
    scalar, as it is stored) under the non-empty key of a path of keys
    that leads to it through the nested containers; each such path with a
    non-empty key has an entry, which is the value the path leads to
    unless another path has the same key.  The key of a path is its keys
    joined by dots when none of them is empty; an empty prefix is left
    out.  [ToSQLXValueObject] does not flatten: it returns the top-level
    fields with their nested containers. *)
Theorem FlatMap_single_level (vo : gmap string any) :
  (∀ k v, vo !! k = Some v → nonNil v) →
  ∃ out,
    View.FlatMap range vo = Ret out
    ∧ (∀ p x, out !! p = Some x →
         container x = None ∧ p ≠ ""
         ∧ ∃ ks, leafAt (VO vo) ks x ∧ flatKey "" ks = p)
    ∧ (∀ ks x, leafAt (VO vo) ks x → flatKey "" ks ≠ "" →
         ∃ y, out !! flatKey "" ks = Some y
              ∧ ((∀ ks' y', leafAt (VO vo) ks' y' →
                    flatKey "" ks' = flatKey "" ks → y' = x) → y = x))
    ∧ (∀ ks, Forall (λ k, k ≠ "") ks →
         flatKey "" ks = GoStrings.Join ks ".")
    ∧ View.ToSQLXValueObject range vo = Ret vo.
Proof.
  intros Hvo. rewrite FlatMap_walk by done.
  destruct (walk_returns (VO vo) (nonNil_VO vo Hvo) "" ∅) as [out Hout].
  exists out. split; [done|].
  destruct (walk_walkPost _ _ _ _ Hout) as (Hsound & Hcomplete & _).
  assert (Hentry : ∀ p x, out !! p = Some x →
            container x = None ∧ p ≠ ""
            ∧ ∃ ks, leafAt (VO vo) ks x ∧ flatKey "" ks = p).
  { intros p x Hp.
    destruct (Hsound p x Hp) as [Hempty|(Hne & ks & Hleaf & Hkey)];
      [by rewrite lookup_empty in Hempty|].
    split; [by apply (leafAt_terminal (VO vo) ks)|]. eauto. }
  split; [done|]. split; [|split; [apply flatKey_Join|]].
  - intros ks x Hleaf Hne. destruct (Hcomplete ks x Hleaf Hne) as [y Hy].
    exists y. split; [done|]. intros Hunique.
    destruct (Hentry _ _ Hy) as (_ & _ & ks' & Hleaf' & Hkey').
    by apply (Hunique ks' y).
  - by apply fieldsToData_returns.
Qed.

End FlatMapResult.

Lemma FlatMap_single_level_witness :
  ∃ out,
    View.FlatMap keyOrder
      (<["user" := VO {[ "email" := Str "a@b.c" ]}]> {[ "id" := Str "1" ]})
    = Ret out
    ∧ ∀ p x, out !! p = Some x → container x = None.
Proof.
  destruct (FlatMap_single_level keyOrder keyOrder_valid
              (<["user" := VO {[ "email" := Str "a@b.c" ]}]>
                 {[ "id" := Str "1" ]}))
    as (out & Hout & Hentry & _).
  - intros k v Hk. rewrite lookup_insert in Hk. case_decide.
    + injection Hk as <-. constructor. intros k' v' Hk'.
      apply lookup_singleton_Some in Hk' as [_ <-]. constructor.
    + apply lookup_singleton_Some in Hk as [_ <-]. constructor.
  - exists out. split; [done|]. intros p x Hp. by destruct (Hentry p x Hp).
Defined.

(** Empty keys are left out of the flattened keys: the leaf under the path
    of the keys [""] and ["a"] is stored under [a], not under [.a]; and
    the URL parameter with the empty name, which a permissive schema copies
    into the result, is in no entry of the flattened map. *)
Lemma FlatMap_leaves_out_empty_key :
  View.FlatMap keyOrder {[ "" := DataV {[ "a" := Str "1" ]} ]}
  = Ret {[ "a" := Str "1" ]}
  ∧ leafAt (VO {[ "" := DataV {[ "a" := Str "1" ]} ]}) [""; "a"] (Str "1")
  ∧ GoStrings.Join [""; "a"] "." = ".a"
  ∧ ({[ "a" := Str "1" ]} : gmap string any) !! ".a" = None
  ∧ View.Validate keyOrder
      (View.AllowUnknownFields (View.WithFields [View.Field TString "id" []]))
      (Doc (JObject [("id", JString "1")])) [ {[ "" := "x" ]} ]
    = Ret (Ok {[ "id" := Str "1"; "" := Str "x" ]})
  ∧ View.FlatMap keyOrder {[ "id" := Str "1"; "" := Str "x" ]}
    = Ret {[ "id" := Str "1" ]}.
Proof.
  split; [by vm_compute|].
  split; [|split; [done|split; [by vm_compute|split; by vm_compute]]].
  eapply leafAt_down; [done|apply lookup_singleton_eq|].
  eapply leafAt_down; [done|apply lookup_singleton_eq|]. by constructor.
Qed.

(** [ToSQLXValueObject] on an object with an embedded object: the embedded
    object is kept under its key. *)
Lemma ToSQLXValueObject_keeps_nesting :
  View.ToSQLXValueObject keyOrder
    (<["user" := VO {[ "email" := Str "a@b.c" ]}]> {[ "id" := Str "1" ]})
  = Ret (<["user" := VO {[ "email" := Str "a@b.c" ]}]> {[ "id" := Str "1" ]}).
Proof. by vm_compute. Qed.

(** * Further properties *)

(** ** Integers, read exactly *)

Lemma wrap_int64_congr (x : Z) :
  ∃ q : Z, Gjson.wrap_int64 x = (x + q * 2 ^ 64)%Z
           ∧ (- 2 ^ 63 ≤ Gjson.wrap_int64 x < 2 ^ 63)%Z.
Proof.
  unfold Gjson.wrap_int64.
  exists (- ((x + 2 ^ 63) `div` 2 ^ 64))%Z.
  pose proof (Z.div_mod (x + 2 ^ 63) (2 ^ 64)) as Hdm.
  pose proof (Z.mod_pos_bound (x + 2 ^ 63) (2 ^ 64)) as Hb.
  lia.
Qed.

Lemma wrap_uint64_congr (x : Z) :
  ∃ q : Z, Gjson.wrap_uint64 x = (x + q * 2 ^ 64)%Z
           ∧ (0 ≤ Gjson.wrap_uint64 x < 2 ^ 64)%Z.
Proof.
  unfold Gjson.wrap_uint64.
  exists (- (x `div` 2 ^ 64))%Z.
  pose proof (Z.div_mod x (2 ^ 64)) as Hdm.
  pose proof (Z.mod_pos_bound x (2 ^ 64)) as Hb.
  lia.
Qed.

(** The digit loop in 64-bit arithmetic reads the exact value up to a
    multiple of 2^64. *)
Lemma parseDigits_congr (wrap : Z → Z) (s : string) :
  (∀ x, ∃ q : Z, wrap x = (x + q * 2 ^ 64)%Z) →
  ∀ acc acc' v (q : Z),
    acc' = (acc + q * 2 ^ 64)%Z →
    Gjson.parseDigits id acc s = Some v →
    ∃ v' (q' : Z), Gjson.parseDigits wrap acc' s = Some v'
                   ∧ v' = (v + q' * 2 ^ 64)%Z.
Proof.
  intros Hwrap. induction s as [|c s IH]; intros acc acc' v q Hacc; simpl.
  - intros [= <-]. eauto.
  - destruct (Gjson.digit c) as [d|]; [|done]. unfold id at 1.
    destruct (Hwrap (acc' * 10 + d)%Z) as [q1 Hq1].
    apply (IH _ _ _ (q * 10 + q1)%Z). lia.
Qed.

Lemma parseDigits_image (wrap : Z → Z) (s : string) :
  s ≠ "" →
  ∀ acc v, Gjson.parseDigits wrap acc s = Some v → ∃ x, v = wrap x.
Proof.
  induction s as [|c s IH]; intros Hs acc v; [done|]. simpl.
  destruct (Gjson.digit c) as [d|]; [|done].
  destruct s as [|c' s]; [intros [= <-]; eauto|]. by apply IH.
Qed.

(** The rendering of a positive number starts with a digit. *)
Lemma pretty_pos_digits (p : positive) :
  ∃ c r, pretty (N.pos p) = String c r ∧ c ≠ "-"%char ∧ c ≠ "+"%char
         ∧ Gjson.parseDigits id 0 (String c r) = Some (Z.pos p).
Proof.
  pose proof (parseDigits_pretty_N (N.pos p)) as Hp.
  destruct (pretty (N.pos p)) as [|c r] eqn:Hs; [done|].
  exists c, r. split; [done|]. split; [|split; [|done]]; intros ->; by simpl in Hp.
Qed.

Lemma parseInt_FormatInt (z : Z) :
  Gjson.parseInt (Strconv.FormatInt z) = Some (Gjson.wrap_int64 z).
Proof.
  assert (Hcongr : ∀ x, ∃ q : Z, Gjson.wrap_int64 x = (x + q * 2 ^ 64)%Z).
  { intros x. destruct (wrap_int64_congr x) as (q & Hq & _). eauto. }
  unfold Strconv.FormatInt, pretty at 1, pretty_Z.
  destruct z as [|p|p]; [done| |].
  - change (pretty p) with (pretty (N.pos p)).
    destruct (pretty_pos_digits p) as (c & r & -> & Hc & _ & Hp).
    unfold Gjson.parseInt. rewrite decide_False by done.
    destruct (parseDigits_congr Gjson.wrap_int64 (String c r) Hcongr 0 0
                (Z.pos p) 0 eq_refl Hp) as (v' & q' & Hv' & Hq').
    rewrite Hv'. f_equal.
    assert (String c r ≠ "") as Hne by done.
    destruct (parseDigits_image _ _ Hne _ _ Hv') as [x ->].
    destruct (wrap_int64_congr x) as (q1 & Hq1 & Hr1).
    destruct (wrap_int64_congr (Z.pos p)) as (q2 & Hq2 & Hr2). lia.
  - change (pretty p) with (pretty (N.pos p)).
    destruct (pretty_pos_digits p) as (c & r & -> & Hc & _ & Hp).
    change ("-" +:+ String c r) with (String "-" (String c r)).
    unfold Gjson.parseInt. rewrite decide_True by done.
    destruct (parseDigits_congr Gjson.wrap_int64 (String c r) Hcongr 0 0
                (Z.pos p) 0 eq_refl Hp) as (v' & q' & Hv' & Hq').
    rewrite Hv'. simpl. f_equal.
    destruct (wrap_int64_congr (v' * -1)) as (q1 & Hq1 & Hr1).
    destruct (wrap_int64_congr (Z.neg p)) as (q2 & Hq2 & Hr2). lia.
Qed.

Lemma parseUint_FormatInt (z : Z) :
  (0 ≤ z)%Z →
  Gjson.parseUint (Strconv.FormatInt z) = Some (Gjson.wrap_uint64 z).
Proof.
  assert (Hcongr : ∀ x, ∃ q : Z, Gjson.wrap_uint64 x = (x + q * 2 ^ 64)%Z).
  { intros x. destruct (wrap_uint64_congr x) as (q & Hq & _). eauto. }
  intros Hz. unfold Strconv.FormatInt, pretty at 1, pretty_Z.
  destruct z as [|p|p]; [done| |lia].
  change (pretty p) with (pretty (N.pos p)).
  destruct (pretty_pos_digits p) as (c & r & -> & Hc & _ & Hp).
  unfold Gjson.parseUint.
  destruct (parseDigits_congr Gjson.wrap_uint64 (String c r) Hcongr 0 0
              (Z.pos p) 0 eq_refl Hp) as (v' & q' & Hv' & Hq').
  rewrite Hv'. f_equal.
  assert (String c r ≠ "") as Hne by done.
  destruct (parseDigits_image _ _ Hne _ _ Hv') as [x ->].
  destruct (wrap_uint64_congr x) as (q1 & Hq1 & Hr1).
  destruct (wrap_uint64_congr (Z.pos p)) as (q2 & Hq2 & Hr2). lia.
Qed.

Lemma FormatInt_inj (a b : Z) :
  Strconv.FormatInt a = Strconv.FormatInt b → a = b.
Proof.
  intros H. pose proof (FormatInt_literal a) as Ha.
  rewrite H, FormatInt_literal in Ha. congruence.
Qed.

Lemma FormatInt_no_point (z : Z) :
  GoStrings.ContainsByte (Strconv.FormatInt z) "." = false.
Proof.
  unfold Strconv.FormatInt, pretty at 1, pretty_Z.
  destruct z as [|p|p]; [done| |].
  - change (pretty p) with (pretty (N.pos p)).
    by apply (parseDigits_chars id _ "."%char eq_refl 0 (Z.pos p)),
             parseDigits_pretty_N.
  - change (pretty p) with (pretty (N.pos p)).
    change ("-" +:+ pretty (N.pos p)) with (String "-" (pretty (N.pos p))).
    simpl.
    by apply (parseDigits_chars id _ "."%char eq_refl 0 (Z.pos p)),
             parseDigits_pretty_N.
Qed.

Lemma FormatInt_minus (z : Z) :
  GoStrings.ContainsByte (Strconv.FormatInt z) "-" = bool_decide (z < 0)%Z.
Proof.
  unfold Strconv.FormatInt, pretty at 1, pretty_Z.
  destruct z as [|p|p]; [done| |done].
  change (pretty p) with (pretty (N.pos p)).
  rewrite bool_decide_eq_false_2 by lia.
  by apply (parseDigits_chars id _ "-"%char eq_refl 0 (Z.pos p)),
           parseDigits_pretty_N.
Qed.

Lemma Int_FormatInt (z : Z) :
  Gjson.Int (Strconv.FormatInt z) = Some (Gjson.wrap_int64 z).
Proof.
  unfold Gjson.Int. rewrite FormatInt_literal, parseInt_FormatInt.
  unfold Gjson.safeInt. case_bool_decide as Hz; [|done].
  f_equal. destruct (wrap_int64_congr z) as (q & Hq & Hr). lia.
Qed.

Lemma Uint_FormatInt (z : Z) :
  (0 ≤ z)%Z →
  Gjson.Uint (Strconv.FormatInt z) = Some (Gjson.wrap_uint64 z).
Proof.
  intros Hz. unfold Gjson.Uint.
  rewrite FormatInt_literal, parseUint_FormatInt by done.
  unfold Gjson.safeInt.
  destruct (bool_decide _ && bool_decide _) eqn:Hsafe; [|done].
  apply andb_prop in Hsafe as [Hs%bool_decide_eq_true _].
  f_equal. destruct (wrap_uint64_congr z) as (q & Hq & Hr). lia.
Qed.

Lemma typedJson_int_FormatInt (k : intKind) (z : Z) :
  View.typedJson (TInt k) (JNumber (Strconv.FormatInt z))
  = if decide (- 2 ^ (intBits k - 1) ≤ z ≤ 2 ^ (intBits k - 1) - 1)%Z
    then Ok (IntV k z) else Err (View.overflowError (TInt k)).
Proof.
  unfold View.typedJson.
  rewrite Int_FormatInt, FormatInt_no_point.
  destruct (wrap_int64_congr z) as (q & Hq & Hr).
  assert (0 < intBits k ≤ 64)%Z as Hbits by (by destruct k).
  assert (2 ^ (intBits k - 1) ≤ 2 ^ 63)%Z as Hpow
    by (apply Z.pow_le_mono_r; lia).
  case_decide as Hraw.
  - rewrite decide_False; [done|]. intros Hz. apply Hraw. f_equal. lia.
  - apply FormatInt_inj in Hraw. rewrite Hraw.
    unfold OverflowInt. case_decide; case_bool_decide; done || lia.
Qed.

Lemma typedJson_uint_FormatInt (k : uintKind) (z : Z) :
  View.typedJson (TUint k) (JNumber (Strconv.FormatInt z))
  = if decide (0 ≤ z < 2 ^ uintBits k)%Z
    then Ok (UintV k z) else Err (View.overflowError (TUint k)).
Proof.
  unfold View.typedJson. rewrite FormatInt_minus.
  assert (0 < uintBits k ≤ 64)%Z as Hbits by (by destruct k).
  assert (2 ^ uintBits k ≤ 2 ^ 64)%Z as Hpow
    by (apply Z.pow_le_mono_r; lia).
  case_bool_decide as Hneg; [by rewrite decide_False by lia|].
  rewrite Uint_FormatInt, FormatInt_no_point by lia.
  destruct (wrap_uint64_congr z) as (q & Hq & Hr).
  case_decide as Hraw.
  - rewrite decide_False; [done|]. intros Hz. apply Hraw. f_equal. lia.
  - apply FormatInt_inj in Hraw. rewrite Hraw.
    unfold OverflowUint. case_decide; case_bool_decide; done || lia.
Qed.

(** X1. Integer fields read a JSON number exactly.  The canonical decimal
    rendering of an integer is accepted when the integer fits the width of
    the target and stored as that integer; it is refused as an integer
    overflow when it does not fit, however large it is (no wrap-around
    comes through).  And a number that is accepted is the rendering of the
    value stored: a fraction, an exponent or a minus zero is never
    accepted. *)
Theorem typedJson_integers_exact :
  (∀ (k : intKind) (z : Z),
     View.typedJson (TInt k) (JNumber (Strconv.FormatInt z))
     = if decide (- 2 ^ (intBits k - 1) ≤ z ≤ 2 ^ (intBits k - 1) - 1)%Z
       then Ok (IntV k z) else Err (View.overflowError (TInt k)))
  ∧ (∀ (k : uintKind) (z : Z),
       View.typedJson (TUint k) (JNumber (Strconv.FormatInt z))
       = if decide (0 ≤ z < 2 ^ uintBits k)%Z
         then Ok (UintV k z) else Err (View.overflowError (TUint k)))
  ∧ (∀ (k : intKind) (raw : string) (v : any),
       View.typedJson (TInt k) (JNumber raw) = Ok v →
       ∃ z, raw = Strconv.FormatInt z ∧ v = IntV k z
            ∧ (- 2 ^ (intBits k - 1) ≤ z ≤ 2 ^ (intBits k - 1) - 1)%Z)
  ∧ (∀ (k : uintKind) (raw : string) (v : any),
       View.typedJson (TUint k) (JNumber raw) = Ok v →
       ∃ z, raw = Strconv.FormatInt z ∧ v = UintV k z
            ∧ (0 ≤ z < 2 ^ uintBits k)%Z).
Proof.
  split_and!.
  - apply typedJson_int_FormatInt.
  - apply typedJson_uint_FormatInt.
  - intros k raw v. unfold View.typedJson.
    destruct (Gjson.Int raw) as [val|];
      [|by destruct (GoStrings.ContainsByte raw ".")].
    case_decide as Hraw; [by destruct (GoStrings.ContainsByte raw ".")|].
    unfold OverflowInt.
    case_bool_decide as Hfit; [|done]. intros [= <-]. eauto.
  - intros k raw v. unfold View.typedJson.
    destruct (GoStrings.ContainsByte raw "-") eqn:Hminus; [done|].
    destruct (Gjson.Uint raw) as [val|];
      [|by destruct (GoStrings.ContainsByte raw ".")].
    case_decide as Hraw; [by destruct (GoStrings.ContainsByte raw ".")|].
    unfold OverflowUint.
    case_bool_decide as Hfit; [|done]. intros [= <-].
    exists val. split; [done|]. split; [done|]. split; [|done].
    rewrite <-Hraw, FormatInt_minus in Hminus.
    by apply bool_decide_eq_false in Hminus; lia.
Qed.

Lemma digit_range (c : ascii) (d : Z) :
  Gjson.digit c = Some d → (0 ≤ d ≤ 9)%Z.
Proof. unfold Gjson.digit. case_decide; [|done]. intros [= <-]. lia. Qed.

(** The digit loop without wrap-around never goes below its start. *)
Lemma parseDigits_le (s : string) :
  ∀ acc v, (0 ≤ acc)%Z → Gjson.parseDigits id acc s = Some v → (acc ≤ v)%Z.
Proof.
  induction s as [|c s IH]; intros acc v Hacc; simpl.
  - intros [= <-]. lia.
  - destruct (Gjson.digit c) as [d|] eqn:Hd; [|done].
    apply digit_range in Hd. unfold id. intros Hv.
    apply IH in Hv; lia.
Qed.

(** On a string of digits the loop of [Strconv.ParseUint] gives the number the
    digits write when it is below [2^64], and the range error
    otherwise. *)
Lemma digitLoop_digits (s : string) :
  ∀ n v, (0 ≤ n < 2 ^ 64)%Z → Gjson.parseDigits id n s = Some v →
         Strconv.digitLoop n s = if decide (v < 2 ^ 64)%Z then Strconv.Value v else Strconv.Range.
Proof.
  induction s as [|c s IH]; intros n v Hn; simpl.
  - intros [= <-]. by rewrite decide_True by lia.
  - destruct (Gjson.digit c) as [d|] eqn:Hd; [|done].
    apply digit_range in Hd. unfold id. intros Hv.
    assert (0 ≤ n * 10 + d)%Z as Hpos by lia.
    pose proof (parseDigits_le _ _ _ Hpos Hv) as Hle.
    unfold Strconv.cutoff, Strconv.maxVal, Gjson.wrap_uint64 in *.
    change ((2 ^ 64 - 1) / 10 + 1)%Z with 1844674407370955162%Z.
    case_decide as Hcut.
    { rewrite decide_False by lia. done. }
    destruct (decide (n * 10 + d < 2 ^ 64)%Z) as [Hfit|Hfit].
    + rewrite Z.mod_small by lia.
      rewrite decide_False by lia. apply IH; [lia|done].
    + assert ((n * 10 + d) mod 2 ^ 64 = n * 10 + d - 2 ^ 64)%Z as ->.
      { symmetry. apply (Z.mod_unique _ _ 1); lia. }
      rewrite decide_True by lia. by rewrite decide_False by lia.
Qed.

Lemma digitLoop_Value (s : string) :
  ∀ n v, (0 ≤ n < 2 ^ 64)%Z → Strconv.digitLoop n s = Strconv.Value v → (0 ≤ v < 2 ^ 64)%Z.
Proof.
  induction s as [|c s IH]; intros n v Hn; simpl.
  - intros [= <-]. lia.
  - destruct (Gjson.digit c) as [d|] eqn:Hd; [|done].
    case_decide; [done|]. case_decide as Hwrap; [done|].
    apply IH. unfold Strconv.maxVal, Gjson.wrap_uint64 in *.
    pose proof (Z.mod_pos_bound (n * 10 + d) (2 ^ 64)). lia.
Qed.

Lemma uint64Of_digits (s : string) (v : Z) :
  s ≠ "" → Gjson.parseDigits id 0 s = Some v →
  Strconv.uint64Of s
  = if decide (v < 2 ^ 64)%Z then Strconv.Value v else Strconv.Range.
Proof.
  intros Hs Hv. destruct s as [|c r] eqn:Heq; [done|]. rewrite <-Heq in *.
  unfold Strconv.uint64Of. rewrite Heq at 1. by apply digitLoop_digits.
Qed.

Lemma ParseInt_digits (s : string) (n : Z) :
  s ≠ "" → Gjson.parseDigits id 0 s = Some n →
  Strconv.ParseInt s
  = if decide (n < 2 ^ 63)%Z then Ok n
    else Err (Strconv.NumError "ParseInt" s Strconv.ErrRange).
Proof.
  intros Hs Hn. unfold Strconv.ParseInt.
  destruct s as [|c r] eqn:Heq; [done|]. rewrite <-Heq in *.
  assert (c ≠ "+"%char ∧ c ≠ "-"%char) as [Hplus Hminus].
  { rewrite Heq in Hn. split; intros ->; by simpl in Hn. }
  cbv zeta. rewrite decide_False by tauto.
  rewrite bool_decide_eq_false_2 by done.
  rewrite (uint64Of_digits _ n) by done. simpl negb.
  rewrite !andb_true_l, !andb_false_l. unfold Strconv.maxVal.
  repeat case_decide; repeat case_bool_decide; done || lia.
Qed.

Lemma ParseInt_minus (r : string) (n : Z) :
  r ≠ "" → Gjson.parseDigits id 0 r = Some n →
  Strconv.ParseInt (String "-" r)
  = if decide (n ≤ 2 ^ 63)%Z then Ok (- n)%Z
    else Err (Strconv.NumError "ParseInt" (String "-" r)
                Strconv.ErrRange).
Proof.
  intros Hr Hn. unfold Strconv.ParseInt. cbv zeta.
  rewrite decide_True by (by right).
  rewrite bool_decide_eq_true_2 by done.
  rewrite (uint64Of_digits _ n) by done. simpl negb.
  rewrite !andb_true_l, !andb_false_l. unfold Strconv.maxVal.
  repeat case_decide; repeat case_bool_decide; done || lia.
Qed.

Lemma pretty_pos_nonempty (p : positive) : pretty (N.pos p) ≠ "".
Proof. by destruct (pretty_pos_digits p) as (c & r & -> & _). Qed.

Lemma ParseInt_FormatInt (z : Z) :
  Strconv.ParseInt (Strconv.FormatInt z)
  = if decide (- 2 ^ 63 ≤ z ≤ 2 ^ 63 - 1)%Z then Ok z
    else Err (Strconv.NumError "ParseInt" (Strconv.FormatInt z)
                Strconv.ErrRange).
Proof.
  destruct z as [|p|p]; [done| |].
  - change (Strconv.FormatInt (Z.pos p)) with (pretty (N.pos p)).
    rewrite (ParseInt_digits _ (Z.pos p));
      [|apply pretty_pos_nonempty|apply (parseDigits_pretty_N (N.pos p))].
    repeat case_decide; done || lia.
  - change (Strconv.FormatInt (Z.neg p))
      with (String "-" (pretty (N.pos p))).
    rewrite (ParseInt_minus _ (Z.pos p));
      [|apply pretty_pos_nonempty|apply (parseDigits_pretty_N (N.pos p))].
    repeat case_decide; done || lia.
Qed.

Lemma ParseUint_FormatInt (z : Z) :
  Strconv.ParseUint (Strconv.FormatInt z)
  = if decide (0 ≤ z)%Z then
      if decide (z < 2 ^ 64)%Z then Ok z
      else Err (Strconv.NumError "ParseUint" (Strconv.FormatInt z)
                  Strconv.ErrRange)
    else Err (Strconv.NumError "ParseUint" (Strconv.FormatInt z)
                Strconv.ErrSyntax).
Proof.
  destruct z as [|p|p]; [done| |done].
  change (Strconv.FormatInt (Z.pos p)) with (pretty (N.pos p)).
  unfold Strconv.ParseUint.
  rewrite (uint64Of_digits _ (Z.pos p));
    [|apply pretty_pos_nonempty|apply (parseDigits_pretty_N (N.pos p))].
  rewrite (decide_True (P := (0 ≤ Z.pos p)%Z)) by lia.
  by repeat case_decide.
Qed.

Lemma ParseUint_range (s : string) (v : Z) :
  Strconv.ParseUint s = Ok v → (0 ≤ v < 2 ^ 64)%Z.
Proof.
  unfold Strconv.ParseUint, Strconv.uint64Of. destruct s as [|c s]; [done|].
  destruct (Strconv.digitLoop 0 (String c s)) as [n| |] eqn:Hn; [|done..].
  intros [= <-]. by apply (digitLoop_Value (String c s) 0).
Qed.

(** The range error is reported before a later byte that is no digit. *)
Lemma ParseUint_range_first :
  Strconv.ParseUint "99999999999999999999x"
  = Err (Strconv.NumError "ParseUint" "99999999999999999999x"
           Strconv.ErrRange)
  ∧ Strconv.ParseInt "99999999999999999999x"
    = Err (Strconv.NumError "ParseInt" "99999999999999999999x"
             Strconv.ErrRange)
  ∧ Strconv.ParseInt "9223372036854775808x"
    = Err (Strconv.NumError "ParseInt" "9223372036854775808x"
             Strconv.ErrSyntax).
Proof. by vm_compute. Qed.

Lemma ParseStringTo_int_FormatInt (k : intKind) (z : Z) :
  ParseStringTo (TInt k) (Strconv.FormatInt z)
  = if decide (- 2 ^ (intBits k - 1) ≤ z ≤ 2 ^ (intBits k - 1) - 1)%Z
    then Ok (IntV k z)
    else if decide (- 2 ^ 63 ≤ z ≤ 2 ^ 63 - 1)%Z
    then Err (OverflowError (TInt k))
    else Err (wrapError
                ("could not parse '" +:+ Strconv.FormatInt z
                 +:+ "' as int: ")
                (Strconv.NumError "ParseInt" (Strconv.FormatInt z)
                   Strconv.ErrRange) "").
Proof.
  unfold ParseStringTo. rewrite ParseInt_FormatInt.
  assert (0 < intBits k ≤ 64)%Z as Hbits by (by destruct k).
  assert (2 ^ (intBits k - 1) ≤ 2 ^ 63)%Z as Hpow
    by (apply Z.pow_le_mono_r; lia).
  unfold OverflowInt.
  repeat case_decide; try case_bool_decide; done || lia.
Qed.

Lemma ParseStringTo_uint_FormatInt (k : uintKind) (z : Z) :
  ParseStringTo (TUint k) (Strconv.FormatInt z)
  = if decide (0 ≤ z < 2 ^ uintBits k)%Z then Ok (UintV k z)
    else if decide (0 ≤ z < 2 ^ 64)%Z
    then Err (OverflowError (TUint k))
    else Err (wrapError
                ("could not parse '" +:+ Strconv.FormatInt z
                 +:+ "' as uint: ")
                (Strconv.NumError "ParseUint" (Strconv.FormatInt z)
                   (if decide (0 ≤ z)%Z then Strconv.ErrRange
                    else Strconv.ErrSyntax)) "").
Proof.
  unfold ParseStringTo. rewrite ParseUint_FormatInt.
  assert (0 < uintBits k ≤ 64)%Z as Hbits by (by destruct k).
  assert (2 ^ uintBits k ≤ 2 ^ 64)%Z as Hpow
    by (apply Z.pow_le_mono_r; lia).
  unfold OverflowUint.
  repeat case_decide; try case_bool_decide; done || lia.
Qed.

(** The digit loop without wrap-around never goes below its start. *)
Lemma parseDigits_nonneg (s : string) :
  ∀ acc v, (0 ≤ acc)%Z → Gjson.parseDigits id acc s = Some v → (0 ≤ v)%Z.
Proof.
  induction s as [|c s IH]; intros acc v Hacc; simpl.
  - by intros [= <-].
  - unfold Gjson.digit. case_decide; [|done]. apply IH. unfold id. lia.
Qed.

(** X2. A URL parameter that is the canonical rendering of an integer: it
    is stored as that integer when it fits the width of the target; when it
    does not fit but is in the range of 64 bits, the error is the integer
    overflow of the package; beyond 64 bits (and, for an unsigned target,
    below zero) the error is the one of the strconv package, wrapped, which
    is no integer overflow.  Whatever the string, a value that is stored
    fits the width. *)
Theorem ParseStringTo_integers :
  (∀ (k : intKind) (z : Z),
     ParseStringTo (TInt k) (Strconv.FormatInt z)
     = if decide (- 2 ^ (intBits k - 1) ≤ z ≤ 2 ^ (intBits k - 1) - 1)%Z
       then Ok (IntV k z)
       else if decide (- 2 ^ 63 ≤ z ≤ 2 ^ 63 - 1)%Z
       then Err (OverflowError (TInt k))
       else Err (wrapError
                   ("could not parse '" +:+ Strconv.FormatInt z
                    +:+ "' as int: ")
                   (Strconv.NumError "ParseInt" (Strconv.FormatInt z)
                      Strconv.ErrRange) ""))
  ∧ (∀ (k : uintKind) (z : Z),
       ParseStringTo (TUint k) (Strconv.FormatInt z)
       = if decide (0 ≤ z < 2 ^ uintBits k)%Z then Ok (UintV k z)
         else if decide (0 ≤ z < 2 ^ 64)%Z
         then Err (OverflowError (TUint k))
         else Err (wrapError
                     ("could not parse '" +:+ Strconv.FormatInt z
                      +:+ "' as uint: ")
                     (Strconv.NumError "ParseUint" (Strconv.FormatInt z)
                        (if decide (0 ≤ z)%Z then Strconv.ErrRange
                         else Strconv.ErrSyntax)) ""))
  ∧ (∀ (k : intKind) (s : string) (v : any),
       ParseStringTo (TInt k) s = Ok v →
       ∃ z, v = IntV k z
            ∧ (- 2 ^ (intBits k - 1) ≤ z ≤ 2 ^ (intBits k - 1) - 1)%Z)
  ∧ (∀ (k : uintKind) (s : string) (v : any),
       ParseStringTo (TUint k) s = Ok v →
       ∃ z, v = UintV k z ∧ (0 ≤ z < 2 ^ uintBits k)%Z)
  ∧ (∀ pre func num err,
       errors_Is (wrapError pre (Strconv.NumError func num err) "")
         "integer overflow" = false).
Proof.
  split_and!.
  - apply ParseStringTo_int_FormatInt.
  - apply ParseStringTo_uint_FormatInt.
  - intros k s v. unfold ParseStringTo.
    destruct (Strconv.ParseInt s) as [val|]; [|done]. unfold OverflowInt.
    case_bool_decide; [|done]. intros [= <-]. eauto.
  - intros k s v. unfold ParseStringTo.
    destruct (Strconv.ParseUint s) as [val|] eqn:Hs; [|done].
    unfold OverflowUint. case_bool_decide; [|done]. intros [= <-].
    exists val. split; [done|]. split; [|done].
    by apply (ParseUint_range s).
  - done.
Qed.

(** X3. A scalar field takes a value from a URL parameter as it takes it
    from the document: a string, a boolean in its JSON spelling, and an
    integer in the range of 64 bits validate to the same result, value or
    error, on both ways. *)
Theorem url_parameter_as_json (range : rangeOrder) (f : View.ViewField) :
  View.array f = false → View.object f = false →
  (View.fieldType f = TString →
     ∀ s, View.validate range f (JString s) = Ret (View.validateRaw f s))
  ∧ (View.fieldType f = TBool →
       View.validate range f JTrue = Ret (View.validateRaw f "true")
       ∧ View.validate range f JFalse = Ret (View.validateRaw f "false"))
  ∧ (∀ k z, View.fieldType f = TInt k →
       (- 2 ^ 63 ≤ z ≤ 2 ^ 63 - 1)%Z →
       View.validate range f (JNumber (Strconv.FormatInt z))
       = Ret (View.validateRaw f (Strconv.FormatInt z)))
  ∧ (∀ k z, View.fieldType f = TUint k →
       (0 ≤ z < 2 ^ 64)%Z →
       View.validate range f (JNumber (Strconv.FormatInt z))
       = Ret (View.validateRaw f (Strconv.FormatInt z))).
Proof.
  intros Harr Hobj. split_and!.
  - intros HT s. rewrite validate_scalar by done.
    unfold View.validateRaw, View.typedString. by rewrite HT.
  - intros HT. rewrite !validate_scalar by done.
    unfold View.validateRaw, View.typedString. by rewrite HT.
  - intros k z HT Hz. rewrite validate_scalar by done.
    unfold View.validateRaw, View.typedString. rewrite HT.
    rewrite typedJson_int_FormatInt.
    rewrite ParseStringTo_int_FormatInt.
    repeat case_decide; done || lia.
  - intros k z HT Hz. rewrite validate_scalar by done.
    unfold View.validateRaw, View.typedString. rewrite HT.
    rewrite typedJson_uint_FormatInt.
    rewrite ParseStringTo_uint_FormatInt.
    repeat case_decide; done || lia.
Qed.

Lemma url_parameter_as_json_witness :
  View.validate keyOrder (View.Field (TInt Int8) "age" [])
    (JNumber "200")
  = Ret (View.validateRaw (View.Field (TInt Int8) "age" []) "200").
Proof.
  destruct (url_parameter_as_json keyOrder
              (View.Field (TInt Int8) "age" []) eq_refl eq_refl)
    as (_ & _ & Hint & _).
  apply (Hint Int8 200%Z eq_refl). lia.
Defined.

(** ** Storing under a dotted key and reading it back *)

Lemma Split_dotted (s : string) (sep : ascii) :
  GoStrings.ContainsByte s sep = true →
  ∃ p q rest, GoStrings.Split s sep = p :: q :: rest.
Proof.
  induction s as [|x s IH]; simpl; [done|].
  destruct (decide (x = sep)) as [->|Hne].
  - intros _. pose proof (Split_nonempty s sep) as Hs.
    destruct (GoStrings.Split s sep) as [|q rest]; [done|]. eauto.
  - intros Hs. destruct (IH Hs) as (p & q & rest & ->). eauto.
Qed.

(** The loop of [Get] over the parts finds what [setNestedField] stored
    under them. *)
Lemma setNestedParts_walk (range : rangeOrder) delegate (val : any)
    (parts : list string) :
  parts ≠ [] →
  ∀ cur cur',
    View.setNestedParts range cur parts val = Ret cur' →
    Internal.walk delegate (DataV cur') parts
    = Internal.Found (match val with DataV v => VO v | _ => val end).
Proof.
  induction parts as [|p [|q rest] IH]; intros Hne cur cur'; [done| |].
  - simpl. intros [= <-]. unfold View.setObjectField.
    destruct val; by rewrite lookup_insert_eq.
  - rewrite setNestedParts_step.
    assert (∀ m, (m' ←! View.setNestedParts range m (q :: rest) val;
                  Ret (<[p := DataV m']> cur)) = Ret cur' →
                 Internal.walk delegate (DataV cur') (p :: q :: rest)
                 = Internal.Found
                     (match val with DataV v => VO v | _ => val end))
      as Hstep.
    { intros m Hm.
      destruct (View.setNestedParts range m (q :: rest) val) as [m'|] eqn:Hm';
        [|done].
      injection Hm as <-.
      change (Internal.walk delegate (DataV (<[p := DataV m']> cur))
                (p :: q :: rest))
        with (match <[p := DataV m']> cur !! p with
              | None => Internal.Absent
              | Some nextValue => Internal.walk delegate nextValue (q :: rest)
              end).
      rewrite lookup_insert_eq. by apply IH in Hm'. }
    destruct (cur !! p) as [[| | | | | | |m|vo|]|]; try apply Hstep.
    destruct (View.fieldsToData range vo) as [inner|]; [|done].
    apply Hstep.
Qed.

(** Outside the first part of the key the object is not touched. *)
Lemma setNestedParts_frame (range : rangeOrder) (val : any)
    (parts : list string) (cur cur' : gmap string any) (k : string) :
  View.setNestedParts range cur parts val = Ret cur' →
  head parts ≠ Some k → cur' !! k = cur !! k.
Proof.
  destruct parts as [|p [|q rest]].
  - by intros [= <-].
  - simpl. intros [= <-] Hk. unfold View.setObjectField.
    destruct val; rewrite lookup_insert_ne; congruence.
  - rewrite setNestedParts_step. intros Hset Hk.
    assert (∀ m, (m' ←! View.setNestedParts range m (q :: rest) val;
                  Ret (<[p := DataV m']> cur)) = Ret cur' →
                 cur' !! k = cur !! k) as Hstep.
    { intros m Hm.
      destruct (View.setNestedParts range m (q :: rest) val); [|done].
      injection Hm as <-. rewrite lookup_insert_ne; [done|].
      simpl in Hk. congruence. }
    destruct (cur !! p) as [[| | | | | | |m|vo|]|]; try by eapply Hstep.
    destruct (View.fieldsToData range vo) as [inner|]; [|done].
    by eapply Hstep.
Qed.

(** X4. A value stored by [setNestedField] under a key, dotted or not, is
    what [Get] returns for that key: the value itself, or the object of
    the view that wraps it when it is a plain [Data].  The key must not
    be shadowed: when it has a dot, the object holds no entry under the
    whole key.  Entries under other first parts are left as they were. *)
Theorem setNestedField_Get (range : rangeOrder)
    (object object' : gmap string any) (key : string) (val : any) :
  View.setNestedField range object key val = Ret object' →
  val ≠ Nil →
  (GoStrings.ContainsByte key "." = true → object !! key = None) →
  Internal.Get Internal.AnyType object' key
  = Ret (Some (match val with DataV v => VO v | _ => val end))
  ∧ (∀ k, head (GoStrings.Split key ".") ≠ Some k →
       object' !! k = object !! k).
Proof.
  intros Hset Hval Hshadow. split;
    [|intros k; by apply (setNestedParts_frame range val _ object)].
  unfold View.setNestedField in Hset.
  assert (Internal.assertType Internal.AnyType
            (match val with DataV v => VO v | _ => val end) = true)
    as Hassert by (by destruct val).
  destruct (GoStrings.ContainsByte key ".") eqn:Hdot.
  - destruct (Split_dotted key "." Hdot) as (p & q & rest & Hparts).
    assert (object' !! key = None) as Hnone.
    { rewrite (setNestedParts_frame range val _ object object' key Hset);
        [by apply Hshadow|].
      rewrite Hparts. simpl. intros [= ->].
      pose proof (Split_parts key ".") as Hp. rewrite Hparts in Hp.
      apply Forall_inv in Hp. congruence. }
    rewrite Get_walk by done.
    rewrite (setNestedParts_walk range _ val _ (Split_nonempty key ".")
               object object' Hset).
    by rewrite Hassert.
  - rewrite Split_plain in Hset by done. simpl in Hset.
    injection Hset as <-.
    rewrite (Get_literal _ _ _
               (match val with DataV v => VO v | _ => val end)).
    + by rewrite Hassert.
    + unfold View.setObjectField. destruct val; by rewrite lookup_insert_eq.
Qed.

Lemma setNestedField_Get_witness :
  Internal.Get Internal.AnyType
    (<["account" := DataV {[ "email" := Str "a@b.c" ]}]> {[ "id" := Str "1" ]})
    "account.email"
  = Ret (Some (Str "a@b.c"))
  ∧ (<["account" := DataV {[ "email" := Str "a@b.c" ]}]>
       ({[ "id" := Str "1" ]} : gmap string any)) !! "id"
    = ({[ "id" := Str "1" ]} : gmap string any) !! "id".
Proof.
  assert (View.setNestedField keyOrder {[ "id" := Str "1" ]} "account.email"
            (Str "a@b.c")
          = Ret (<["account" := DataV {[ "email" := Str "a@b.c" ]}]>
                   {[ "id" := Str "1" ]})) as Hset by (by vm_compute).
  destruct (setNestedField_Get keyOrder _ _ _ _ Hset) as [Hget Hframe];
    [done|done|].
  split; [exact Hget|]. by apply Hframe.
Defined.

(** ** The checks of the constructors *)

Lemma validatorLoop_Ok (name : string) (vfs : list ValidateFunc) :
  ∀ names nf nf',
    Checked.validatorLoop name vfs names nf = Ok nf'
    ↔ NoDup vfs.*1 ∧ (∀ n, n ∈ vfs.*1 → n ∉ names)
      ∧ nf' = (nf ++ vfs.*2)%list.
Proof.
  induction vfs as [|[n f] vfs IH]; intros names nf nf'; simpl.
  - rewrite app_nil_r. split.
    + intros [= <-]. split; [constructor|]. split; [|done].
      by intros n ?%elem_of_nil.
    + by intros (_ & _ & ->).
  - case_decide as Hn.
    + split; [done|]. intros (_ & Hnames & _). destruct (Hnames n); [left|done].
    + rewrite IH, NoDup_cons, <-(assoc_L (++)). simpl. split.
      * intros (Hnd & Hnames & ->). split_and!; [|done| |done].
        -- intros Hin. apply (Hnames n Hin).
           apply elem_of_union. left. by apply elem_of_singleton.
        -- intros m [->|Hm]%elem_of_cons; [done|].
           intros Hm'. apply (Hnames m Hm). apply elem_of_union. by right.
      * intros ((Hn' & Hnd) & Hnames & ->). split_and!; [done| |done].
        intros m Hm [->%elem_of_singleton|Hm']%elem_of_union; [done|].
        apply (Hnames m); [by right|done].
Qed.

Lemma Name_plain (f : View.ViewField) :
  GoStrings.ContainsByte (View.qualifiedName f) "." = false →
  View.Name f = View.qualifiedName f
  ∧ View.UniqueName f = View.qualifiedName f.
Proof.
  intros Hdot. unfold View.UniqueName, View.Name.
  assert (∀ s, GoStrings.ContainsByte s "." = false →
               GoStrings.AfterLast s "." = None) as Hlast.
  { induction s as [|c s IH]; simpl; [done|].
    case_decide; [done|]. intros Hs. by rewrite IH. }
  rewrite Hlast by done. by repeat case_decide.
Qed.

(** X5. The constructor of fields.  [trait], and with it [Field],
    [ArrayField], [ObjectField] and [ArrayOfObjectField], returns a field
    exactly when the name holds neither a dot nor a hash sign and no two
    validators have the same name; otherwise it panics.  The field it
    returns is required, carries the validators in the order given, and
    its name, its qualified name and its unique name are the name given,
    so that its value is stored under one top-level key. *)
Theorem trait_checked (T : FieldType) (name : string)
    (isArray isObject : bool) (nested : option View.Schema)
    (vfs : list ValidateFunc) :
  (∀ f, Checked.trait T name isArray isObject nested vfs = Ok f
        ↔ (GoStrings.ContainsByte name "." = false
           ∧ GoStrings.ContainsByte name "#" = false
           ∧ NoDup vfs.*1)
          ∧ f = View.trait T name isArray isObject nested vfs)
  ∧ (∀ f, Checked.trait T name isArray isObject nested vfs = Ok f →
          View.Name f = name ∧ View.UniqueName f = name
          ∧ View.Required f = true
          ∧ View.validators f = vfs.*2
          ∧ GoStrings.Split (View.UniqueName f) "." = [name]).
Proof.
  assert (Hiff : ∀ f, Checked.trait T name isArray isObject nested vfs = Ok f
        ↔ (GoStrings.ContainsByte name "." = false
           ∧ GoStrings.ContainsByte name "#" = false
           ∧ NoDup vfs.*1)
          ∧ f = View.trait T name isArray isObject nested vfs).
  { intros f. unfold Checked.trait.
    destruct (GoStrings.ContainsByte name ".");
      [simpl; split; [done|by intros [[? _] _]]|].
    destruct (GoStrings.ContainsByte name "#");
      [simpl; split; [done|by intros [(_ & ? & _) _]]|].
    simpl.
    destruct (Checked.validatorLoop name vfs ∅ []) as [nf|c] eqn:Hloop.
    - apply validatorLoop_Ok in Hloop as (Hnd & _ & ->). simpl.
      split; [by intros [= <-]|by intros [_ ->]].
    - split; [done|]. intros [(_ & _ & Hnd) _].
      assert (Checked.validatorLoop name vfs ∅ [] = Ok ([] ++ vfs.*2)%list)
        as Hok.
      { apply validatorLoop_Ok. split; [done|]. split; [|done].
        intros n _. apply not_elem_of_empty. }
      congruence. }
  split; [done|]. intros f [(Hdot & _ & _) ->]%Hiff.
  destruct (Name_plain (View.trait T name isArray isObject nested vfs) Hdot)
    as [HN HU].
  rewrite HU, HN. split_and!; try done. by apply Split_plain.
Qed.

Lemma nameLoop_None (fs : list View.ViewField) :
  ∀ names,
    Checked.nameLoop fs names = None
    ↔ NoDup (View.Name <$> fs) ∧ (∀ f, f ∈ fs → View.Name f ∉ names).
Proof.
  induction fs as [|f fs IH]; intros names; simpl.
  - split; [|done]. intros _. split; [constructor|]. by intros f ?%elem_of_nil.
  - case_decide as Hn.
    + split; [done|]. intros [_ Hnames]. destruct (Hnames f); [left|done].
    + rewrite IH, NoDup_cons. split.
      * intros [Hnd Hnames]. split_and!; [|done|].
        -- intros (g & Hg & Hin)%list_elem_of_fmap.
           apply (Hnames g Hin). rewrite <-Hg.
           apply elem_of_union. left. by apply elem_of_singleton.
        -- intros g [->|Hg]%elem_of_cons; [done|].
           intros Hin. apply (Hnames g Hg). apply elem_of_union. by right.
      * intros [[Hf Hnd] Hnames]. split; [done|].
        intros g Hg [Heq%elem_of_singleton|Hin]%elem_of_union.
        -- apply Hf. rewrite <-Heq. by apply list_elem_of_fmap_2.
        -- apply (Hnames g); [by right|done].
Qed.

(** The name a loop reports is the first one that occurs twice. *)
Lemma nameLoop_Some (fs : list View.ViewField) :
  ∀ names name,
    Checked.nameLoop fs names = Some name →
    ∃ pre f post,
      fs = (pre ++ f :: post)%list ∧ View.Name f = name
      ∧ (name ∈ names ∨ name ∈ View.Name <$> pre)
      ∧ Checked.nameLoop pre names = None.
Proof.
  induction fs as [|f fs IH]; intros names name; simpl; [done|].
  case_decide as Hn.
  - intros [= <-]. exists [], f, fs. split_and!; auto.
  - intros (pre & g & post & -> & Hg & Hin & Hpre)%IH.
    exists (f :: pre), g, post. split_and!; [done|done| |].
    + destruct Hin as [[->%elem_of_singleton|?]%elem_of_union|?].
      * right. rewrite fmap_cons. left.
      * by left.
      * right. rewrite fmap_cons. by right.
    + simpl. by rewrite decide_False.
Qed.

Lemma qualifiedLoop_None (fs : list View.ViewField) :
  ∀ qnames,
    NoDup (View.qualifiedName <$> fs) →
    (∀ f, f ∈ fs → View.qualifiedName f ∉ qnames) →
    Checked.qualifiedLoop fs qnames = None.
Proof.
  induction fs as [|f fs IH]; intros qnames; simpl; [done|].
  rewrite NoDup_cons. intros [Hf Hnd] Hq.
  case_decide; [apply IH; [done|]; intros g Hg; apply Hq; by right|].
  rewrite decide_False by (apply Hq; left).
  apply IH; [done|].
  intros g Hg [Heq%elem_of_singleton|Hin]%elem_of_union.
  - apply Hf. rewrite <-Heq. by apply list_elem_of_fmap_2.
  - apply (Hq g); [by right|done].
Qed.

Lemma NoDup_Name_qualifiedName (fs : list View.ViewField) :
  NoDup (View.Name <$> fs) → NoDup (View.qualifiedName <$> fs).
Proof.
  set (nameOf := λ q : string,
         if decide (q = "") then ""
         else match GoStrings.AfterLast q "." with
              | Some t => t
              | None => q
              end).
  assert (View.Name <$> fs = nameOf <$> (View.qualifiedName <$> fs)) as ->.
  { rewrite <-list_fmap_compose. by apply list_fmap_ext. }
  apply NoDup_fmap_1.
Qed.

(** X6. The constructor of schemas.  [WithFields] returns the schema of
    the fields given, with unknown fields refused, exactly when no two
    fields have the same name, and panics otherwise with the first name
    that occurs twice.  Its second check, on the qualified names, never
    fails: two fields of one qualified name have one name. *)
Theorem WithFields_checked (fs : list View.ViewField) :
  (∀ s, Checked.WithFields fs = Ok s
        ↔ NoDup (View.Name <$> fs) ∧ s = View.WithFields fs)
  ∧ (∀ qn, Checked.WithFields fs ≠ Err (Checked.DuplicateQualifiedName qn))
  ∧ (∀ name, Checked.WithFields fs = Err (Checked.DuplicateFieldName name) →
       ∃ pre f post,
         fs = (pre ++ f :: post)%list ∧ View.Name f = name
         ∧ name ∈ View.Name <$> pre ∧ NoDup (View.Name <$> pre)).
Proof.
  unfold Checked.WithFields.
  destruct (Checked.nameLoop fs ∅) as [name|] eqn:Hloop.
  - split_and!.
    + intros s. split; [done|]. intros [Hnd _].
      assert (Checked.nameLoop fs ∅ = None) as Hnone.
      { apply nameLoop_None. split; [done|].
        intros f _. apply not_elem_of_empty. }
      congruence.
    + done.
    + intros name' [= <-].
      apply nameLoop_Some in Hloop as (pre & f & post & -> & Hf & Hin & Hpre).
      exists pre, f, post. split_and!; [done|done| |].
      { by destruct Hin as [?%not_elem_of_empty|?]. }
      by apply nameLoop_None in Hpre as [? _].
  - apply nameLoop_None in Hloop as [Hnd _].
    rewrite qualifiedLoop_None;
      [|by apply NoDup_Name_qualifiedName
       |intros f _; apply not_elem_of_empty].
    split_and!; [|done|done].
    intros s. split; [by intros [= <-]|by intros [_ ->]].
Qed.

Lemma Extend_Ok (s another s' : View.Schema) :
  Checked.Extend s another = Ok s'
  ↔ NoDup (View.Name <$> (View.fields s ++ View.fields another)%list)
    ∧ s' = View.mkSchema
             (View.fields s ++ View.fields another)%list
             (View.allowUnknownFields s || View.allowUnknownFields another).
Proof.
  unfold Checked.Extend. cbv zeta.
  destruct (Checked.nameLoop _ ∅) as [name|] eqn:Hloop.
  - split; [done|]. intros [Hnd _].
    assert (Checked.nameLoop
              (View.fields s ++ View.fields another)%list ∅ = None)
      as Hnone.
    { apply nameLoop_None. split; [done|].
      intros f _. apply not_elem_of_empty. }
    congruence.
  - apply nameLoop_None in Hloop as [Hnd _].
    split; [by intros [= <-]|by intros [_ ->]].
Qed.

Lemma WithFields_Ok (fs : list View.ViewField) :
  NoDup (View.Name <$> fs) →
  Checked.WithFields fs = Ok (View.WithFields fs).
Proof.
  intros Hnd. unfold Checked.WithFields.
  assert (Checked.nameLoop fs ∅ = None) as ->.
  { apply nameLoop_None. split; [done|]. intros f _. apply not_elem_of_empty. }
  rewrite qualifiedLoop_None;
    [done|by apply NoDup_Name_qualifiedName
    |intros f _; apply not_elem_of_empty].
Qed.

(** X7. [Extend] returns a new schema with the fields of the receiver
    followed by those of its argument, permissive when either is, exactly
    when no name occurs twice among all these fields, and panics
    otherwise; then each of the two schemas has distinct names, the
    extension the other way round succeeds too, and [WithFields] accepts
    the fields of the result. *)
Theorem Extend_checked (s another : View.Schema) :
  (∀ s', Checked.Extend s another = Ok s'
         ↔ NoDup (View.Name <$> (View.fields s ++ View.fields another)%list)
           ∧ s' = View.mkSchema
                    (View.fields s ++ View.fields another)%list
                    (View.allowUnknownFields s
                     || View.allowUnknownFields another))
  ∧ (∀ s', Checked.Extend s another = Ok s' →
       NoDup (View.Name <$> View.fields s)
       ∧ NoDup (View.Name <$> View.fields another)
       ∧ (∃ s'', Checked.Extend another s = Ok s'')
       ∧ Checked.WithFields (View.fields s')
         = Ok (View.WithFields (View.fields s'))).
Proof.
  split; [intros s'; apply Extend_Ok|].
  intros s' [Hnd ->]%Extend_Ok. simpl.
  pose proof Hnd as Hnd'. rewrite fmap_app in Hnd'.
  apply NoDup_app in Hnd' as (Hs & Hdisj & Ha).
  split_and!; [done|done| |by apply WithFields_Ok].
  eexists. apply Extend_Ok. split; [|done].
  rewrite fmap_app. rewrite fmap_app in Hnd.
  by rewrite (comm (++)).
Qed.

(** ** The error of a validation *)

(** X8. The error [Validate] returns is the message [invalid json],
    followed by the text, when the text is no valid JSON, and in every
    other case an aggregate that holds one entry at least, which
    [errors.As] finds. *)
Theorem Validate_error_shape (range : rangeOrder) (s : View.Schema)
    (json : document) (urlParams : list (gmap string string)) (e : error) :
  View.Validate range s json urlParams = Ret (Err e) →
  (∃ text, json = Malformed text
           ∧ e = errorString ("invalid json " +:+ text))
  ∨ (∃ errors, e = validationError errors ∧ errors ≠ ∅
               ∧ errors_As e = Some errors
               ∧ (∀ text, json ≠ Malformed text)).
Proof.
  assert (Herr : ∀ errs e', View.err errs = Some e' →
            ∃ errors, e' = validationError errors ∧ errors ≠ ∅
                      ∧ errors_As e' = Some errors).
  { intros errs e'. unfold View.err. case_decide; [done|].
    intros [= <-]. eauto. }
  rewrite Validate_unfold.
  destruct json as [|text|j]; [|intros [= <-]; left; eauto|]; cbv zeta;
    (destruct (View.err (View.structuralPhase _ _ _ _).1) as [e0|] eqn:He0;
     [intros [= <-]; right;
      destruct (Herr _ _ He0) as (errors & -> & ? & ?); eauto 6|]);
    (destruct (foldlM _ _ _) as [st|]; [|done]); simpl;
    (destruct (View.err st.2) as [e1|] eqn:He1; [|done]);
    intros [= <-]; right;
    destruct (Herr _ _ He1) as (errors & -> & ? & ?); eauto 6.
Qed.

Lemma Validate_error_shape_witness :
  ∃ errors,
    validationError
      {[ "extra" := errorString "unknown json field 'extra'" ]}
    = validationError errors
    ∧ errors ≠ ∅.
Proof.
  destruct (Validate_error_shape keyOrder
              (View.WithFields [View.Field TString "id" []])
              (Doc (JObject [("extra", JString "x")])) []
              (validationError
                 {[ "extra" := errorString "unknown json field 'extra'" ]}))
    as [(text & Habs & _)|(errors & He & Hne & _)];
    [by vm_compute|done|].
  by exists errors.
Defined.

(** ** A parameter given twice *)

Lemma voFieldsOf_lookup (s : View.Schema) (k : string) :
  is_Some (View.voFieldsOf s !! k) ↔ k ∈ View.Name <$> View.fields s.
Proof.
  unfold View.voFieldsOf.
  assert (∀ fs (m : gmap string bool),
            is_Some (foldl (λ m field,
                       <[View.Name field
                         := View.IsArray field || View.IsObject field]> m)
                     m fs !! k)
            ↔ is_Some (m !! k) ∨ k ∈ View.Name <$> fs) as Hgen.
  { induction fs as [|f fs IH]; intros m; simpl.
    - split; [by left|]. by intros [?|?%elem_of_nil].
    - rewrite IH, lookup_insert. case_decide as Hk.
      + subst k. split; [intros _; right; left|intros _; left; by eexists].
      + split; (intros [?|?]; [by left|right]); [by right|].
        by apply elem_of_cons in H as [?|?]. }
  rewrite Hgen, lookup_empty. split; [by intros [[? ?]|?]|by right].
Qed.

Lemma urlParam_keys (s : View.Schema) (voFields : gmap string bool)
    (l : list (string * string)) (k : string) :
  ∀ st,
    is_Some (st.2 !! k) ∨ k ∈ l.*1 →
    is_Some ((foldl (View.urlParam s voFields) st l).2 !! k).
Proof.
  induction l as [|[k' v] l IH]; intros st; simpl.
  - by intros [?|?%elem_of_nil].
  - intros Hk. apply IH. destruct st as [errs urlPair]. simpl.
    rewrite lookup_insert. case_decide; [left; by eexists|].
    destruct Hk as [?|[?|?]%elem_of_cons]; [by left|done|by right].
Qed.

Section Conflict.
Variable range : rangeOrder.
Hypothesis valid : rangeOrder_valid range.

Lemma mergeUrlParams_present (s : View.Schema) (voFields : gmap string bool)
    (urlParams : list (gmap string string)) (pair : gmap string string)
    (k : string) :
  pair ∈ urlParams → is_Some (pair !! k) →
  is_Some ((View.mergeUrlParams range s voFields urlParams).2 !! k).
Proof.
  intros Hpair [v Hv]. unfold View.mergeUrlParams.
  assert (∀ st : gmap string error * gmap string string,
            is_Some (st.2 !! k) ∨ pair ∈ urlParams →
            is_Some ((foldl (λ st pair,
                        foldl (View.urlParam s voFields) st
                          (range string pair))
                      st urlParams).2 !! k)) as Hgen.
  { clear Hpair. induction urlParams as [|p ps IH]; intros st; simpl.
    - by intros [?|?%elem_of_nil].
    - intros Hk. apply IH.
      destruct Hk as [?|[->|?]%elem_of_cons]; [left|left|by right].
      + apply urlParam_keys. by left.
      + apply urlParam_keys. right.
        apply list_elem_of_fmap. exists (k, v). split; [done|].
        by apply (range_elem_of range). }
  apply Hgen. by right.
Qed.

(** The loop over the keys of the document writes the entry of a key that
    the URL parameters hold too, and leaves it to no later key. *)
Lemma jsonKey_conflict (s : View.Schema) (voFields : gmap string bool)
    (urlPair : gmap string string) (k : string) (keys : list string) :
  is_Some (urlPair !! k) → k ∈ keys →
  ∀ errs,
    foldl (View.jsonKey s voFields urlPair) errs keys !! k
    = Some (if View.allowUnknownFields s
               || bool_decide (is_Some (voFields !! k))
            then errorString ("duplicate parameter in url and json '"
                              +:+ k +:+ "'")
            else errorString ("unknown json field '" +:+ k +:+ "'")).
Proof.
  intros [v Hv].
  assert (Hstep : ∀ errs,
    View.jsonKey s voFields urlPair errs k !! k
    = Some (if View.allowUnknownFields s
               || bool_decide (is_Some (voFields !! k))
            then errorString ("duplicate parameter in url and json '"
                              +:+ k +:+ "'")
            else errorString ("unknown json field '" +:+ k +:+ "'"))).
  { intros errs. unfold View.jsonKey. rewrite Hv.
    destruct (View.allowUnknownFields s); simpl;
      [by rewrite lookup_insert_eq|].
    destruct (voFields !! k) eqn:Hf; simpl; by rewrite lookup_insert_eq. }
  assert (Hother : ∀ errs j, j ≠ k →
    View.jsonKey s voFields urlPair errs j !! k = errs !! k).
  { intros errs j Hj. unfold View.jsonKey, View.add.
    destruct (urlPair !! j), (View.allowUnknownFields s), (voFields !! j);
      by rewrite ?lookup_insert_ne. }
  induction keys as [|j keys IH]; intros Hin errs;
    [by apply elem_of_nil in Hin|].
  simpl. destruct (decide (k ∈ keys)) as [Hk|Hk]; [by apply IH|].
  apply elem_of_cons in Hin as [<-|?]; [|done].
  assert (∀ errs', foldl (View.jsonKey s voFields urlPair) errs' keys !! k
                   = errs' !! k) as ->; [|apply Hstep].
  clear -Hk Hother. induction keys as [|j keys IH]; intros errs'; [done|].
  apply not_elem_of_cons in Hk as [Hne Hk]. simpl.
  rewrite IH by done. by apply Hother.
Qed.

(** X9. A key that both the document and a URL parameter map hold makes
    the validation fail in its first phase, whatever the schema declares:
    the aggregate has an entry under the key, which reports the duplicate
    when the schema is permissive or declares a field of that name, and an
    unknown JSON field otherwise. *)
Theorem url_json_conflict (s : View.Schema) (json : document)
    (urlParams : list (gmap string string)) (pair : gmap string string)
    (k : string) :
  k ∈ Gjson.keys json → pair ∈ urlParams → is_Some (pair !! k) →
  ∃ errors,
    View.Validate range s json urlParams = Ret (Err (validationError errors))
    ∧ errors = (View.structuralPhase range s json urlParams).1
    ∧ errors !! k
      = Some (if View.allowUnknownFields s
                 || bool_decide (k ∈ View.Name <$> View.fields s)
              then errorString ("duplicate parameter in url and json '"
                                +:+ k +:+ "'")
              else errorString ("unknown json field '" +:+ k +:+ "'")).
Proof.
  intros Hk Hpair Hpk.
  assert ((View.structuralPhase range s json urlParams).1 !! k
          = Some (if View.allowUnknownFields s
                     || bool_decide (k ∈ View.Name <$> View.fields s)
                  then errorString ("duplicate parameter in url and json '"
                                    +:+ k +:+ "'")
                  else errorString ("unknown json field '" +:+ k +:+ "'")))
    as Hentry.
  { unfold View.structuralPhase. cbv zeta. simpl.
    rewrite jsonKey_conflict;
      [|by apply (mergeUrlParams_present _ _ _ pair)|done].
    by rewrite (bool_decide_ext _ _ (voFieldsOf_lookup s k)). }
  exists (View.structuralPhase range s json urlParams).1.
  split; [|done]. rewrite Validate_unfold.
  destruct json as [|text|j]; [by apply elem_of_nil in Hk..|].
  cbv zeta. rewrite err_non_empty; [done|].
  intros Hempty. by rewrite Hempty, lookup_empty in Hentry.
Qed.

End Conflict.

Lemma url_json_conflict_witness :
  ∃ errors,
    View.Validate keyOrder
      (View.AllowUnknownFields (View.WithFields [View.Field TString "id" []]))
      (Doc (JObject [("id", JString "1")])) [ {[ "id" := "2" ]} ]
    = Ret (Err (validationError errors))
    ∧ errors !! "id"
      = Some (errorString "duplicate parameter in url and json 'id'").
Proof.
  destruct (url_json_conflict keyOrder keyOrder_valid
              (View.AllowUnknownFields
                 (View.WithFields [View.Field TString "id" []]))
              (Doc (JObject [("id", JString "1")])) [ {[ "id" := "2" ]} ]
              {[ "id" := "2" ]} "id")
    as (errors & Hvalidate & _ & Hentry).
  - left.
  - left.
  - by eexists.
  - exists errors. split; [done|]. exact Hentry.
Defined.

(** ** What a successful validation stores *)

Lemma err_None (errs : gmap string error) : View.err errs = None → errs = ∅.
Proof. unfold View.err. by case_decide. Qed.

Lemma typedJson_error_plain (T : FieldType) (node : json) (e : error) :
  (∀ n a b, T ≠ TLib n a b) →
  View.typedJson T node = Err e → errors_As e = None.
Proof.
  intros HT. destruct T as [| |k|k|n a b]; [..|by destruct (HT n a b)];
    unfold View.typedJson.
  - destruct node; by intros [= <-].
  - destruct node; by intros [= <-].
  - destruct node; try by intros [= <-].
    destruct (Gjson.Int raw) as [val|]; repeat case_decide;
      destruct (GoStrings.ContainsByte raw "."); try by intros [= <-].
    all: by destruct (OverflowInt k val); intros [= <-].
  - destruct node; try by intros [= <-].
    destruct (GoStrings.ContainsByte raw "-"); [by intros [= <-]|].
    destruct (Gjson.Uint raw) as [val|]; repeat case_decide;
      destruct (GoStrings.ContainsByte raw "."); try by intros [= <-].
    all: by destruct (OverflowUint k val); intros [= <-].
Qed.

Lemma typedJson_type (T : FieldType) (node : json) (val : any) :
  View.typedJson T node = Ok val → typeOf val = Some (goTypeOf T).
Proof.
  destruct T as [| |k|k|n a b]; unfold View.typedJson.
  - destruct node; by intros [= <-].
  - destruct node; by intros [= <-].
  - destruct node; try done.
    destruct (Gjson.Int raw) as [v|]; repeat case_decide;
      destruct (GoStrings.ContainsByte raw "."); try done.
    all: by destruct (OverflowInt k v); intros [= <-].
  - destruct node; try done.
    destruct (GoStrings.ContainsByte raw "-"); [done|].
    destruct (Gjson.Uint raw) as [v|]; repeat case_decide;
      destruct (GoStrings.ContainsByte raw "."); try done.
    all: by destruct (OverflowUint k v); intros [= <-].
  - destruct (a node); by intros [= <-].
Qed.

Lemma firstError_plain (vs : list Validator) (val : any) (e : error) :
  (∀ v x e', v ∈ vs → v x = Some e' → errors_As e' = None) →
  View.firstError vs val = Some e → errors_As e = None.
Proof.
  induction vs as [|v vs IH]; intros Hvs; simpl; [done|].
  destruct (v val) as [e'|] eqn:Hv.
  - intros [= <-]. apply (Hvs v val); [left|done].
  - apply IH. intros v' x e' Hin. apply Hvs. by right.
Qed.

(** A name without path syntax holds no dot: the name of such a field is
    its qualified name. *)
Lemma plain_no_dot (path : string) :
  Gjson.plain path = true → GoStrings.ContainsByte path "." = false.
Proof.
  unfold Gjson.plain. simpl. intros H. apply andb_prop in H as [H _].
  by apply negb_true_iff in H.
Qed.

Section Stored.
Variable range : rangeOrder.
Hypothesis valid : rangeOrder_valid range.

(** A field of a plain name writes under that name only. *)
Lemma fieldStep_frame (json : document) (urlPair : gmap string string)
    (st st' : gmap string any * gmap string error) (g : View.ViewField)
    (k : string) :
  GoStrings.ContainsByte (View.qualifiedName g) "." = false →
  View.Name g ≠ k →
  View.fieldStep range json urlPair st g = Ret st' →
  st'.1 !! k = st.1 !! k.
Proof.
  intros Hplain Hk. destruct (Name_plain g Hplain) as [HN HU].
  assert (∀ rs, View.storeResult range g st rs = Ret st' →
                st'.1 !! k = st.1 !! k) as Hstore.
  { intros [val|e]; destruct st as [object errs].
    - unfold View.storeResult.
      destruct (View.setNestedField range object (View.UniqueName g) val)
        as [object'|] eqn:Hset; [|done].
      intros [= <-]. simpl. unfold View.setNestedField in Hset.
      apply (setNestedParts_frame range val _ object object' k Hset).
      rewrite HU, <-HN, Split_plain by (by rewrite HN). simpl. congruence.
    - rewrite storeResult_Err by done. by intros [= <-]. }
  unfold View.fieldStep.
  destruct (Gjson.Get json (View.Name g)) as [node|].
  - destruct (View.validate range g node) as [rs|]; [|done]. apply Hstore.
  - destruct (urlPair !! View.Name g); [apply Hstore|]. by intros [= <-].
Qed.

Lemma foldlM_fieldStep_frame (json : document) (urlPair : gmap string string)
    (fs : list View.ViewField) (k : string) :
  (∀ g, g ∈ fs →
     GoStrings.ContainsByte (View.qualifiedName g) "." = false
     ∧ View.Name g ≠ k) →
  ∀ st st',
    foldlM (View.fieldStep range json urlPair) st fs = Ret st' →
    st'.1 !! k = st.1 !! k.
Proof.
  induction fs as [|g fs IH]; intros Hfs st st'; simpl; [by intros [= <-]|].
  destruct (View.fieldStep range json urlPair st g) as [st1|] eqn:Hstep;
    [|done].
  simpl. intros Hrest.
  rewrite (IH (λ g' Hg', Hfs g' (list_elem_of_further _ _ _ Hg'))
             st1 st' Hrest).
  destruct (Hfs g) as [Hplain Hk]; [left|].
  by apply (fieldStep_frame json urlPair st st1 g k).
Qed.

(** When the loop over the fields ends with no error, it had none on the
    way. *)
Lemma foldlM_fieldStep_no_error (json : document)
    (urlPair : gmap string string) (fs : list View.ViewField)
    (st st' : gmap string any * gmap string error) :
  foldlM (View.fieldStep range json urlPair) st fs = Ret st' →
  st'.2 = ∅ → st.2 = ∅.
Proof.
  intros Hfold Hempty. apply map_empty. intros k.
  apply eq_None_not_Some. intros Hk.
  pose proof (foldlM_fieldStep_keeps_keys range valid json urlPair fs k
                st st' Hfold Hk) as [e He].
  by rewrite Hempty, lookup_empty in He.
Qed.

(** The two phases of a successful validation. *)
Lemma Validate_Ok_phases (s : View.Schema) (json : document)
    (urlParams : list (gmap string string)) (vo : gmap string any) :
  View.Validate range s json urlParams = Ret (Ok vo) →
  (View.structuralPhase range s json urlParams).1 = ∅
  ∧ ∃ object,
      foldlM (View.fieldStep range json
                (View.structuralPhase range s json urlParams).2)
        (∅, ∅) (View.fields s) = Ret (object, ∅)
      ∧ vo = if View.allowUnknownFields s
             then object
                  ∪ (Str <$> (View.structuralPhase range s json urlParams).2)
             else object.
Proof.
  rewrite Validate_unfold.
  assert (
    match View.err (View.structuralPhase range s json urlParams).1 with
    | Some e => Ret (Err e)
    | None =>
        st ←! foldlM (View.fieldStep range json
                        (View.structuralPhase range s json urlParams).2)
                (∅, (View.structuralPhase range s json urlParams).1)
                (View.fields s);
        Ret (match View.err st.2 with
             | Some e => Err e
             | None =>
                 Ok (if View.allowUnknownFields s
                     then View.addUrlParams range st.1
                            (View.structuralPhase range s json urlParams).2
                     else st.1)
             end)
    end = Ret (Ok vo) →
    (View.structuralPhase range s json urlParams).1 = ∅
    ∧ ∃ object,
        foldlM (View.fieldStep range json
                  (View.structuralPhase range s json urlParams).2)
          (∅, ∅) (View.fields s) = Ret (object, ∅)
        ∧ vo = if View.allowUnknownFields s
               then object
                    ∪ (Str <$> (View.structuralPhase range s json urlParams).2)
               else object) as Hphases.
  { destruct (View.err (View.structuralPhase range s json urlParams).1)
      as [e|] eqn:He0; [done|].
    apply err_None in He0. rewrite He0.
    destruct (foldlM _ _ _) as [[object errs]|] eqn:Hfold; [|done]. simpl.
    destruct (View.err errs) as [e|] eqn:He1; [done|].
    apply err_None in He1. subst errs. intros [= <-].
    split; [done|]. exists object. split; [done|].
    by rewrite addUrlParams_union. }
  destruct json as [|text|j]; [|done|]; apply Hphases.
Qed.

(** The step of the field loop on one field of a successful validation:
    it starts and ends with no error, nothing is stored under the name
    of the field before it, and what is stored under the name after it is
    what the result holds, unless the step stored nothing and a URL
    parameter of that name was copied. *)
Lemma Validate_Ok_step (s : View.Schema) (json : document)
    (urlParams : list (gmap string string)) (vo : gmap string any)
    (f : View.ViewField) :
  NoDup (View.Name <$> View.fields s) →
  (∀ g, g ∈ View.fields s →
        GoStrings.ContainsByte (View.qualifiedName g) "." = false) →
  View.Validate range s json urlParams = Ret (Ok vo) →
  f ∈ View.fields s →
  ∃ object1 object2,
    View.fieldStep range json
      (View.structuralPhase range s json urlParams).2 (object1, ∅) f
    = Ret (object2, ∅)
    ∧ object1 !! View.Name f = None
    ∧ (vo !! View.Name f = object2 !! View.Name f
       ∨ (object2 !! View.Name f = None
          ∧ is_Some ((View.structuralPhase range s json urlParams).2
                     !! View.Name f))).
Proof.
  intros Hnd Hplain Hvalidate Hf.
  destruct (Validate_Ok_phases s json urlParams vo Hvalidate)
    as (Hst0 & object & Hfold & Hvo).
  set (urlPair := (View.structuralPhase range s json urlParams).2) in *.
  apply list_elem_of_split in Hf as (pre & post & Hfields).
  rewrite Hfields in Hnd, Hplain, Hfold.
  assert (Hpost : ∀ g, g ∈ post →
            GoStrings.ContainsByte (View.qualifiedName g) "." = false
            ∧ View.Name g ≠ View.Name f).
  { intros g Hg. split; [apply Hplain, elem_of_app; right; by right|].
    rewrite fmap_app, fmap_cons in Hnd.
    apply NoDup_app in Hnd as (_ & _ & [Hnot _]%NoDup_cons).
    intros Heq. apply Hnot. rewrite <-Heq. by apply list_elem_of_fmap_2. }
  assert (Hpre : ∀ g, g ∈ pre →
            GoStrings.ContainsByte (View.qualifiedName g) "." = false
            ∧ View.Name g ≠ View.Name f).
  { intros g Hg. split; [apply Hplain, elem_of_app; by left|].
    rewrite fmap_app, fmap_cons in Hnd.
    apply NoDup_app in Hnd as (_ & Hdisj & _).
    intros Heq. apply (Hdisj (View.Name g)); [by apply list_elem_of_fmap_2|].
    rewrite Heq. left. }
  rewrite foldlM_app in Hfold.
  destruct (foldlM _ (∅, ∅) pre) as [[object1 errs1]|] eqn:Hfold1; [|done].
  simpl in Hfold.
  destruct (View.fieldStep range json urlPair (object1, errs1) f)
    as [[object2 errs2]|] eqn:Hstep; [|done].
  simpl in Hfold.
  pose proof (foldlM_fieldStep_frame json urlPair post (View.Name f) Hpost
                _ _ Hfold) as Hkeep. simpl in Hkeep.
  pose proof (foldlM_fieldStep_no_error json urlPair post _ _ Hfold eq_refl)
    as Herr2. simpl in Herr2. subst errs2.
  assert (errs1 = ∅) as ->.
  { apply map_empty. intros k. apply eq_None_not_Some. intros Hk.
    destruct (fieldStep_keeps_keys range valid json urlPair _ _ f k Hstep Hk)
      as [e He]. simpl in He. by rewrite lookup_empty in He. }
  pose proof (foldlM_fieldStep_frame json urlPair pre (View.Name f) Hpre
                _ _ Hfold1) as Hkeep1. simpl in Hkeep1.
  exists object1, object2. split_and!; [done|by rewrite Hkeep1, lookup_empty|].
  rewrite Hvo, <-Hkeep. destruct (View.allowUnknownFields s); [|by left].
  destruct (object !! View.Name f) as [x|] eqn:Hx.
  - left. by rewrite (lookup_union_Some_l _ _ _ x).
  - destruct (urlPair !! View.Name f) as [u|] eqn:Hu;
      [right; split; [done|by eexists]|].
    left. apply lookup_union_None. by rewrite lookup_fmap, Hu.
Qed.

(** What the step stores for a field of a plain name. *)
Lemma storeResult_plain (f : View.ViewField) (object object' : gmap string any)
    (rs : Result error any) :
  GoStrings.ContainsByte (View.qualifiedName f) "." = false →
  (∀ e, rs = Err e → errors_As e = None) →
  View.storeResult range f (object, ∅) rs = Ret (object', ∅) →
  ∃ val, rs = Ok val
         ∧ object' = View.setObjectField object (View.Name f) val.
Proof.
  intros Hplain Hrs. destruct (Name_plain f Hplain) as [HN HU].
  destruct rs as [val|e].
  - unfold View.storeResult, View.setNestedField.
    rewrite HU, <-HN, Split_plain by (by rewrite HN). simpl.
    intros [= <-]. eauto.
  - rewrite storeResult_Err by done. rewrite (Hrs e eq_refl).
    intros Heq.
    apply (f_equal (λ o, match o with
                         | Ret st => st.2
                         | Panic _ => (∅ : gmap string error)
                         end)) in Heq.
    simpl in Heq. by apply insert_non_empty in Heq.
Qed.

(** X10. What a successful validation stores for a field.  Take a schema
    whose fields have distinct names without path syntax of gjson (no
    dot, no wildcard, no modifier: what [gjson.Get] looks for is a member
    of that name), and a scalar field of it, of type string, bool or
    integer, whose validators report plain errors.  When the document has
    a member of that name, the member coerces to a value that every
    validator of the field accepts, the result holds that value under the
    name, and the getter of the type of the field returns it.  When the
    text is empty or an object and neither the document nor a URL
    parameter map has the name, the field is optional, the result has no
    entry under the name, and every getter returns the empty option. *)
Theorem Validate_stores_field (s : View.Schema) (json : document)
    (urlParams : list (gmap string string)) (vo : gmap string any)
    (f : View.ViewField) :
  NoDup (View.Name <$> View.fields s) →
  (∀ g, g ∈ View.fields s → Gjson.plain (View.qualifiedName g) = true) →
  View.Validate range s json urlParams = Ret (Ok vo) →
  f ∈ View.fields s →
  (∀ node,
     Gjson.Get json (View.Name f) = Some node →
     View.array f = false → View.object f = false →
     (∀ n a b, View.fieldType f ≠ TLib n a b) →
     (∀ v x e, v ∈ View.validators f → v x = Some e → errors_As e = None) →
     ∃ val,
       View.typedJson (View.fieldType f) node = Ok val
       ∧ Forall (λ v, v val = None) (View.validators f)
       ∧ vo !! View.Name f = Some val
       ∧ Getters.must (goTypeOf (View.fieldType f)) vo (View.Name f)
         = Ret val)
  ∧ (Gjson.emptyOrObject json = true →
     Gjson.Get json (View.Name f) = None →
     (∀ pair, pair ∈ urlParams → pair !! View.Name f = None) →
     View.Required f = false
     ∧ vo !! View.Name f = None
     ∧ ∀ t, Getters.typed t vo (View.Name f) = Ret None).
Proof.
  intros Hnd Hsyntax Hvalidate Hf.
  assert (∀ g, g ∈ View.fields s →
            GoStrings.ContainsByte (View.qualifiedName g) "." = false)
    as Hplain.
  { intros g Hg. by apply plain_no_dot, Hsyntax. }
  destruct (Validate_Ok_step s json urlParams vo f Hnd Hplain Hvalidate Hf)
    as (object1 & object2 & Hstep & Hbefore & Hlookup).
  pose proof (Hplain f Hf) as Hfplain.
  destruct (Name_plain f Hfplain) as [HN HU].
  split.
  - intros node Hnode Harr Hobj HT Hvs.
    unfold View.fieldStep in Hstep. rewrite Hnode in Hstep.
    rewrite validate_scalar in Hstep by done. simpl in Hstep.
    apply storeResult_plain in Hstep as (val & Hrs & ->); [|done|].
    + destruct (View.typedJson (View.fieldType f) node) as [val'|e0] eqn:Hval;
        [|done].
      destruct (View.firstError (View.validators f) val') as [e1|] eqn:Hfirst;
        [done|].
      injection Hrs as ->. exists val.
      assert (∀ d, val ≠ DataV d) as Hdata.
      { intros d ->. apply typedJson_type in Hval.
        by destruct (View.fieldType f). }
      assert (View.setObjectField object1 (View.Name f) val !! View.Name f
              = Some val) as Hset.
      { unfold View.setObjectField.
        destruct val; rewrite ?lookup_insert_eq; try done.
        by destruct (Hdata d). }
      assert (vo !! View.Name f = Some val) as Hentry.
      { destruct Hlookup as [->|[Hnone _]]; [done|congruence]. }
      split_and!; [done| |done|].
      * clear -Hfirst. induction (View.validators f) as [|v vs IH];
          [constructor|].
        simpl in Hfirst. destruct (v val) eqn:Hv; [done|].
        constructor; [done|by apply IH].
      * unfold Getters.must, Getters.typed.
        rewrite (Get_literal _ _ _ val Hentry). simpl.
        by rewrite (typedJson_type _ _ _ Hval), bool_decide_eq_true_2.
    + intros e.
      destruct (View.typedJson (View.fieldType f) node) as [val'|e0] eqn:Hval.
      * destruct (View.firstError (View.validators f) val') as [e1|]
          eqn:Hfirst; [|done].
        intros [= <-]. simpl. by apply (firstError_plain _ _ _ Hvs Hfirst).
      * intros [= <-]. simpl. by apply (typedJson_error_plain _ _ _ HT Hval).
  - intros _ Hnode Hurl.
    assert ((View.structuralPhase range s json urlParams).2 !! View.Name f
            = None) as Hnone by (by apply mergeUrlParams_absent).
    unfold View.fieldStep in Hstep. rewrite Hnode, Hnone in Hstep.
    destruct (View.Required f) eqn:Hreq.
    { apply (f_equal (λ o, match o with
                           | Ret st => st.2
                           | Panic _ => (∅ : gmap string error)
                           end)) in Hstep.
      simpl in Hstep. by apply insert_non_empty in Hstep. }
    apply (f_equal (λ o, match o with
                         | Ret st => st.1
                         | Panic _ => (∅ : gmap string any)
                         end)) in Hstep.
    simpl in Hstep. subst object2.
    assert (vo !! View.Name f = None) as Hentry.
    { destruct Hlookup as [->|[_ [? ?]]]; [done|congruence]. }
    split_and!; [done|done|]. intros t. unfold Getters.typed.
    rewrite Get_walk by done.
    rewrite Split_plain by (by rewrite HN). simpl. by rewrite Hentry.
Qed.

End Stored.

Lemma Validate_stores_field_witness :
  Getters.must GoString {[ "id" := Str "7" ]} "id" = Ret (Str "7")
  ∧ Getters.typed (GoInt Int) {[ "id" := Str "7" ]} "age" = Ret None.
Proof.
  set (id := View.Field TString "id" [MinLength 1]).
  set (age := View.Optional (View.Field (TInt Int) "age" [])).
  assert (∀ g, g ∈ [id; age] → Gjson.plain (View.qualifiedName g) = true)
    as Hplain.
  { intros g [->|[->|?%elem_of_nil]%elem_of_cons]%elem_of_cons; done. }
  assert (NoDup (View.Name <$> [id; age])) as Hnd.
  { repeat constructor; [|by intros ?%elem_of_nil].
    by intros [?|?%elem_of_nil]%elem_of_cons. }
  assert (View.Validate keyOrder (View.WithFields [id; age])
            (Doc (JObject [("id", JString "7")])) []
          = Ret (Ok {[ "id" := Str "7" ]})) as Hvalidate by (by vm_compute).
  split.
  - destruct (Validate_stores_field keyOrder keyOrder_valid
                (View.WithFields [id; age])
                (Doc (JObject [("id", JString "7")])) []
                {[ "id" := Str "7" ]} id Hnd Hplain Hvalidate) as [Hid _];
      [left|].
    assert (∀ v x e, v ∈ View.validators id → v x = Some e →
                     errors_As e = None) as Hvs.
    { intros v x e [->|?%elem_of_nil]%elem_of_cons; [|done]. simpl.
      destruct x; try done. by case_decide; intros [= <-]. }
    destruct (Hid (JString "7") eq_refl eq_refl eq_refl
                (λ n a b H, eq_ind TString
                   (λ T, match T with TString => True | _ => False end)
                   I _ H) Hvs)
      as (val & Hval & _ & _ & Hget).
    injection Hval as <-. exact Hget.
  - destruct (Validate_stores_field keyOrder keyOrder_valid
                (View.WithFields [id; age])
                (Doc (JObject [("id", JString "7")])) []
                {[ "id" := Str "7" ]} age Hnd Hplain Hvalidate) as [_ Hage];
      [right; left|].
    destruct Hage as (_ & _ & Hget);
      [done|done|by intros pair ?%elem_of_nil|].
    apply Hget.
Defined.

Section ResultKeys.
Variable range : rangeOrder.
Hypothesis valid : rangeOrder_valid range.

(** X11. The keys of a result.  For a schema whose fields have names
    without a dot, every key of the object a validation returns is the
    name of a field of the schema or, when the schema is permissive, a
    key of one of the URL parameter maps.  A member of the document that
    the schema does not declare is never stored, permissive or not. *)
Theorem Validate_result_keys (s : View.Schema) (json : document)
    (urlParams : list (gmap string string)) (vo : gmap string any) :
  (∀ g, g ∈ View.fields s →
        GoStrings.ContainsByte (View.qualifiedName g) "." = false) →
  View.Validate range s json urlParams = Ret (Ok vo) →
  (∀ k, is_Some (vo !! k) →
        k ∈ View.Name <$> View.fields s
        ∨ (View.allowUnknownFields s = true
           ∧ ∃ pair, pair ∈ urlParams ∧ is_Some (pair !! k)))
  ∧ (∀ k, k ∈ Gjson.keys json → k ∉ View.Name <$> View.fields s →
          vo !! k = None).
Proof.
  intros Hplain Hvalidate.
  destruct (Validate_Ok_phases range valid s json urlParams vo Hvalidate)
    as (Hst0 & object & Hfold & Hvo).
  assert (Hobject : ∀ k, k ∉ View.Name <$> View.fields s →
                         object !! k = None).
  { intros k Hk.
    rewrite <-(lookup_empty (M := gmap string) (A := any) k).
    apply (foldlM_fieldStep_frame range valid json _ (View.fields s) k
             (λ g Hg, conj (Hplain g Hg)
                        (λ Heq, Hk (eq_ind _ (λ n, n ∈ _)
                                      (list_elem_of_fmap_2 View.Name _ _ Hg)
                                      _ Heq)))
             (∅, ∅) (object, ∅) Hfold). }
  assert (Hurl : ∀ k,
    is_Some ((View.structuralPhase range s json urlParams).2 !! k) →
    ∃ pair, pair ∈ urlParams ∧ is_Some (pair !! k)).
  { intros k Hk.
    destruct (decide (Exists (λ pair : gmap string string,
                                is_Some (pair !! k)) urlParams))
      as [Hex|Hnex]; [by apply Exists_exists in Hex|].
    apply not_Exists_Forall in Hnex; [|apply _].
    rewrite Forall_forall in Hnex.
    assert ((View.structuralPhase range s json urlParams).2 !! k = None)
      as Hnone.
    { apply (mergeUrlParams_absent range valid). intros pair Hpair.
      apply eq_None_not_Some. by apply Hnex. }
    rewrite Hnone in Hk. by destruct Hk. }
  split.
  - intros k Hk.
    destruct (decide (k ∈ View.Name <$> View.fields s)) as [?|Hnot];
      [by left|right].
    rewrite Hvo in Hk. destruct (View.allowUnknownFields s).
    + split; [done|]. apply Hurl.
      destruct Hk as [x Hx]. apply lookup_union_Some_raw in Hx
        as [Hx|[_ Hx]]; [by rewrite Hobject in Hx|].
      rewrite lookup_fmap in Hx.
      by destruct (_ !! k) eqn:Hu; [eexists|].
    + rewrite Hobject in Hk by done. by destruct Hk.
  - intros k Hk Hnot. rewrite Hvo.
    destruct (View.allowUnknownFields s); [|by apply Hobject].
    apply lookup_union_None. split; [by apply Hobject|].
    rewrite lookup_fmap.
    destruct (_ !! k) as [u|] eqn:Hu; [|done]. exfalso.
    destruct (Hurl k) as (pair & Hpair & Hpk); [by eexists|].
    assert (is_Some ((View.structuralPhase range s json urlParams).1 !! k))
      as [e He].
    { unfold View.structuralPhase. cbv zeta. simpl.
      rewrite jsonKey_conflict;
        [by eexists|by apply (mergeUrlParams_present range valid _ _ _ pair)
        |done]. }
    by rewrite Hst0, lookup_empty in He.
Qed.

End ResultKeys.

Lemma Validate_result_keys_witness :
  ({[ "id" := Str "1" ]} : gmap string any) !! "extra" = None.
Proof.
  destruct (Validate_result_keys keyOrder keyOrder_valid
              (View.AllowUnknownFields
                 (View.WithFields [View.Field TString "id" []]))
              (Doc (JObject [("id", JString "1"); ("extra", JString "x")]))
              [] {[ "id" := Str "1" ]}) as [_ Hunknown].
  - by intros g [->|?%elem_of_nil]%elem_of_cons.
  - by vm_compute.
  - apply Hunknown.
    + right. left.
    + by intros [?|?%elem_of_nil]%elem_of_cons.
Defined.

(** ** Paths through nested containers *)

Lemma Split_prefix (k p : string) (sep : ascii) :
  GoStrings.ContainsByte k sep = false →
  GoStrings.Split (k +:+ String sep p) sep = k :: GoStrings.Split p sep.
Proof.
  induction k as [|c k IH]; intros Hk.
  - change ("" +:+ String sep p) with (String sep p). simpl.
    by rewrite decide_True.
  - change (String c k +:+ String sep p) with (String c (k +:+ String sep p)).
    simpl in *. destruct (decide (c = sep)); [done|]. by rewrite IH.
Qed.

(** In an object of the view that holds no nil the loop of [Get] goes on
    as in a plain map. *)
Lemma walk_VO_DataV (m : gmap string any) (part : string)
    (rest : list string) :
  (∀ j, m !! j ≠ Some Nil) →
  GoStrings.ContainsByte part "." = false →
  Internal.walk (Internal.Get Internal.AnyType) (VO m) (part :: rest)
  = Internal.walk (Internal.Get Internal.AnyType) (DataV m) (part :: rest).
Proof.
  intros Hm Hpart. simpl. unfold Internal.Get at 1.
  rewrite GetWith_plain by done.
  destruct (m !! part) as [v|] eqn:Hv; [|done].
  destruct v; try done. by destruct (Hm part).
Qed.

Lemma Get_as_walk (T : Internal.typeParam) (m : gmap string any)
    (p : string) :
  m !! p = None ∨ GoStrings.ContainsByte p "." = false →
  Internal.Get T m p
  = match Internal.walk (Internal.Get Internal.AnyType) (DataV m)
            (GoStrings.Split p ".") with
    | Internal.Found c =>
        if Internal.assertType T c then Ret (Some c) else Panic WrongType
    | Internal.Absent => Ret None
    | Internal.Failed q => Panic q
    end.
Proof.
  destruct (m !! p) as [v|] eqn:Hv; [|intros _; by apply Get_walk].
  intros [?|Hp]; [done|].
  rewrite (Get_literal _ _ _ _ Hv), Split_plain by done. simpl.
  by rewrite Hv.
Qed.

(** X12. A path through a nested container.  When the object holds a
    plain map, or an object of the view with no nil in it, under a key
    [k] without a dot, [Get] on the path [k.p] is [Get] on [p] in the
    nested container: the same value, the same empty result, the same
    panic.  The path [k.p] must not be a key of the object itself, and
    [p] must not be a dotted key of the nested container (such a key is
    found by [Get] on [p], and not by the walk along [k.p]). *)
Theorem Get_nested (T : Internal.typeParam) (data m : gmap string any)
    (k p : string) :
  GoStrings.ContainsByte k "." = false →
  data !! (k +:+ "." +:+ p) = None →
  data !! k = Some (DataV m)
  ∨ (data !! k = Some (VO m) ∧ ∀ j, m !! j ≠ Some Nil) →
  m !! p = None ∨ GoStrings.ContainsByte p "." = false →
  Internal.Get T data (k +:+ "." +:+ p) = Internal.Get T m p.
Proof.
  intros Hk Hkp Hm Hp.
  rewrite (Get_walk _ _ _ Hkp), (Get_as_walk T m p Hp).
  change (k +:+ "." +:+ p) with (k +:+ String "." p).
  rewrite Split_prefix by done.
  change (Internal.walk (Internal.Get Internal.AnyType) (DataV data)
            (k :: GoStrings.Split p "."))
    with (match data !! k with
          | None => Internal.Absent
          | Some nextValue =>
              Internal.walk (Internal.Get Internal.AnyType) nextValue
                (GoStrings.Split p ".")
          end).
  destruct Hm as [->|[-> Hnil]]; [done|].
  pose proof (Split_parts p ".") as Hparts.
  pose proof (Split_nonempty p ".") as Hne.
  destruct (GoStrings.Split p ".") as [|part rest]; [done|].
  rewrite walk_VO_DataV; [done|done|]. by apply Forall_inv in Hparts.
Qed.

Lemma Get_nested_witness :
  Internal.Get (Internal.Exactly GoString)
    {[ "user" := VO {[ "email" := Str "a@b.c" ]} ]} "user.email"
  = Internal.Get (Internal.Exactly GoString)
      {[ "email" := Str "a@b.c" ]} "email".
Proof.
  apply (Get_nested (Internal.Exactly GoString)
           {[ "user" := VO {[ "email" := Str "a@b.c" ]} ]}
           {[ "email" := Str "a@b.c" ]} "user" "email").
  - done.
  - done.
  - right. split; [done|]. intros j Hj.
    apply lookup_singleton_Some in Hj as [_ ?]. done.
  - by right.
Defined.

(** ** The keys of the result object, and its updates *)

(** X13. [Fields] returns every key of the object once, in ascending
    byte order, and the same list in whatever order Go ranges over the
    map. *)
Theorem Fields_sorted (range : rangeOrder) (vo : gmap string any) :
  rangeOrder_valid range →
  Sorted String.le (Internal.Fields range vo)
  ∧ NoDup (Internal.Fields range vo)
  ∧ (∀ k, k ∈ Internal.Fields range vo ↔ is_Some (vo !! k))
  ∧ length (Internal.Fields range vo) = size vo
  ∧ (∀ range', rangeOrder_valid range' →
       Internal.Fields range' vo = Internal.Fields range vo).
Proof.
  intros Hr. unfold Internal.Fields. split_and!.
  - apply Sorted_merge_sort, _.
  - unfold sort_Strings. rewrite merge_sort_Permutation.
    by apply range_NoDup.
  - intros k. by apply sort_Strings_elem_of.
  - unfold sort_Strings.
    rewrite merge_sort_Permutation, length_fmap, (Hr any vo).
    apply length_map_to_list.
  - intros range' Hr'. by apply sort_Strings_range.
Qed.

Lemma Fields_sorted_witness :
  Internal.Fields reverseOrder {[ "b" := Str "2"; "a" := Str "1" ]}
  = Internal.Fields keyOrder {[ "b" := Str "2"; "a" := Str "1" ]}.
Proof.
  destruct (Fields_sorted keyOrder {[ "b" := Str "2"; "a" := Str "1" ]}
              keyOrder_valid) as (_ & _ & _ & _ & Hrange).
  apply Hrange, reverseOrder_valid.
Defined.

(** X14. [Update] panics when the object has no property of the name, and
    only then; when it returns, the property holds the new value, the
    object has the same keys as before and every other property is as it
    was, and [Get] on the name returns the new value.  On a name without
    a dot exactly one of [Add] and [Update] returns; and a property that
    [Add] stored is one that [Update] replaces. *)
Theorem Update_guards (vo : gmap string any) (name : string) (value : any) :
  (Internal.Update vo name value = Panic DoesNotExist ↔ vo !! name = None)
  ∧ (∀ vo', Internal.Update vo name value = Ret vo' →
       is_Some (vo !! name)
       ∧ vo' = <[name := value]> vo
       ∧ dom vo' = dom vo
       ∧ (∀ k, k ≠ name → vo' !! k = vo !! k)
       ∧ Internal.Get Internal.AnyType vo' name
         = match value with
           | Nil => Panic WrongType
           | _ => Ret (Some value)
           end)
  ∧ (GoStrings.ContainsByte name "." = false →
       (∃ vo', Internal.Add vo name value = Ret vo')
       ↔ ¬ ∃ vo', Internal.Update vo name value = Ret vo')
  ∧ (∀ vo1 value',
       Internal.Add vo name value = Ret vo1 →
       Internal.Update vo1 name value' = Ret (<[name := value']> vo)).
Proof.
  unfold Internal.Update, Internal.Add. split_and!.
  - destruct (vo !! name); by split.
  - intros vo'. destruct (vo !! name) as [old|] eqn:Hold; [|done].
    intros [= <-]. split_and!; [by eexists|done| | |].
    + rewrite dom_insert_L. apply elem_of_dom_2 in Hold.
      apply set_eq. intros k. rewrite elem_of_union, elem_of_singleton.
      split; [by intros [->|?]|by right].
    + intros k Hk. by rewrite lookup_insert_ne.
    + rewrite (Get_literal _ _ _ value) by apply lookup_insert_eq.
      by destruct value.
  - intros ->. destruct (vo !! name); split.
    + by intros [? ?].
    + intros []. eauto.
    + by intros _ [? ?].
    + eauto.
  - intros vo1 value'. destruct (vo !! name); [done|].
    destruct (GoStrings.ContainsByte name "."); [done|].
    intros [= <-]. by rewrite lookup_insert_eq, insert_insert_eq.
Qed.

(** ** The flattened map and its consumer *)

Lemma Split_length (k : string) :
  length (GoStrings.Split k ".") < 2 ↔ GoStrings.ContainsByte k "." = false.
Proof.
  destruct (GoStrings.ContainsByte k ".") eqn:Hk.
  - destruct (Split_dotted k "." Hk) as (p & q & rest & ->). simpl.
    split; [lia|done].
  - rewrite Split_plain by done. simpl. split; [done|lia].
Qed.

Section Consumer.
Variable range : rangeOrder.
Hypothesis valid : rangeOrder_valid range.

Lemma MapValueObject_Ok (m m' : gmap string any) :
  Sqlx.MapValueObject range m = Ok m'
  ↔ m ≠ ∅
    ∧ (∀ k, is_Some (m !! k) → GoStrings.ContainsByte k "." = true)
    ∧ m' = m.
Proof.
  unfold Sqlx.MapValueObject. case_decide as Hm; [by split; [|intros [? _]]|].
  destruct (list_find _ _) as [[i key]|] eqn:Hfind.
  - split; [done|]. intros (_ & Hkeys & _).
    apply list_find_Some in Hfind as (Hi & Hlen & _).
    apply list_elem_of_lookup_2, list_elem_of_fmap in Hi
      as ([k v] & -> & Hin).
    apply (range_elem_of range) in Hin; [|done].
    apply Split_length in Hlen. simpl in Hlen.
    rewrite Hkeys in Hlen by eauto. done.
  - apply list_find_None in Hfind. rewrite Forall_forall in Hfind.
    split; [intros [= <-]|by intros (_ & _ & ->)].
    split_and!; [done| |done]. intros k [v Hv].
    destruct (GoStrings.ContainsByte k ".") eqn:Hk; [done|].
    destruct (Hfind k).
    + apply list_elem_of_fmap. exists (k, v). split; [done|].
      by apply (range_elem_of range).
    + by apply Split_length.
Qed.

(** X15. [MapValueObject] takes the map it is given exactly when the map
    is not empty and every key has a dot; otherwise its assertion fails.
    Hence it refuses the flattened form of every result object that
    holds a scalar or an array under a top-level key without a dot. *)
Theorem MapValueObject_FlatMap :
  (∀ m m', Sqlx.MapValueObject range m = Ok m'
           ↔ m ≠ ∅
             ∧ (∀ k, is_Some (m !! k) → GoStrings.ContainsByte k "." = true)
             ∧ m' = m)
  ∧ (∀ vo out k v,
       View.FlatMap range vo = Ret out →
       vo !! k = Some v → container v = None → k ≠ "" →
       GoStrings.ContainsByte k "." = false →
       ∃ a, Sqlx.MapValueObject range out = Err a).
Proof.
  split; [apply MapValueObject_Ok|].
  intros vo out k v Hflat Hk Hv Hne Hdot.
  rewrite FlatMap_walk in Hflat by done.
  destruct (walk_walkPost range valid _ _ _ _ Hflat) as (_ & Hcomplete & _).
  assert (is_Some (out !! k)) as Hout.
  { assert (flatKey "" [k] = k) as Hkey.
    { reflexivity. }
    rewrite <-Hkey. apply (Hcomplete [k] v); [|by rewrite Hkey].
    eapply leafAt_down; [done|done|by constructor]. }
  destruct (Sqlx.MapValueObject range out) as [m'|a] eqn:Hmap; [|by eexists].
  apply MapValueObject_Ok in Hmap as (_ & Hkeys & _).
  rewrite Hkeys in Hdot by done. done.
Qed.

End Consumer.

Lemma MapValueObject_FlatMap_witness :
  ∃ a, Sqlx.MapValueObject keyOrder
         {[ "id" := Str "1"; "user.email" := Str "a@b.c" ]} = Err a.
Proof.
  destruct (MapValueObject_FlatMap keyOrder keyOrder_valid) as [_ Hrefuse].
  apply (Hrefuse
           (<["user" := VO {[ "email" := Str "a@b.c" ]}]> {[ "id" := Str "1" ]})
           {[ "id" := Str "1"; "user.email" := Str "a@b.c" ]}
           "id" (Str "1")); [by vm_compute|done..].
Defined.

(** ** The validators of length and of comparison *)

(** X16. [LengthBetween(min, max)] accepts exactly the strings that
    [MinLength(min)] and [MaxLength(max)] both accept, those of a length
    in bytes from [min] to [max]; [ExactLength(n)] accepts what
    [LengthBetween(n, n)] accepts.  Each refusal wraps the error of its
    own constraint. *)
Theorem LengthBetween_Min_Max (min max : Z) (v : any) :
  ((Constraints.LengthBetween min max).2 v = None
   ↔ (MinLength min).2 v = None ∧ (MaxLength max).2 v = None)
  ∧ (∀ str, v = Str str →
       (Constraints.LengthBetween min max).2 v = None
       ↔ (min ≤ Z.of_nat (String.length str) ≤ max)%Z)
  ∧ ((Constraints.ExactLength min).2 v = None
     ↔ (Constraints.LengthBetween min min).2 v = None)
  ∧ (∀ e, (Constraints.LengthBetween min max).2 v = Some e →
          errors_Is e "length must be between" = true)
  ∧ (∀ e, (Constraints.ExactLength min).2 v = Some e →
          errors_Is e "length must be exactly" = true).
Proof.
  unfold Constraints.LengthBetween, Constraints.ExactLength, MinLength,
    MaxLength.
  split_and!.
  - destruct v as [|str| | | | | | | |]; simpl; try done.
    repeat case_decide; repeat case_bool_decide; simpl;
      split; try done; try lia; by intros [? ?].
  - intros str ->. simpl.
    repeat case_bool_decide; simpl; split; try done; lia.
  - destruct v as [|str| | | | | | | |]; simpl; try done.
    repeat case_decide; repeat case_bool_decide; simpl; split; try done; lia.
  - intros e. destruct v as [|str| | | | | | | |]; simpl; try done.
    repeat case_bool_decide; simpl; by intros [= <-].
  - intros e. destruct v as [|str| | | | | | | |]; simpl; try done.
    case_decide; by intros [= <-].
Qed.

(** X17. The validators of comparison, at every type they are made for.
    [Between(min, max)] accepts exactly what [Gte(min)] and [Lte(max)]
    both accept; of [Gt(b)] and [Lte(b)] exactly one accepts a value, and
    so of [Lt(b)] and [Gte(b)].  On the integer types they are the
    comparisons of the integers. *)
Theorem comparison_validators
    (libGreater libLess : string → string → string → bool)
    (libFormat : string → string → string) (min max val : any) :
  ((Constraints.Between libGreater libLess libFormat min max).2 val = None
   ↔ (Constraints.Gte libLess libFormat min).2 val = None
     ∧ (Constraints.Lte libGreater libFormat max).2 val = None)
  ∧ ((Constraints.Gt libGreater libFormat min).2 val = None
     ↔ (Constraints.Lte libGreater libFormat min).2 val ≠ None)
  ∧ ((Constraints.Lt libLess libFormat max).2 val = None
     ↔ (Constraints.Gte libLess libFormat max).2 val ≠ None)
  ∧ (∀ x lo hi,
       (∃ k, val = IntV k x ∧ min = IntV k lo ∧ max = IntV k hi)
       ∨ (∃ k, val = UintV k x ∧ min = UintV k lo ∧ max = UintV k hi) →
       ((Constraints.Gt libGreater libFormat min).2 val = None ↔ (lo < x)%Z)
       ∧ ((Constraints.Gte libLess libFormat min).2 val = None ↔ (lo ≤ x)%Z)
       ∧ ((Constraints.Lt libLess libFormat max).2 val = None ↔ (x < hi)%Z)
       ∧ ((Constraints.Lte libGreater libFormat max).2 val = None
          ↔ (x ≤ hi)%Z)
       ∧ ((Constraints.Between libGreater libLess libFormat min max).2 val
          = None ↔ (lo ≤ x ≤ hi)%Z)).
Proof.
  unfold Constraints.Between, Constraints.Gt, Constraints.Gte,
    Constraints.Lt, Constraints.Lte. simpl. split_and!.
  - destruct (Constraints.isLessThan libLess val min),
      (Constraints.isGreaterThan libGreater val max); simpl;
      split; try done; by intros [? ?].
  - by destruct (Constraints.isGreaterThan libGreater val min).
  - by destruct (Constraints.isLessThan libLess val max).
  - intros x lo hi [(k & -> & -> & ->)|(k & -> & -> & ->)]; simpl;
      repeat case_bool_decide; simpl; split_and!; split; try done; lia.
Qed.

(** ** The names of a field *)

Lemma AfterLast_None (s : string) (sep : ascii) :
  GoStrings.AfterLast s sep = None ↔ GoStrings.ContainsByte s sep = false.
Proof.
  induction s as [|c s IH]; simpl; [done|].
  destruct (GoStrings.AfterLast s sep) as [t|] eqn:Ht.
  - split; [done|]. case_decide; [done|]. intros Hs. by apply IH in Hs.
  - case_decide; [done|]. by apply IH.
Qed.

Lemma AfterLast_plain (s t : string) (sep : ascii) :
  GoStrings.AfterLast s sep = Some t → GoStrings.ContainsByte t sep = false.
Proof.
  revert t. induction s as [|c s IH]; intros t; simpl; [done|].
  destruct (GoStrings.AfterLast s sep) as [t'|] eqn:Ht.
  - intros [= <-]. by apply IH.
  - case_decide; [|done]. intros [= <-]. by apply AfterLast_None.
Qed.

Lemma Split_last (s : string) (sep : ascii) :
  last (GoStrings.Split s sep)
  = Some (default s (GoStrings.AfterLast s sep)).
Proof.
  induction s as [|c s IH]; [done|]. simpl.
  pose proof (Split_nonempty s sep) as Hne.
  destruct (decide (c = sep)) as [->|Hc].
  - destruct (GoStrings.Split s sep) as [|p ps] eqn:Hs; [done|].
    rewrite last_cons, IH. by destruct (GoStrings.AfterLast s sep).
  - destruct (GoStrings.AfterLast s sep) as [t|] eqn:Ht.
    + assert (GoStrings.ContainsByte s sep = true) as Hdot.
      { destruct (GoStrings.ContainsByte s sep) eqn:Hd; [done|].
        apply AfterLast_None in Hd. congruence. }
      destruct (Split_dotted s sep Hdot) as (p & q & rest & Hs).
      rewrite Hs in IH |- *. rewrite last_cons in IH |- *.
      destruct (last (q :: rest)) as [y|] eqn:Hl; [exact IH|].
      rewrite last_cons in Hl. by destruct (last rest).
    + apply AfterLast_None in Ht. by rewrite Split_plain.
Qed.

(** X18. The names of a field.  The unique name of a field is its
    qualified name, in every case (the fall-back to the name only meets
    the empty name).  The name is the last of the parts the qualified
    name splits into at its dots, and holds no dot itself: the value of
    the field is stored at the end of the path of its unique name, under
    its name. *)
Theorem Name_last_part (f : View.ViewField) :
  View.UniqueName f = View.qualifiedName f
  ∧ last (GoStrings.Split (View.UniqueName f) ".") = Some (View.Name f)
  ∧ GoStrings.ContainsByte (View.Name f) "." = false
  ∧ (GoStrings.ContainsByte (View.qualifiedName f) "." = false →
     View.Name f = View.qualifiedName f).
Proof.
  assert (View.UniqueName f = View.qualifiedName f) as HU.
  { unfold View.UniqueName, View.Name.
    case_decide as Hq; [done|]. by rewrite decide_True. }
  split; [done|]. rewrite HU, Split_last. unfold View.Name.
  split_and!.
  - case_decide as Hq; [by rewrite Hq|].
    by destruct (GoStrings.AfterLast (View.qualifiedName f) ".").
  - case_decide as Hq; [done|].
    destruct (GoStrings.AfterLast (View.qualifiedName f) ".") as [t|] eqn:Ht.
    + by apply (AfterLast_plain _ _ _ Ht).
    + by apply AfterLast_None.
  - intros Hdot. apply AfterLast_None in Hdot. rewrite Hdot.
    by case_decide.
Qed.

(** ** Arrays of objects *)

Lemma forEachM_objectElement_values (range : rangeOrder) (f : View.ViewField)
    (nested : View.Schema) (elems : list json) (vos : list (gmap string any)) :
  Forall2 (λ element vo,
             Gjson.IsObject element = true
             ∧ View.Validate range nested (Doc element) [] = Ret (Ok vo))
          elems vos →
  ∀ index acc,
    View.forEachM (View.objectElement range f nested) index (∅, acc) elems
    = Ret (∅, (acc ++ (VO <$> vos))%list).
Proof.
  induction 1 as [|element vo elems vos [Hobj Hvo] _ IH]; intros index acc.
  - simpl. by rewrite app_nil_r.
  - simpl. unfold View.objectElement at 1. rewrite Hobj, Hvo. simpl.
    rewrite err_empty, IH. by rewrite <-(assoc_L (++)).
Qed.

(** X19. An array of objects whose elements all validate.  When every
    element of the array is an object that the nested schema accepts, the
    field yields the slice of the objects of the elements, one for each,
    in the order of the array; the empty array yields the empty slice. *)
Theorem array_of_objects_values (range : rangeOrder) (f : View.ViewField)
    (nested : View.Schema) (elems : list json)
    (vos : list (gmap string any)) :
  View.array f = true → View.embedded f = Some nested →
  Forall2 (λ element vo,
             Gjson.IsObject element = true
             ∧ View.Validate range nested (Doc element) [] = Ret (Ok vo))
          elems vos →
  View.validate range f (JArray elems)
  = Ret (Ok (Slice GoViewValueObject (VO <$> vos)))
  ∧ length (VO <$> vos) = length elems.
Proof.
  intros Harr Hemb Hall. split.
  - rewrite validate_unfold.
    unfold View.IsObject, View.IsArray, View.embeddedObject.
    rewrite Harr, Hemb, andb_false_r.
    rewrite (forEachM_objectElement_values range f nested elems vos Hall).
    simpl. by rewrite err_empty.
  - rewrite length_fmap. symmetry. by eapply Forall2_length.
Qed.

Lemma array_of_objects_values_witness :
  View.validate keyOrder
    (View.ArrayOfObjectField "items"
       (View.WithFields [View.Field (TInt Int) "id" []]))
    (JArray [JObject [("id", JNumber "1")]; JObject [("id", JNumber "2")]])
  = Ret (Ok (Slice GoViewValueObject
               [VO {[ "id" := IntV Int 1 ]}; VO {[ "id" := IntV Int 2 ]}])).
Proof.
  apply (array_of_objects_values keyOrder
           (View.ArrayOfObjectField "items"
              (View.WithFields [View.Field (TInt Int) "id" []]))
           (View.WithFields [View.Field (TInt Int) "id" []])
           [JObject [("id", JNumber "1")]; JObject [("id", JNumber "2")]]
           [{[ "id" := IntV Int 1 ]}; {[ "id" := IntV Int 2 ]}]
           eq_refl eq_refl).
  repeat constructor; by vm_compute.
Defined.

(** ** Validation of an empty input *)

(** The loop over the fields when neither the document nor the URL
    parameters hold anything: a required field is reported, an optional
    one is passed over. *)
Lemma fieldStep_absent (range : rangeOrder) (json : document)
    (fs : list View.ViewField) :
  (∀ name, Gjson.Get json name = None) →
  ∀ st,
    foldlM (View.fieldStep range json ∅) st fs
    = Ret (st.1,
           foldl (λ errs field,
                    if View.Required field
                    then <[View.Name field := View.requiredError field]> errs
                    else errs)
                 st.2 fs).
Proof.
  intros Hjson. induction fs as [|field fs IH]; intros [object errs];
    [done|].
  simpl. unfold View.fieldStep at 1.
  rewrite Hjson, lookup_empty. simpl. rewrite IH. simpl.
  by destruct (View.Required field).
Qed.

Lemma required_entries (fs : list View.ViewField) :
  ∀ (errs0 : gmap string error) (k : string),
    foldl (λ errs field,
             if View.Required field
             then <[View.Name field := View.requiredError field]> errs
             else errs)
          errs0 fs !! k
    = match last (filter (λ f, View.Name f = k ∧ View.Required f = true) fs)
      with
      | Some f => Some (View.requiredError f)
      | None => errs0 !! k
      end.
Proof.
  induction fs as [|field fs IH]; intros errs0 k; [done|].
  simpl. rewrite IH, filter_cons.
  destruct (View.Required field) eqn:Hreq.
  - destruct (decide (View.Name field = k)) as [Hk|Hk].
    + rewrite decide_True by done. rewrite last_cons.
      destruct (last _); [done|]. by rewrite <-Hk, lookup_insert_eq.
    + rewrite decide_False by (by intros [? _]).
      destruct (last _); [done|]. by rewrite lookup_insert_ne.
  - rewrite decide_False by (by intros [_ ?]). done.
Qed.

(** X20. Validation of an empty input, against a schema whose fields
    have names without path syntax of gjson.  With no text, or with the
    empty object, and no URL parameter, [Validate] succeeds with the
    empty object when the schema has no required field; otherwise it
    fails with an aggregate that holds one entry for the name of each
    required field, the error [is required but not found] of the last
    required field of that name, and no other entry. *)
Theorem Validate_empty_input (range : rangeOrder) (s : View.Schema)
    (json : document) :
  rangeOrder_valid range →
  (∀ f, f ∈ View.fields s → Gjson.plain (View.Name f) = true) →
  json = NoBody ∨ json = Doc (JObject []) →
  ∃ errors : gmap string error,
    (∀ k, errors !! k
          = View.requiredError
            <$> last (filter (λ f, View.Name f = k ∧ View.Required f = true)
                        (View.fields s)))
    ∧ (∀ k e, errors !! k = Some e →
              errors_Is e "is required but not found" = true)
    ∧ (errors = ∅ ↔ Forall (λ f, View.Required f = false) (View.fields s))
    ∧ View.Validate range s json []
      = Ret (if decide (errors = ∅) then Ok ∅
             else Err (validationError errors)).
Proof.
  intros Hr _ Hjson.
  set (errors := foldl (λ errs field,
                    if View.Required field
                    then <[View.Name field := View.requiredError field]> errs
                    else errs)
                 (∅ : gmap string error) (View.fields s)).
  assert (Hentries : ∀ k, errors !! k
          = View.requiredError
            <$> last (filter (λ f, View.Name f = k ∧ View.Required f = true)
                        (View.fields s))).
  { intros k. unfold errors. rewrite required_entries, lookup_empty.
    by destruct (last _). }
  exists errors. split_and!; [done| | |].
  - intros k e. rewrite Hentries. destruct (last _) as [f|]; [|done].
    by intros [= <-].
  - split.
    + intros Hempty. apply Forall_forall. intros f Hf.
      destruct (View.Required f) eqn:Hreq; [|done]. exfalso.
      assert (is_Some (last (filter (λ g, View.Name g = View.Name f
                                          ∧ View.Required g = true)
                               (View.fields s)))) as [g Hg].
      { assert (f ∈ filter (λ g, View.Name g = View.Name f
                                 ∧ View.Required g = true) (View.fields s))
          as Hin by (by apply list_elem_of_filter).
        destruct (filter _ _) as [|x l] eqn:Hl using rev_ind;
          [by apply elem_of_nil in Hin|].
        rewrite last_snoc. by eexists. }
      pose proof (Hentries (View.Name f)) as He.
      by rewrite Hg, Hempty, lookup_empty in He.
    + intros Hall. apply map_empty. intros k. rewrite Hentries.
      assert (filter (λ f, View.Name f = k ∧ View.Required f = true)
                (View.fields s) = []) as ->; [|done].
      rewrite Forall_forall in Hall.
      destruct (filter _ _) as [|f l] eqn:Hl; [done|].
      assert (f ∈ f :: l) as Hin by left. rewrite <-Hl in Hin.
      apply list_elem_of_filter in Hin as [[_ Hreq] Hf].
      rewrite (Hall f Hf) in Hreq. done.
  - rewrite Validate_unfold.
    assert ((∀ name, Gjson.Get json name = None)
            ∧ View.structuralPhase range s json [] = (∅, ∅)) as [Hget Hst0].
    { by destruct Hjson as [->| ->]. }
    assert (match View.err (View.structuralPhase range s json []).1 with
            | Some e => Ret (Err e)
            | None =>
                st ←! foldlM (View.fieldStep range json
                                (View.structuralPhase range s json []).2)
                        (∅, (View.structuralPhase range s json []).1)
                        (View.fields s);
                Ret (match View.err st.2 with
                     | Some e => Err e
                     | None =>
                         Ok (if View.allowUnknownFields s
                             then View.addUrlParams range st.1
                                    (View.structuralPhase range s json []).2
                             else st.1)
                     end)
            end
            = Ret (if decide (errors = ∅) then Ok ∅
                   else Err (validationError errors))) as Hphases.
    { rewrite Hst0. simpl. rewrite err_empty.
      rewrite (fieldStep_absent range json (View.fields s) Hget). simpl.
      fold errors. unfold View.err. case_decide; [|done].
      rewrite addUrlParams_union by done.
      rewrite fmap_empty, (right_id_L ∅ (∪)). by destruct (View.allowUnknownFields s). }
    by destruct Hjson as [->| ->].
Qed.

Lemma Validate_empty_input_witness :
  ∃ errors : gmap string error,
    errors !! "id" = Some (View.requiredError (View.Field TString "id" []))
    ∧ View.Validate keyOrder
        (View.WithFields
           [View.Field TString "id" [];
            View.Optional (View.Field TString "name" [])]) NoBody []
      = Ret (if decide (errors = ∅) then Ok ∅
             else Err (validationError errors)).
Proof.
  destruct (Validate_empty_input keyOrder
              (View.WithFields
                 [View.Field TString "id" [];
                  View.Optional (View.Field TString "name" [])])
              NoBody keyOrder_valid)
    as (errors & Hentries & _ & _ & Hvalidate).
  - intros f [->|[->|?%elem_of_nil]%elem_of_cons]%elem_of_cons; done.
  - by left.
  - exists errors. split; [|exact Hvalidate]. by rewrite Hentries.
Defined.

(** ** Elements of a slice *)

Lemma Atoi_FormatInt (i : nat) :
  (Z.of_nat i < 2 ^ 63)%Z →
  Strconv.Atoi (Strconv.FormatInt (Z.of_nat i)) = Some (Z.of_nat i).
Proof.
  intros Hi. unfold Strconv.Atoi. rewrite ParseInt_FormatInt.
  by rewrite decide_True by lia.
Qed.

(** X21. An element of a slice is read by its index.  When the object
    holds a slice under a key [k] without a dot, [Get] on the path [k.i],
    with [i] in decimal, returns the element of index [i] (asserted to
    the type asked for), and panics when the slice has no such element.
    The path must not be a key of the object itself. *)
Theorem Get_slice_index (T : Internal.typeParam) (data : gmap string any)
    (k : string) (t : goType) (l : list any) (i : nat) :
  GoStrings.ContainsByte k "." = false →
  data !! (k +:+ "." +:+ Strconv.FormatInt (Z.of_nat i)) = None →
  data !! k = Some (Slice t l) →
  (Z.of_nat i < 2 ^ 63)%Z →
  Internal.Get T data (k +:+ "." +:+ Strconv.FormatInt (Z.of_nat i))
  = match l !! i with
    | Some v =>
        if Internal.assertType T v then Ret (Some v) else Panic WrongType
    | None => Panic OutOfBounds
    end.
Proof.
  intros Hk Hki Hslice Hi. rewrite (Get_walk _ _ _ Hki).
  change (k +:+ "." +:+ Strconv.FormatInt (Z.of_nat i))
    with (k +:+ String "." (Strconv.FormatInt (Z.of_nat i))).
  rewrite Split_prefix by done.
  rewrite (Split_plain _ _ (FormatInt_no_point _)).
  simpl. rewrite Hslice, Atoi_FormatInt by done. rewrite Nat2Z.id.
  destruct (l !! i) as [v|] eqn:Hv.
  - rewrite decide_True; [done|].
    apply lookup_lt_Some in Hv. lia.
  - apply lookup_ge_None in Hv. by rewrite decide_False by lia.
Qed.

Lemma Get_slice_index_witness :
  Internal.Get (Internal.Exactly GoString)
    {[ "tags" := Slice GoString [Str "a"; Str "b"] ]} "tags.1"
  = Ret (Some (Str "b")).
Proof.
  apply (Get_slice_index (Internal.Exactly GoString)
           {[ "tags" := Slice GoString [Str "a"; Str "b"] ]} "tags"
           GoString [Str "a"; Str "b"] 1); try done.
Defined.

(** ** No conversion between the types of JSON *)

(** X22. A scalar field takes a JSON value of its own kind only.  What
    [typedJson] accepts for a string is a JSON string, for a bool one of
    [true] and [false], for an integer a JSON number; every other value,
    [null] included, is refused with an error that wraps the type
    mismatch of the package, and so is a number with a fraction for an
    integer. *)
Theorem typedJson_no_conversion (node : json) :
  (∀ v, View.typedJson TString node = Ok v ↔ ∃ s, node = JString s ∧ v = Str s)
  ∧ (∀ v, View.typedJson TBool node = Ok v
          ↔ (node = JTrue ∧ v = Bool true) ∨ (node = JFalse ∧ v = Bool false))
  ∧ (∀ k v, View.typedJson (TInt k) node = Ok v → ∃ raw, node = JNumber raw)
  ∧ (∀ k v, View.typedJson (TUint k) node = Ok v → ∃ raw, node = JNumber raw)
  ∧ (∀ T e,
       (∀ n a b, T ≠ TLib n a b) →
       match T, node with
       | TString, JString _ | TBool, (JTrue | JFalse)
       | (TInt _ | TUint _), JNumber _ => False
       | _, _ => True
       end →
       View.typedJson T node = Err e →
       e = View.mismatchError T node
       ∧ errors_Is e "type mismatch" = true)
  ∧ (∀ k raw e,
       node = JNumber raw → GoStrings.ContainsByte raw "." = true →
       View.typedJson (TInt k) node = Err e →
       errors_Is e "type mismatch" = true).
Proof.
  split_and!.
  - intros v. split.
    + destruct node; simpl; try done. intros [= <-]. eauto.
    + by intros (s & -> & ->).
  - intros v. split.
    + destruct node; simpl; try done; intros [= <-]; auto.
    + by intros [[-> ->]|[-> ->]].
  - intros k v. destruct node; simpl; try done. eauto.
  - intros k v. destruct node; simpl; try done. eauto.
  - intros T e HT Hkind.
    destruct T as [| |k|k|n a b]; [..|by destruct (HT n a b)];
      destruct node; simpl in *; try done; by intros [= <-].
  - intros k raw e -> Hdot. simpl. rewrite Hdot.
    destruct (Gjson.Int raw) as [val|]; [|by intros [= <-]].
    case_decide; [by intros [= <-]|].
    pose proof (FormatInt_no_point val). congruence.
Qed.

(** ** The URL parameters of a successful validation *)

Lemma add_non_empty (errs : gmap string error) (k : string) (e : error) :
  View.add errs k (Some e) ≠ ∅.
Proof. apply insert_non_empty. Qed.

(** A step of the loop over the URL parameters that ends with no error
    started with none, met a new key, and one that the schema lets
    through. *)
Lemma urlParam_no_error (s : View.Schema) (voFields : gmap string bool)
    (st : gmap string error * gmap string string) (k v : string) :
  (View.urlParam s voFields st (k, v)).1 = ∅ →
  st.1 = ∅ ∧ st.2 !! k = None
  ∧ (View.allowUnknownFields s = true ∨ voFields !! k = Some false).
Proof.
  destruct st as [errs urlPair]. unfold View.urlParam. simpl.
  destruct (View.allowUnknownFields s).
  - destruct (urlPair !! k); [by intros ?%add_non_empty|]. auto.
  - destruct (voFields !! k) as [[|]|]; try by intros ?%add_non_empty.
    destruct (urlPair !! k); [by intros ?%add_non_empty|]. auto.
Qed.

Lemma foldl_urlParam_values (s : View.Schema) (voFields : gmap string bool)
    (l : list (string * string)) :
  ∀ st,
    (foldl (View.urlParam s voFields) st l).1 = ∅ →
    st.1 = ∅
    ∧ (∀ k v, st.2 !! k = Some v →
              (foldl (View.urlParam s voFields) st l).2 !! k = Some v)
    ∧ (∀ k v, (k, v) ∈ l →
              (foldl (View.urlParam s voFields) st l).2 !! k = Some v
              ∧ (View.allowUnknownFields s = true
                 ∨ voFields !! k = Some false)).
Proof.
  induction l as [|[k v] l IH]; intros st Hempty; simpl in *.
  - split_and!; [done|done|]. by intros k v ?%elem_of_nil.
  - destruct (IH _ Hempty) as (Hst1 & Hkeep & Hnew).
    destruct (urlParam_no_error _ _ _ _ _ Hst1) as (Hst & Hk & Hallow).
    assert ((View.urlParam s voFields st (k, v)).2 = <[k := v]> st.2)
      as Hpair by (by destruct st).
    split_and!; [done| |].
    + intros k' v' Hk'. apply Hkeep. rewrite Hpair.
      rewrite lookup_insert_ne; [done|]. congruence.
    + intros k' v' [[= -> ->]|Hin]%elem_of_cons; [|by apply Hnew].
      split; [|done]. apply Hkeep. rewrite Hpair. apply lookup_insert_eq.
Qed.

Lemma foldl_jsonKey_no_error (s : View.Schema) (voFields : gmap string bool)
    (urlPair : gmap string string) (keys : list string) :
  ∀ errs, foldl (View.jsonKey s voFields urlPair) errs keys = ∅ → errs = ∅.
Proof.
  induction keys as [|k keys IH]; intros errs; simpl; [done|].
  intros Hempty%IH. unfold View.jsonKey in Hempty.
  destruct (urlPair !! k), (View.allowUnknownFields s), (voFields !! k);
    try done; by apply add_non_empty in Hempty.
Qed.

Lemma member_keys (ms : list (string * json)) (name : string) (node : json) :
  Gjson.member ms name = Some node → name ∈ ms.*1.
Proof.
  induction ms as [|[k v] ms IH]; simpl; [done|].
  case_decide as Hk; [intros _; subst; left|]. intros ?%IH. by right.
Qed.

(** The errors of the strconv package hold no aggregate. *)
Lemma ParseBool_error_plain (s : string) (e : error) :
  Strconv.ParseBool s = Err e → errors_As e = None.
Proof.
  unfold Strconv.ParseBool, Strconv.NumError. intros H.
  repeat (case_match; simplify_eq/=); done.
Qed.

Lemma ParseInt_error_plain (s : string) (e : error) :
  Strconv.ParseInt s = Err e → errors_As e = None.
Proof.
  unfold Strconv.ParseInt, Strconv.NumError. cbv zeta. intros H.
  repeat (case_match; simplify_eq/=); done.
Qed.

Lemma ParseUint_error_plain (s : string) (e : error) :
  Strconv.ParseUint s = Err e → errors_As e = None.
Proof.
  unfold Strconv.ParseUint, Strconv.NumError. intros H.
  repeat (case_match; simplify_eq/=); done.
Qed.

Lemma ParseStringTo_error_plain (T : FieldType) (s : string) (e : error) :
  (∀ n a b, T ≠ TLib n a b) →
  ParseStringTo T s = Err e → errors_As e = None.
Proof.
  intros HT. unfold ParseStringTo.
  destruct T as [| |i|u|n a b]; [done| | | |by destruct (HT n a b)].
  - destruct (Strconv.ParseBool s) eqn:Hs; [done|]. intros [= <-]. simpl.
    by apply (ParseBool_error_plain s).
  - destruct (Strconv.ParseInt s) as [z|] eqn:Hs.
    + destruct (OverflowInt i z); [|done]. by intros [= <-].
    + intros [= <-]. simpl. by apply (ParseInt_error_plain s).
  - destruct (Strconv.ParseUint s) as [z|] eqn:Hs.
    + destruct (OverflowUint u z); [|done]. by intros [= <-].
    + intros [= <-]. simpl. by apply (ParseUint_error_plain s).
Qed.

Section Overlay.
Variable range : rangeOrder.
Hypothesis valid : rangeOrder_valid range.

Lemma mergeUrlParams_values (s : View.Schema) (voFields : gmap string bool)
    (urlParams : list (gmap string string)) :
  (View.mergeUrlParams range s voFields urlParams).1 = ∅ →
  ∀ pair k v, pair ∈ urlParams → pair !! k = Some v →
    (View.mergeUrlParams range s voFields urlParams).2 !! k = Some v
    ∧ (View.allowUnknownFields s = true ∨ voFields !! k = Some false).
Proof.
  unfold View.mergeUrlParams.
  assert (∀ st : gmap string error * gmap string string,
    (foldl (λ st pair,
              foldl (View.urlParam s voFields) st (range string pair))
       st urlParams).1 = ∅ →
    st.1 = ∅
    ∧ (∀ k v, st.2 !! k = Some v →
         (foldl (λ st pair,
                   foldl (View.urlParam s voFields) st (range string pair))
            st urlParams).2 !! k = Some v)
    ∧ (∀ pair k v, pair ∈ urlParams → pair !! k = Some v →
         (foldl (λ st pair,
                   foldl (View.urlParam s voFields) st (range string pair))
            st urlParams).2 !! k = Some v
         ∧ (View.allowUnknownFields s = true ∨ voFields !! k = Some false)))
    as Hgen.
  { induction urlParams as [|p ps IH]; intros st Hempty; simpl in *.
    - split_and!; [done|done|]. by intros pair k v ?%elem_of_nil.
    - destruct (IH _ Hempty) as (Hst1 & Hkeep & Hnew).
      destruct (foldl_urlParam_values _ _ _ _ Hst1) as (Hst & Hkeep1 & Hnew1).
      split_and!; [done|by auto|].
      intros pair k v [->|Hin]%elem_of_cons Hk; [|by eapply Hnew].
      destruct (Hnew1 k v) as [Hval Hallow];
        [by apply (range_elem_of range)|].
      split; [by apply Hkeep|done]. }
  intros Hempty pair k v Hpair Hk.
  destruct (Hgen _ Hempty) as (_ & _ & Hnew). by eapply Hnew.
Qed.

(** X23. The URL parameters of a successful validation, for a schema
    whose fields have distinct names without path syntax of gjson and a
    text that is empty or an object.  A parameter whose
    key is the name of no field is there only when the schema is
    permissive, and the result holds its value, as the string it is,
    under its key.  A parameter whose key is the name of a field (of a
    type other than float and time, with validators that report plain
    errors) is the value of that field: the document has no member of
    that name, the string parses to a value of the type of the field that
    every validator accepts, and the result holds that value under the
    name. *)
Theorem URL_parameters_stored (s : View.Schema) (json : document)
    (urlParams : list (gmap string string)) (vo : gmap string any)
    (pair : gmap string string) (k v : string) :
  NoDup (View.Name <$> View.fields s) →
  (∀ g, g ∈ View.fields s → Gjson.plain (View.qualifiedName g) = true) →
  Gjson.emptyOrObject json = true →
  View.Validate range s json urlParams = Ret (Ok vo) →
  pair ∈ urlParams → pair !! k = Some v →
  (k ∉ View.Name <$> View.fields s →
     View.allowUnknownFields s = true ∧ vo !! k = Some (Str v))
  ∧ (∀ f, f ∈ View.fields s → View.Name f = k →
       (∀ n a b, View.fieldType f ≠ TLib n a b) →
       (∀ w x e, w ∈ View.validators f → w x = Some e →
                 errors_As e = None) →
       Gjson.Get json k = None
       ∧ ∃ val,
           ParseStringTo (View.fieldType f) v = Ok val
           ∧ Forall (λ w, w val = None) (View.validators f)
           ∧ vo !! k = Some val).
Proof.
  intros Hnd Hsyntax _ Hvalidate Hpair Hk.
  assert (∀ g, g ∈ View.fields s →
            GoStrings.ContainsByte (View.qualifiedName g) "." = false)
    as Hplain.
  { intros g Hg. by apply plain_no_dot, Hsyntax. }
  destruct (Validate_Ok_phases range valid s json urlParams vo Hvalidate)
    as (Hst0 & object & Hfold & Hvo).
  assert ((View.mergeUrlParams range s (View.voFieldsOf s) urlParams).1 = ∅)
    as Hmerge by (by apply foldl_jsonKey_no_error in Hst0).
  destruct (mergeUrlParams_values s _ urlParams Hmerge pair k v Hpair Hk)
    as [Hurl Hallow].
  change (View.mergeUrlParams range s (View.voFieldsOf s) urlParams).2
    with (View.structuralPhase range s json urlParams).2 in Hurl.
  assert (Hjson : Gjson.Get json k = None).
  { destruct (Gjson.Get json k) as [node|] eqn:Hnode; [|done]. exfalso.
    assert (k ∈ Gjson.keys json) as Hkeys.
    { destruct json as [| |[]]; try done. by eapply member_keys. }
    assert (is_Some ((View.structuralPhase range s json urlParams).1 !! k))
      as [e He].
    { unfold View.structuralPhase. cbv zeta. simpl.
      rewrite jsonKey_conflict; [by eexists|by eexists|done]. }
    by rewrite Hst0, lookup_empty in He. }
  split.
  - intros Hnot.
    assert (View.allowUnknownFields s = true) as Hperm.
    { destruct Hallow as [?|Hfield]; [done|]. destruct Hnot.
      apply voFieldsOf_lookup. by eexists. }
    split; [done|]. rewrite Hvo, Hperm.
    assert (object !! k = None) as Hobject.
    { rewrite <-(lookup_empty (M := gmap string) (A := any) k).
      apply (foldlM_fieldStep_frame range valid json _ (View.fields s) k
               (λ g Hg, conj (Hplain g Hg)
                          (λ Heq, Hnot (eq_ind _ (λ n, n ∈ _)
                                        (list_elem_of_fmap_2 View.Name _ _ Hg)
                                        _ Heq)))
               (∅, ∅) (object, ∅) Hfold). }
    rewrite lookup_union_r by done. by rewrite lookup_fmap, Hurl.
  - intros f Hf <- HT Hvs. split; [done|].
    destruct (Validate_Ok_step range valid s json urlParams vo f Hnd Hplain
                Hvalidate Hf)
      as (object1 & object2 & Hstep & Hbefore & Hlookup).
    unfold View.fieldStep in Hstep. rewrite Hjson, Hurl in Hstep.
    apply storeResult_plain in Hstep as (val & Hrs & ->);
      [|done|by apply Hplain|].
    + unfold View.validateRaw, View.typedString in Hrs.
      destruct (ParseStringTo (View.fieldType f) v) as [val'|e0] eqn:Hval;
        [|done].
      destruct (View.firstError (View.validators f) val') as [e1|] eqn:Hfirst;
        [done|].
      injection Hrs as ->. exists val.
      assert (View.setObjectField object1 (View.Name f) val !! View.Name f
              = Some val) as Hset.
      { assert (∀ d, val ≠ DataV d) as Hdata.
        { intros d ->. clear -Hval. unfold ParseStringTo in Hval.
          repeat (case_match; simplify_eq/=). }
        unfold View.setObjectField.
        destruct val; rewrite ?lookup_insert_eq; try done.
        by destruct (Hdata d). }
      split_and!; [done| |].
      * clear -Hfirst. induction (View.validators f) as [|w ws IH];
          [constructor|].
        simpl in Hfirst. destruct (w val) eqn:Hw; [done|].
        constructor; [done|by apply IH].
      * destruct Hlookup as [->|[Hnone _]]; [done|congruence].
    + intros e. unfold View.validateRaw, View.typedString.
      destruct (ParseStringTo (View.fieldType f) v) as [val'|e0] eqn:Hval.
      * destruct (View.firstError (View.validators f) val') as [e1|]
          eqn:Hfirst; [|done].
        intros [= <-]. simpl. by apply (firstError_plain _ _ _ Hvs Hfirst).
      * intros [= <-]. simpl.
        by apply (ParseStringTo_error_plain _ _ _ HT Hval).
Qed.

End Overlay.

Lemma URL_parameters_stored_witness :
  ({[ "id" := Str "1"; "extra" := Str "x" ]} : gmap string any) !! "extra"
  = Some (Str "x").
Proof.
  destruct (URL_parameters_stored keyOrder keyOrder_valid
              (View.AllowUnknownFields
                 (View.WithFields [View.Field TString "id" []]))
              (Doc (JObject [("id", JString "1")])) [ {[ "extra" := "x" ]} ]
              {[ "id" := Str "1"; "extra" := Str "x" ]}
              {[ "extra" := "x" ]} "extra" "x") as [Hunknown _].
  - repeat constructor. by intros ?%elem_of_nil.
  - by intros g [->|?%elem_of_nil]%elem_of_cons.
  - done.
  - by vm_compute.
  - left.
  - done.
  - apply Hunknown. by intros [?|?%elem_of_nil]%elem_of_cons.
Defined.

(** ** Making a schema permissive *)

Lemma urlParam_permissive (s : View.Schema) (voFields : gmap string bool)
    (l : list (string * string)) :
  ∀ st st' : gmap string error * gmap string string,
    st.2 = st'.2 → (st.1 = ∅ → st'.1 = ∅) →
    (foldl (View.urlParam s voFields) st l).2
    = (foldl (View.urlParam (View.AllowUnknownFields s) voFields) st' l).2
    ∧ ((foldl (View.urlParam s voFields) st l).1 = ∅ →
       (foldl (View.urlParam (View.AllowUnknownFields s) voFields) st' l).1
       = ∅).
Proof.
  induction l as [|[k v] l IH]; intros st st' Hpair Herrs; [done|].
  simpl. apply IH.
  - destruct st, st'. simpl in *. by subst.
  - intros Hempty.
    destruct (urlParam_no_error _ _ _ _ _ Hempty) as (Hst & Hk & _).
    destruct st as [errs urlPair], st' as [errs' urlPair'].
    simpl in *. subst urlPair'. rewrite Hk. by apply Herrs.
Qed.

Section Permissive.
Variable range : rangeOrder.
Hypothesis valid : rangeOrder_valid range.

Lemma mergeUrlParams_permissive (s : View.Schema)
    (voFields : gmap string bool) (urlParams : list (gmap string string)) :
  (View.mergeUrlParams range s voFields urlParams).1 = ∅ →
  View.mergeUrlParams range (View.AllowUnknownFields s) voFields urlParams
  = (∅, (View.mergeUrlParams range s voFields urlParams).2).
Proof.
  unfold View.mergeUrlParams.
  assert (Hmerge : ∀ st st' : gmap string error * gmap string string,
    st.2 = st'.2 → (st.1 = ∅ → st'.1 = ∅) →
    (foldl (λ st pair,
              foldl (View.urlParam s voFields) st (range string pair))
       st urlParams).2
    = (foldl (λ st pair,
                foldl (View.urlParam (View.AllowUnknownFields s) voFields) st
                  (range string pair)) st' urlParams).2
    ∧ ((foldl (λ st pair,
                 foldl (View.urlParam s voFields) st (range string pair))
          st urlParams).1 = ∅ →
       (foldl (λ st pair,
                 foldl (View.urlParam (View.AllowUnknownFields s) voFields)
                   st (range string pair)) st' urlParams).1 = ∅)).
  { induction urlParams as [|p ps IH]; intros st st' Hpair Herrs; [done|].
    simpl.
    destruct (urlParam_permissive s voFields (range string p)
                st st' Hpair Herrs) as [Hpair' Herrs'].
    apply IH; [exact Hpair'|exact Herrs']. }
  intros Hempty.
  destruct (Hmerge (∅, ∅) (∅, ∅) eq_refl (λ _, eq_refl)) as [Hpair Herrs].
  apply injective_projections; simpl; [exact (Herrs Hempty)|symmetry; exact Hpair].
Qed.

Lemma jsonKey_permissive (s : View.Schema) (voFields : gmap string bool)
    (urlPair : gmap string string) (keys : list string) :
  ∀ errs,
    foldl (View.jsonKey s voFields urlPair) errs keys = ∅ →
    foldl (View.jsonKey (View.AllowUnknownFields s) voFields urlPair)
      errs keys = ∅.
Proof.
  induction keys as [|k keys IH]; intros errs; simpl; [done|].
  intros Hempty. pose proof (foldl_jsonKey_no_error _ _ _ _ _ Hempty) as Hk.
  assert (View.jsonKey (View.AllowUnknownFields s) voFields urlPair errs k
          = View.jsonKey s voFields urlPair errs k) as ->; [|by apply IH].
  unfold View.jsonKey in *. simpl.
  destruct (urlPair !! k); [|].
  - destruct (View.allowUnknownFields s);
      [done|]. destruct (voFields !! k); by apply add_non_empty in Hk.
  - destruct (View.allowUnknownFields s); [done|].
    destruct (voFields !! k); [done|]. by apply add_non_empty in Hk.
Qed.

Lemma structuralPhase_permissive (s : View.Schema) (json : document)
    (urlParams : list (gmap string string)) :
  (View.structuralPhase range s json urlParams).1 = ∅ →
  View.structuralPhase range (View.AllowUnknownFields s) json urlParams
  = (∅, (View.structuralPhase range s json urlParams).2).
Proof.
  unfold View.structuralPhase. cbv zeta. simpl.
  change (View.voFieldsOf (View.AllowUnknownFields s))
    with (View.voFieldsOf s).
  intros Hempty.
  pose proof (foldl_jsonKey_no_error _ _ _ _ _ Hempty) as Hmerged.
  rewrite mergeUrlParams_permissive by done. simpl.
  rewrite Hmerged in Hempty. by rewrite jsonKey_permissive.
Qed.

(** X24. Making a schema permissive keeps every success.  When a
    validation succeeds, the validation against the same schema made
    permissive succeeds on the same input, and its result is the former
    result with, besides, the URL parameters under the keys the former
    result does not hold. *)
Theorem permissive_keeps_success (s : View.Schema) (json : document)
    (urlParams : list (gmap string string)) (vo : gmap string any) :
  View.Validate range s json urlParams = Ret (Ok vo) →
  View.Validate range (View.AllowUnknownFields s) json urlParams
  = Ret (Ok (vo ∪ (Str <$> (View.structuralPhase range s json urlParams).2))).
Proof.
  intros Hvalidate.
  destruct (Validate_Ok_phases range valid s json urlParams vo Hvalidate)
    as (Hst0 & object & Hfold & Hvo).
  rewrite Validate_unfold.
  assert (match View.err (View.structuralPhase range
                            (View.AllowUnknownFields s) json urlParams).1 with
          | Some e => Ret (Err e)
          | None =>
              st ←! foldlM (View.fieldStep range json
                              (View.structuralPhase range
                                 (View.AllowUnknownFields s) json urlParams).2)
                      (∅, (View.structuralPhase range
                             (View.AllowUnknownFields s) json urlParams).1)
                      (View.fields (View.AllowUnknownFields s));
              Ret (match View.err st.2 with
                   | Some e => Err e
                   | None =>
                       Ok (if View.allowUnknownFields
                                (View.AllowUnknownFields s)
                           then View.addUrlParams range st.1
                                  (View.structuralPhase range
                                     (View.AllowUnknownFields s) json
                                     urlParams).2
                           else st.1)
                   end)
          end
          = Ret (Ok (vo ∪ (Str <$> (View.structuralPhase range s json
                                      urlParams).2)))) as Hphases.
  { rewrite structuralPhase_permissive by done.
    change (View.fields (View.AllowUnknownFields s)) with (View.fields s).
    change (View.allowUnknownFields (View.AllowUnknownFields s)) with true.
    cbn [fst snd]. rewrite err_empty, Hfold. cbn [obind fst snd].
    rewrite err_empty.
    rewrite addUrlParams_union by done. do 2 f_equal.
    rewrite Hvo. destruct (View.allowUnknownFields s); [|done].
    by rewrite <-(assoc (∪)), (idemp (∪)). }
  destruct json as [|text|j]; [exact Hphases| |exact Hphases].
  by rewrite Validate_unfold in Hvalidate.
Qed.

End Permissive.

Lemma permissive_keeps_success_witness :
  View.Validate keyOrder
    (View.AllowUnknownFields (View.WithFields [View.Field TString "id" []]))
    (Doc (JObject [("id", JString "1")])) []
  = Ret (Ok ({[ "id" := Str "1" ]}
             ∪ (Str <$> (View.structuralPhase keyOrder
                           (View.WithFields [View.Field TString "id" []])
                           (Doc (JObject [("id", JString "1")])) []).2))).
Proof.
  apply (permissive_keeps_success keyOrder keyOrder_valid
           (View.WithFields [View.Field TString "id" []])
           (Doc (JObject [("id", JString "1")])) [] {[ "id" := Str "1" ]}).
  by vm_compute.
Defined.
